(** * Cython_Overview: the Riemann-sum integrators of the notebook

    A shallow embedding of the integration routines of
    [1_basic/Cython_Overview.ipynb] and of the standalone [integrate.pyx]:
    [integrate_python], [integrate_numpy], [integrate_cython_types],
    [integrate_cython_libc], [integrate_cython_cfun] and [integrate], and
    of the timing report [evalTime] of the notebook.

    Numbers are IEEE-754 binary64 values ([spec_float] with precision 53 and
    [emax] 1024, round to nearest even), Python exceptions are an error
    monad, and the C library's [sin] and [cos] are a parameter of the
    development.  Distances to the exact integral are taken over the real
    values of the doubles ([to_R]), for a libm within [2^-52] of the real
    sine and cosine ([accurate]). *)

From Stdlib Require Import String Reals Lra ZArith List Bool Lia SpecFloat.
From Stdlib Require DecimalString.
Import ListNotations.
Local Open Scope Z_scope.

(** ** Binary64 arithmetic *)

Module F64.

Definition prec : Z := 53.
Definition emax : Z := 1024.

Definition float := spec_float.

Definition add : float -> float -> float := SFadd prec emax.
Definition sub : float -> float -> float := SFsub prec emax.
Definition mul : float -> float -> float := SFmul prec emax.
Definition div : float -> float -> float := SFdiv prec emax.
Definition abs : float -> float := SFabs.
Definition leb : float -> float -> bool := SFleb.

(** Conversion of an integer, rounding to nearest even; an integer beyond
    the range rounds to an infinity. *)
Definition of_Z (z : Z) : float := binary_normalize prec emax z 0 false.

Definition zero : float := S754_zero false.
Definition nzero : float := S754_zero true.
Definition one : float := S754_finite false 4503599627370496 (-52).
Definition nan : float := S754_nan.
Definition max_float : float := S754_finite false 9007199254740991 971.

Definition is_nan (x : float) : bool :=
  match x with S754_nan => true | _ => false end.

Definition is_inf (x : float) : bool :=
  match x with S754_infinity _ => true | _ => false end.

Definition is_zero (x : float) : bool :=
  match x with S754_zero _ => true | _ => false end.

(** [isfinite] of C: neither an infinity nor a NaN. *)
Definition is_finite (x : float) : bool :=
  match x with S754_zero _ | S754_finite _ _ _ => true | _ => false end.

(** The values a C [double] can hold: mantissa and exponent are canonical. *)
Definition valid (x : float) : bool := valid_binary prec emax x.

(** A finite double. *)
Definition finite (x : float) : bool := is_finite x && valid x.

(** Sign bit, [false] for a NaN. *)
Definition signbit (x : float) : bool :=
  match x with
  | S754_zero s | S754_infinity s | S754_finite s _ _ => s
  | S754_nan => false
  end.

End F64.

Import F64.

(** ** Python exceptions *)

Inductive exn : Type :=
| ZeroDivisionError
| OverflowError
| ValueError.

Inductive result (A : Type) : Type :=
| Ok (v : A)
| Raise (e : exn).

Arguments Ok {A} v.
Arguments Raise {A} e.

Definition bind {A B : Type} (c : result A) (k : A -> result B) : result B :=
  match c with
  | Ok v => k v
  | Raise e => Raise e
  end.

Notation "x <- c ;; k" := (bind c (fun x => k))
  (at level 61, c at next level, right associativity).

(** [for i in l: s = body i s], stopping at the first exception. *)
Fixpoint for_each {S : Type} (body : Z -> S -> result S) (l : list Z) (s : S)
  : result S :=
  match l with
  | [] => Ok s
  | i :: l' => s' <- body i s ;; for_each body l' s'
  end.

(** [range(N)]: 0, 1, ..., N-1, empty when [N <= 0]. *)
Definition range (N : Z) : list Z := map Z.of_nat (seq 0 (Z.to_nat N)).

(** ** Python numbers *)

(** The two kinds of Python number the routines handle: [int] of any size
    and [float]. *)
Inductive pynum : Type :=
| PyInt (z : Z)
| PyFloat (x : float).

(** The least magnitude that rounds beyond the largest double,
    [DBL_MAX] plus half a unit in its last place. *)
Definition DBL_LIMIT : Z := 2 ^ 1024 - 2 ^ 970.

(** [PyLong_AsDouble]: correctly rounded, [OverflowError] when the rounded
    value does not fit a double, that is from [DBL_LIMIT] on. *)
Definition float_of_int (z : Z) : result float :=
  match of_Z z with
  | S754_infinity _ => Raise OverflowError
  | x => Ok x
  end.

(** [CONVERT_TO_DOUBLE] of floatobject.c. *)
Definition to_double (v : pynum) : result float :=
  match v with
  | PyFloat x => Ok x
  | PyInt z => float_of_int z
  end.

(** [v + w]. *)
Definition py_add (v w : pynum) : result pynum :=
  match v, w with
  | PyInt x, PyInt y => Ok (PyInt (x + y))
  | _, _ => x <- to_double v ;; y <- to_double w ;; Ok (PyFloat (add x y))
  end.

(** [v * w]. *)
Definition py_mul (v w : pynum) : result pynum :=
  match v, w with
  | PyInt x, PyInt y => Ok (PyInt (x * y))
  | _, _ => x <- to_double v ;; y <- to_double w ;; Ok (PyFloat (mul x y))
  end.

(** [x / w] for a float [x]: [float_div] raises on a zero divisor of either
    sign. *)
Definition py_truediv (x : float) (w : pynum) : result float :=
  y <- to_double w ;;
  if is_zero y then Raise ZeroDivisionError else Ok (div x y).

(** ** The C math library *)

(** [sin] and [cos] of libm, which both [math.sin]/[math.cos] and
    [libc.math] call. *)
Record libm : Type := {
  sin : float -> float;
  cos : float -> float
}.

(** [math_1] of mathmodule.c, the wrapper behind [math.sin] and [math.cos]
    ([can_overflow = 0]): a NaN result of a non-NaN argument and an infinite
    result of a finite argument are reported as [ValueError]. *)
Definition math_1 (func : float -> float) (x : float) : result float :=
  let r := func x in
  if is_nan r && negb (is_nan x) then Raise ValueError
  else if is_inf r && is_finite x then Raise ValueError
  else Ok r.

(** ** Cell 1: base Python *)

Section Notebook.

Variable M : libm.

Definition math_sin : float -> result float := math_1 (sin M).
Definition math_cos : float -> result float := math_1 (cos M).

(** [def fpy(x): return math.sin(x)*math.cos(x)] *)
Definition fpy (x : float) : result float :=
  s <- math_sin x ;;
  c <- math_cos x ;;
  Ok (mul s c).

(** The loop body [s += fpy(a+i*dx)]: [i*dx] converts the integer [i],
    the sum with [a] is a float, and [s] is the integer 0 until the first
    addition. *)
Definition py_body (a dx : float) (i : Z) (s : pynum) : result pynum :=
  idx <- py_mul (PyInt i) (PyFloat dx) ;;
  x <- py_add (PyFloat a) idx ;;
  x <- to_double x ;;
  y <- fpy x ;;
  py_add s (PyFloat y).

(** [[
def integrate_python(a, b, N):
    s = 0
    dx = (b-a)/N
    for i in range(N):
        s += fpy(a+i*dx)
    return s*dx
]] *)
Definition integrate_python (a b : float) (N : Z) : result pynum :=
  let s := PyInt 0 in
  dx <- py_truediv (sub b a) (PyInt N) ;;
  s <- for_each (py_body a dx) (range N) s ;;
  py_mul s (PyFloat dx).

(** ** Cells 3, 5, 7 and integrate.pyx: Cython *)

Definition INT_MIN : Z := - 2 ^ 31.
Definition INT_MAX : Z := 2 ^ 31 - 1.

(** An argument declared [int N]: a Python integer outside the range of a C
    [int] is refused with [OverflowError]. *)
Definition as_c_int (N : Z) : result Z :=
  if (INT_MIN <=? N) && (N <=? INT_MAX) then Ok N else Raise OverflowError.

(** [x / N] on C doubles with [N] a C int.  Without the [cdivision]
    directive Cython tests the divisor and raises [ZeroDivisionError];
    with [cdivision(True)] the division is the machine's. *)
Definition cy_div (cdivision : bool) (x : float) (N : Z) : result float :=
  if negb cdivision && (N =? 0) then Raise ZeroDivisionError
  else Ok (div x (of_Z N)).

(** The loop body [s += f(a+i*dx)] on C doubles, [i] a C int. *)
Definition cy_body (f : float -> result float) (a dx : float) (i : Z)
  (s : float) : result float :=
  y <- f (add a (mul (of_Z i) dx)) ;; Ok (add s y).

(** The routine shared by the Cython variants, [f] being the cell's
    integrand:
    [[
    s = 0
    dx = (b-a)/N
    for i in range(N):
        s += f(a+i*dx)
    return s*dx
    ]]
    with [i] a C int and [s], [dx] C doubles. *)
Definition cy_integrate (cdivision : bool) (f : float -> result float)
  (a b : float) (N : Z) : result float :=
  N <- as_c_int N ;;
  let s := zero in
  dx <- cy_div cdivision (sub b a) N ;;
  s <- for_each (cy_body f a dx) (range N) s ;;
  Ok (mul s dx).

(** Cell 3: [def f(double x): return math.sin(x)*math.cos(x)]. *)
Definition f_types (x : float) : result float := fpy x.

Definition integrate_cython_types : float -> float -> Z -> result float :=
  cy_integrate false f_types.

(** Cell 5: [def f(double x): return sin(x)*cos(x)] on libc's functions. *)
Definition f_libc (x : float) : result float := Ok (mul (sin M x) (cos M x)).

Definition integrate_cython_libc : float -> float -> Z -> result float :=
  cy_integrate false f_libc.

(** Cell 7 and integrate.pyx:
    [cdef double f(double x) except*: return sin(x)*cos(x)]. *)
Definition f (x : float) : result float := Ok (mul (sin M x) (cos M x)).

Definition integrate_cython_cfun : float -> float -> Z -> result float :=
  cy_integrate false f.

(** integrate.pyx: [@cython.cdivision(True) cpdef double integrate(...)]. *)
Definition integrate : float -> float -> Z -> result float :=
  cy_integrate true f.

End Notebook.

(** ** Cell 1: vectorized numpy *)

(** The numpy functions [integrate_numpy] calls, a parameter of the
    routine. *)
Record numpy : Type := {
  np_sin : float -> float;
  np_cos : float -> float;
  np_linspace : float -> float -> Z -> result (list float);
  np_sum : list float -> float
}.

Section Numpy.

Variable NP : numpy.

(** [def fnp(x): return np.sin(x)*np.cos(x)], elementwise on an array. *)
Definition fnp (x : list float) : list float :=
  map (fun v => mul (np_sin NP v) (np_cos NP v)) x.

(** [[
def integrate_numpy(a, b, N):
    x = np.linspace(a, b, N + 1)
    dx = (b - a)/N
    return dx*np.sum(fnp(x)[:-1])
]] *)
Definition integrate_numpy (a b : float) (N : Z) : result float :=
  x <- np_linspace NP a b (N + 1) ;;
  dx <- py_truediv (sub b a) (PyInt N) ;;
  Ok (mul dx (np_sum NP (removelast (fnp x)))).

End Numpy.

(** *** numpy's algorithms

    numpy is not part of the repository; the definitions below follow its
    sources as of numpy 1.12, current when the notebook was written.
    [linspace] (function_base.py) computes [arange(0, num) * step + start]
    and overwrites the last entry with [stop]; [add.reduce] (loops.c.src)
    starts from the identity 0 and adds [pairwise_sum] of the array: fewer
    than 8 elements are added in order, up to [PW_BLOCKSIZE = 128] elements
    go through 8 interleaved accumulators, and longer arrays are split in
    two halves. *)

Definition linspace (start stop : float) (num : Z) : result (list float) :=
  if num <? 0 then Raise ValueError
  else
    let d := num - 1 in
    let y := map of_Z (range num) in
    let delta := sub stop start in
    let y :=
      if 1 <? num then
        let step := div delta (of_Z d) in
        if is_zero step
        then map (fun v => mul (div v (of_Z d)) delta) y
        else map (fun v => mul v step) y
      else map (fun v => mul v delta) y in
    let y := map (fun v => add v start) y in
    Ok (if 1 <? num then removelast y ++ [stop] else y).

(** [r[j] += a[i + j]] for the lanes [j] of one group. *)
Fixpoint add_lanes (r xs : list float) : list float :=
  match r, xs with
  | a :: r', x :: xs' => add a x :: add_lanes r' xs'
  | _, _ => r
  end.

(** [for (i = 8; i < n - (n % 8); i += 8)]: the full groups of 8; returns
    the accumulators and the elements left over. *)
Fixpoint unrolled (fuel : nat) (r xs : list float)
  : list float * list float :=
  match fuel with
  | O => (r, xs)
  | S k =>
      if (8 <=? length xs)%nat
      then unrolled k (add_lanes r (firstn 8 xs)) (skipn 8 xs)
      else (r, xs)
  end.

Definition block_sum (xs : list float) : float :=
  let '(r, rest) := unrolled (length xs) (firstn 8 xs) (skipn 8 xs) in
  match r with
  | [r0; r1; r2; r3; r4; r5; r6; r7] =>
      fold_left add rest
        (add (add (add r0 r1) (add r2 r3)) (add (add r4 r5) (add r6 r7)))
  | _ => fold_left add xs zero
  end.

Definition PW_BLOCKSIZE : nat := 128.

Fixpoint pairwise_sum (fuel : nat) (xs : list float) : float :=
  let n := length xs in
  if (n <? 8)%nat then fold_left add xs zero
  else if (n <=? PW_BLOCKSIZE)%nat then block_sum xs
  else
    match fuel with
    | O => block_sum xs
    | S k =>
        let n2 := (n / 2)%nat in
        let n2 := (n2 - n2 mod 8)%nat in
        add (pairwise_sum k (firstn n2 xs)) (pairwise_sum k (skipn n2 xs))
    end.

Definition add_reduce (xs : list float) : float :=
  add zero (pairwise_sum (length xs) xs).

(** numpy over a given libm: [np.sin] and [np.cos] call the C library. *)
Definition numpy_of (M : libm) : numpy :=
  {| np_sin := sin M; np_cos := cos M;
     np_linspace := linspace; np_sum := add_reduce |}.

(** ** Cell 1: the timing report *)

(** *** Formatting a float

    ['%.<p>f' % x] writes the decimal expansion of [x] correctly rounded,
    ties to even, to [p] digits after the point
    ([PyOS_double_to_string]); infinities and NaN are written [inf],
    [-inf] and [nan]. *)

(** [n / d] rounded to the nearest integer, ties to the even one, for
    [0 <= n] and [0 < d]. *)
Definition div_half_even (n d : Z) : Z :=
  let q := n / d in
  match 2 * (n mod d) ?= d with
  | Lt => q
  | Eq => if Z.even q then q else q + 1
  | Gt => q + 1
  end.

(** [m * 2^e * 10^p] rounded to an integer. *)
Definition scale10 (p : nat) (m : positive) (e : Z) : Z :=
  let n := Zpos m * 10 ^ Z.of_nat p in
  if 0 <=? e then n * 2 ^ e else div_half_even n (2 ^ (- e)).

(** The decimal digits of a natural number. *)
Definition digits (n : Z) : string :=
  DecimalString.NilZero.string_of_uint (N.to_uint (Z.to_N n)).

Fixpoint zeros (n : nat) : string :=
  match n with
  | O => EmptyString
  | S k => ("0" ++ zeros k)%string
  end.

(** The integer [n] of [p] implied decimals, written in fixed point. *)
Definition fixed (p : nat) (sign : bool) (n : Z) : string :=
  let frac := digits (n mod 10 ^ Z.of_nat p) in
  ((if sign then "-" else EmptyString) ++ digits (n / 10 ^ Z.of_nat p) ++
   match p with
   | O => EmptyString
   | _ => "." ++ zeros (p - String.length frac) ++ frac
   end)%string.

Definition format_f (p : nat) (x : float) : string :=
  match x with
  | S754_nan => "nan"%string
  | S754_infinity s => ((if s then "-" else EmptyString) ++ "inf")%string
  | S754_zero s => fixed p s 0
  | S754_finite s m e => fixed p s (scale10 p m e)
  end.

(** *** [evalTime] *)

(** The object [%timeit -o] returns; the report reads its [best], the
    shortest time per loop in seconds. *)
Record TimeitResult : Type := { best : float }.

(** [False], the integer 0 of type [bool]. *)
Definition py_False : pynum := PyInt 0.

(** The truth value of a number: a zero of either kind is false, a NaN is
    true. *)
Definition py_bool (v : pynum) : bool :=
  match v with
  | PyInt z => negb (z =? 0)
  | PyFloat x => negb (is_zero x)
  end.

(** [[
def evalTime(x, name, ref = False):
    string = '%s: %.1f ms' % (name, x.best*1000)
    if ref:
        string += ' (%.1fx faster than base Python)' % (ref/x.best)
    print(string)
]]
    The value is the line printed; an exception leaves nothing printed. *)
Definition evalTime (x : TimeitResult) (name : string) (ref : pynum)
  : result string :=
  ms <- py_mul (PyFloat (best x)) (PyInt 1000) ;;
  ms <- to_double ms ;;
  let string := (name ++ ": " ++ format_f 1 ms ++ " ms")%string in
  string <-
    (if py_bool ref then
       r <- to_double ref ;;
       ratio <- py_truediv r (PyFloat (best x)) ;;
       Ok (string ++ " (" ++ format_f 1 ratio
             ++ "x faster than base Python)")%string
     else Ok string) ;;
  Ok string.

(** ** What the values are compared with *)

Section Reference.

Variable M : libm.

(** The integrand on doubles, [sin(x)*cos(x)]. *)
Definition sincos (x : float) : float := mul (sin M x) (cos M x).

(** The [i]-th left endpoint, [a + i*dx]. *)
Definition sample (a dx : float) (i : Z) : float := add a (mul (of_Z i) dx).

(** The step [(b - a)/N]. *)
Definition step (a b : float) (N : Z) : float := div (sub b a) (of_Z N).

(** The accumulator of the left-endpoint Riemann sum: starting at 0, one
    addition of [sin(a + i*dx) * cos(a + i*dx)] per [i] in 0..N-1. *)
Definition riemann_sum (a dx : float) (N : Z) : float :=
  fold_left (fun s i => add s (sincos (sample a dx i))) (range N) zero.

(** The left-endpoint Riemann sum [s * dx]. *)
Definition left_riemann (a b : float) (N : Z) : float :=
  mul (riemann_sum a (step a b N) N) (step a b N).

(** The trapezoidal rule with [N] subdivisions: each subdivision
    contributes the mean of the integrand at its two ends,
    [dx * sum ((f(x_i) + f(x_(i+1))) / 2)]. *)
Definition trapezoid_rule (a b : float) (N : Z) : float :=
  let dx := step a b N in
  mul (fold_left
         (fun s i =>
            add s (div (add (sincos (sample a dx i))
                            (sincos (sample a dx (i + 1))))
                       (of_Z 2)))
         (range N) zero)
      dx.

End Reference.

(** ** Properties of a libm *)

(** The special values C99 Annex F fixes (F.9.1.5, F.9.1.6) and the range
    of the two functions. *)
Record conforming (M : libm) : Prop := {
  sin_zero : forall s, sin M (S754_zero s) = S754_zero s;
  cos_zero : forall s, cos M (S754_zero s) = one;
  sin_inf : forall s, sin M (S754_infinity s) = nan;
  cos_inf : forall s, cos M (S754_infinity s) = nan;
  sin_nan : sin M nan = nan;
  cos_nan : cos M nan = nan;
  sin_range : forall x, finite x = true ->
    finite (sin M x) = true /\ leb (abs (sin M x)) one = true;
  cos_range : forall x, finite x = true ->
    finite (cos M x) = true /\ leb (abs (cos M x)) one = true
}.

(** A libm to run the routines on: the first-order model [sin x = x]
    saturated at 1 in magnitude and [cos x = 1].  Below [2^-27] in magnitude
    these are the correctly rounded sine and cosine. *)
Definition small_angle_sin (x : float) : float :=
  match x with
  | S754_nan | S754_infinity _ => nan
  | S754_zero _ => x
  | S754_finite s _ _ =>
      if leb (abs x) one then x else S754_finite s 4503599627370496 (-52)
  end.

Definition small_angle_cos (x : float) : float :=
  match x with
  | S754_nan | S754_infinity _ => nan
  | _ => one
  end.

Definition small_angle : libm :=
  {| sin := small_angle_sin; cos := small_angle_cos |}.

(** ** Inputs of the examples *)

(** [0.5*np.pi], the upper bound of the notebook: 1.5707963267948966. *)
Definition half_pi : float := S754_finite false 7074237752028440 (-52).

(** 2^-30, 3*2^-30 and 3*2^-29. *)
Definition two_m30 : float := S754_finite false 4503599627370496 (-82).
Definition three_m30 : float := S754_finite false 6755399441055744 (-81).
Definition three_m29 : float := S754_finite false 6755399441055744 (-80).

(** 2^968, a bound on the interval ends under which nothing overflows. *)
Definition two_968 : float := S754_finite false 4503599627370496 916.

(** Timings that print as the notebook's recorded output: 0.2538 s for the
    interpreted loop and 0.0117 s for the numpy version. *)
Definition t_python : TimeitResult :=
  {| best := S754_finite false 4572054341706528 (-54) |}.
Definition t_numpy : TimeitResult :=
  {| best := S754_finite false 6744590801950055 (-59) |}.

(** ** Notions used in the proofs *)

(** What [binary_round_aux] returns for a rounded mantissa [q] at exponent
    [e]: a zero, the mantissa renormalized after a carry into bit 53, or an
    infinity past the largest exponent. *)
Definition round_result (sx : bool) (q e : Z) : float :=
  if q =? 0 then S754_zero sx
  else if q =? 2 ^ 53 then
    if e + 1 <=? 971 then S754_finite sx (Z.to_pos (2 ^ 52)) (e + 1)
    else S754_infinity sx
  else if e <=? 971 then S754_finite sx (Z.to_pos q) e
  else S754_infinity sx.

(** [x] is a zero or a finite number of magnitude at most [2^n]. *)
Definition mag_le (n : Z) (x : float) : Prop :=
  match x with
  | S754_zero _ => True
  | S754_finite _ m e => e <= n /\ Zpos m <= 2 ^ (n - e)
  | _ => False
  end.

(** Two results agree: the same exception, or values related by [R]. *)
Definition result_rel {A B : Type} (R : A -> B -> Prop)
  (r1 : result A) (r2 : result B) : Prop :=
  match r1, r2 with
  | Ok x, Ok y => R x y
  | Raise e1, Raise e2 => e1 = e2
  | _, _ => False
  end.

(** A Python accumulator [s] holds the double [v]: it is still the initial
    integer 0, or it is the float [v]. *)
Definition holds (s : pynum) (v : float) : Prop :=
  (s = PyInt 0 /\ v = zero) \/ s = PyFloat v.

(** ** Doubles as real numbers *)

(** [2^e] as a real number. *)
Definition pow2 (e : Z) : R := powerRZ 2 e.

(** The sign [-1] or [1] of a sign bit. *)
Definition sgn (s : bool) : R := if s then (-1)%R else 1%R.

(** The real number a double stands for; 0 for an infinity or a NaN. *)
Definition to_R (x : float) : R :=
  match x with
  | S754_finite s m e => (IZR (cond_Zopp s (Zpos m)) * pow2 e)%R
  | _ => 0%R
  end.

(** The sine and cosine of the reals; [sin] and [cos] name the two
    functions of a libm. *)
Abbreviation Rsin := Rtrigo_def.sin.
Abbreviation Rcos := Rtrigo_def.cos.

(** The integrand [sin(x)*cos(x)] of [f] on the reals and its antiderivative
    [sin(x)^2 / 2], which is 0 at 0 and 1/2 at pi/2. *)
Definition sincos_R (x : R) : R := (Rsin x * Rcos x)%R.
Definition half_sin2 (x : R) : R := (/ 2 * (Rsin x * Rsin x))%R.

(** [sum_below g n] is [g 0 + ... + g (n-1)]. *)
Fixpoint sum_below (g : nat -> R) (n : nat) : R :=
  match n with
  | O => 0%R
  | S k => (sum_below g k + g k)%R
  end.

(** A libm whose sine and cosine are within [2^-52] of the real functions
    on arguments of magnitude at most 2. *)
Record accurate (M : libm) : Prop := {
  sin_accurate : forall x, finite x = true -> (Rabs (to_R x) <= 2)%R ->
    (Rabs (to_R (sin M x) - Rsin (to_R x)) <= pow2 (-52))%R;
  cos_accurate : forall x, finite x = true -> (Rabs (to_R x) <= 2)%R ->
    (Rabs (to_R (cos M x) - Rcos (to_R x)) <= pow2 (-52))%R
}.

(** A libm that is both conforming and accurate: the real sine and cosine
    truncated to a multiple of [2^-52], with the special values of C99. *)
Definition grid (r : R) : float :=
  binary_normalize prec emax (Int_part (r * pow2 52)) (-52) false.

Definition grid_sin (x : float) : float :=
  match x with
  | S754_nan | S754_infinity _ => nan
  | S754_zero _ => x
  | S754_finite _ _ _ => grid (Rsin (to_R x))
  end.

Definition grid_cos (x : float) : float :=
  match x with
  | S754_nan | S754_infinity _ => nan
  | S754_zero _ => one
  | S754_finite _ _ _ => grid (Rcos (to_R x))
  end.

Definition grid_libm : libm := {| sin := grid_sin; cos := grid_cos |}.

(** * Rounding

    [binary_round_aux] shifts the mantissa right until it fits 53 bits (or
    the exponent reaches -1074), rounds to nearest even, and renormalizes a
    carry.  The lemmas below describe its result by integer arithmetic. *)

(** Turns the powers of 2 of the goal and context into opaque variables, for
    [lia]. *)
Ltac pow_atoms :=
  repeat match goal with
  | |- context [2 ^ ?e] =>
      let u := fresh "pw" in set (u := 2 ^ e) in *; clearbody u
  | H : context [2 ^ ?e] |- _ =>
      let u := fresh "pw" in set (u := 2 ^ e) in *; clearbody u
  end.

(** [digits2_pos p] is the number of bits of [p]. *)
Lemma digits2_pos_bounds (p : positive) :
  2 ^ (Zpos (digits2_pos p) - 1) <= Zpos p < 2 ^ Zpos (digits2_pos p).
Proof.
  induction p as [p IH | p IH |]; cbn [digits2_pos].
  - rewrite Pos2Z.inj_succ.
    replace (Z.succ (Zpos (digits2_pos p)) - 1) with (Z.succ (Zpos (digits2_pos p) - 1)) by lia.
    rewrite !Z.pow_succ_r by lia. pow_atoms. lia.
  - rewrite Pos2Z.inj_succ.
    replace (Z.succ (Zpos (digits2_pos p)) - 1) with (Z.succ (Zpos (digits2_pos p) - 1)) by lia.
    rewrite !Z.pow_succ_r by lia. pow_atoms. lia.
  - cbn. lia.
Qed.

Lemma digits2_pos_unique (p : positive) (d : Z) :
  2 ^ (d - 1) <= Zpos p < 2 ^ d -> Zpos (digits2_pos p) = d.
Proof.
  intros [Hlo Hhi].
  pose proof (digits2_pos_bounds p) as [Blo Bhi].
  assert (0 < d).
  { destruct (Z.ltb_spec 0 d); [assumption|].
    assert (2 ^ d <= 2 ^ 0) by (apply Z.pow_le_mono_r; lia).
    change (2 ^ 0) with 1 in *. lia. }
  destruct (Z.lt_trichotomy (Zpos (digits2_pos p)) d) as [Hlt | [Heq | Hgt]].
  - assert (2 ^ Zpos (digits2_pos p) <= 2 ^ (d - 1)) by (apply Z.pow_le_mono_r; lia). lia.
  - assumption.
  - assert (2 ^ d <= 2 ^ (Zpos (digits2_pos p) - 1)) by (apply Z.pow_le_mono_r; lia). lia.
Qed.

Lemma iter_pos_nat {A : Type} (f : A -> A) (p : positive) (x : A) :
  iter_pos f p x = Nat.iter (Pos.to_nat p) f x.
Proof.
  revert x. induction p as [p IH | p IH |]; intros x; cbn [iter_pos].
  - rewrite !IH, Pos2Nat.inj_xI.
    replace (S (2 * Pos.to_nat p)) with (Pos.to_nat p + (Pos.to_nat p + 1))%nat by lia.
    rewrite !Nat.iter_add. reflexivity.
  - rewrite !IH, Pos2Nat.inj_xO.
    replace (2 * Pos.to_nat p)%nat with (Pos.to_nat p + Pos.to_nat p)%nat by lia.
    rewrite Nat.iter_add. reflexivity.
  - reflexivity.
Qed.

(** One right shift: the mantissa is halved, the bit shifted out becomes the
    round bit, and the old round bit joins the sticky bit. *)
Lemma shr_1_nonneg (mrs : shr_record) :
  0 <= shr_m mrs ->
  shr_1 mrs = {| shr_m := shr_m mrs / 2; shr_r := Z.odd (shr_m mrs);
                 shr_s := shr_r mrs || shr_s mrs |}.
Proof.
  destruct mrs as [m r s]; cbn [shr_m shr_r shr_s]. intros Hm.
  destruct m as [| p | p]; [reflexivity | | lia].
  destruct p as [p | p |]; cbn [shr_1].
  - f_equal. apply Z.div_unique with (r := 1); lia.
  - f_equal. apply Z.div_unique with (r := 0); lia.
  - reflexivity.
Qed.

Lemma odd_half (y : Z) : Z.odd y = true -> y = 2 * (y / 2) + 1.
Proof.
  intros Ho. pose proof (Z.div_mod y 2 ltac:(lia)) as E.
  rewrite Zmod_odd, Ho in E. exact E.
Qed.

(** After [n] shifts of an exact mantissa [m] the record holds [m / 2^n];
    its round bit is set only if the remainder is at least half of [2^n]. *)
Lemma shr_iter (m : Z) (r0 s0 : bool) (n : nat) :
  0 <= m ->
  let mrs := Nat.iter n shr_1 {| shr_m := m; shr_r := r0; shr_s := s0 |} in
  shr_m mrs = m / 2 ^ Z.of_nat n /\
  (shr_r mrs = true -> r0 = false -> 2 ^ Z.of_nat n <= 2 * (m mod 2 ^ Z.of_nat n)).
Proof.
  intros Hm. induction n as [| n IH].
  - cbn. split; [symmetry; apply Z.div_1_r | congruence].
  - cbn zeta in *. rewrite Nat.iter_succ.
    set (mrs := Nat.iter n shr_1 _) in *. destruct IH as [IHm _].
    assert (Hpos : 0 < 2 ^ Z.of_nat n) by (apply Z.pow_pos_nonneg; lia).
    assert (Hq : 0 <= shr_m mrs) by (rewrite IHm; apply Z.div_pos; lia).
    rewrite (shr_1_nonneg mrs Hq). cbn [shr_m shr_r shr_s].
    rewrite Nat2Z.inj_succ, Z.pow_succ_r by lia.
    rewrite IHm. split.
    + rewrite Z.div_div by lia. f_equal. lia.
    + intros Ho _. apply odd_half in Ho.
      pose proof (Z.div_mod m (2 ^ Z.of_nat n) ltac:(lia)) as E.
      pose proof (Z.mod_pos_bound m (2 ^ Z.of_nat n) Hpos) as B.
      set (a := 2 ^ Z.of_nat n) in *. set (y := m / a) in *.
      set (r := m mod a) in *.
      assert (Hmod : m mod (2 * a) = a + r).
      { symmetry. apply Z.mod_unique with (q := y / 2); [lia | nia]. }
      rewrite Hmod. lia.
Qed.

Lemma shr_nonpos (mrs : shr_record) (e n : Z) : n <= 0 -> shr mrs e n = (mrs, e).
Proof. destruct n; [reflexivity | lia | reflexivity]. Qed.

Lemma shr_spec (m e n : Z) (l : location) :
  0 <= m -> 0 <= n ->
  exists mrs,
    shr (shr_record_of_loc m l) e n = (mrs, e + n) /\
    shr_m mrs = m / 2 ^ n /\
    (l = loc_Exact -> shr_r mrs = true -> 2 ^ n <= 2 * (m mod 2 ^ n)).
Proof.
  intros Hm Hn.
  assert (Hrec : exists r0 s0,
             shr_record_of_loc m l = {| shr_m := m; shr_r := r0; shr_s := s0 |} /\
             (l = loc_Exact -> r0 = false)).
  { destruct l as [| []]; cbn; eauto; do 2 eexists; (split; [reflexivity | discriminate]). }
  destruct Hrec as (r0 & s0 & -> & Hl).
  destruct n as [| p | p]; [| | lia].
  - eexists. split; [cbn; rewrite Z.add_0_r; reflexivity |].
    cbn. split; [symmetry; apply Z.div_1_r |]. intros E R. rewrite (Hl E) in R.
    discriminate.
  - eexists. split; [reflexivity |]. rewrite iter_pos_nat.
    pose proof (shr_iter m r0 s0 (Pos.to_nat p) Hm) as [H1 H2].
    rewrite positive_nat_Z in *. split; [exact H1 |]. intros E R. apply H2; auto.
Qed.

(** Rounding to nearest even keeps the mantissa or adds one, the latter only
    with the round bit set. *)
Lemma rne_bounds (mrs : shr_record) :
  let q' := round_nearest_even (shr_m mrs) (loc_of_shr_record mrs) in
  shr_m mrs <= q' <= shr_m mrs + 1 /\ (q' = shr_m mrs + 1 -> shr_r mrs = true).
Proof.
  destruct mrs as [m [|] [|]]; cbn; try destruct (Z.even m); split; try lia;
    intros; try reflexivity; lia.
Qed.

Lemma fexp_eq (x : Z) : fexp prec emax x = Z.max (x - 53) (-1074).
Proof. reflexivity. Qed.

Lemma Zdigits2_bounds (m : Z) :
  0 <= m -> 0 <= Zdigits2 m /\ m < 2 ^ Zdigits2 m /\ (0 < m -> 2 ^ (Zdigits2 m - 1) <= m).
Proof.
  intros Hm. destruct m as [| p | p]; [cbn; lia | | lia].
  pose proof (digits2_pos_bounds p). cbn [Zdigits2]. lia.
Qed.

Lemma Zdigits2_le (m d : Z) : 0 <= m -> 0 <= d -> m < 2 ^ d -> Zdigits2 m <= d.
Proof.
  intros Hm Hd H. destruct m as [| p | p]; [cbn; lia | | lia].
  pose proof (digits2_pos_bounds p) as [Lo _]. cbn [Zdigits2].
  destruct (Z.leb_spec (Zpos (digits2_pos p)) d); [assumption |].
  assert (2 ^ d <= 2 ^ (Zpos (digits2_pos p) - 1)) by (apply Z.pow_le_mono_r; lia).
  lia.
Qed.

Lemma Zdigits2_ge (m d : Z) : 2 ^ (d - 1) <= m -> 0 < m -> d <= Zdigits2 m.
Proof.
  intros H Hm. destruct m as [| p | p]; [lia | | lia].
  pose proof (digits2_pos_bounds p) as [_ Hi]. cbn [Zdigits2].
  destruct (Z.leb_spec d (Zpos (digits2_pos p))); [assumption |].
  assert (2 ^ Zpos (digits2_pos p) <= 2 ^ (d - 1)) by (apply Z.pow_le_mono_r; lia).
  lia.
Qed.

(** A mantissa rounded at the exponent [fexp] prescribes is canonical. *)
Lemma round_result_valid (sx : bool) (m e k q : Z) :
  0 <= m ->
  k = fexp prec emax (Zdigits2 m + e) - e ->
  0 <= k ->
  m / 2 ^ k <= q <= 2 ^ 53 ->
  valid (round_result sx q (e + k)) = true.
Proof.
  intros Hm Ek Hk [Hlo Hhi]. unfold round_result.
  pose proof (Zdigits2_bounds m Hm) as (D0 & Dhi & Dlo).
  assert (He' : -1074 <= e + k) by (rewrite Ek, fexp_eq; lia).
  destruct (Z.eqb_spec q 0); [reflexivity |].
  destruct (Z.eqb_spec q (2 ^ 53)) as [E53 | N53].
  - destruct (Z.leb_spec (e + k + 1) 971); [| reflexivity].
    unfold valid, valid_binary, bounded, canonical_mantissa.
    change (Zpos (digits2_pos (Z.to_pos (2 ^ 52)))) with 53.
    rewrite fexp_eq. apply andb_true_intro. split; [apply Z.eqb_eq; lia |].
    apply Z.leb_le. change (emax - prec) with 971. lia.
  - destruct (Z.leb_spec (e + k) 971); [| reflexivity].
    assert (Hq : 0 < q).
    { assert (0 <= m / 2 ^ k) by (apply Z.div_pos; [lia | apply Z.pow_pos_nonneg; lia]).
      lia. }
    pose proof (Zdigits2_le q 53 ltac:(lia) ltac:(lia) ltac:(lia)) as Dq.
    destruct q as [| qp | qp]; [lia | | lia].
    cbn [Z.to_pos]. unfold valid, valid_binary, bounded, canonical_mantissa.
    apply andb_true_intro. split; [| apply Z.leb_le; change (emax - prec) with 971; lia].
    apply Z.eqb_eq. rewrite fexp_eq. cbn [Zdigits2] in Dq.
    rewrite fexp_eq in Ek.
    destruct (Z.max_spec (Zdigits2 m + e - 53) (-1074)) as [[_ Em] | [_ Em]];
      rewrite Em in Ek.
    + lia.
    + assert (53 <= Zpos (digits2_pos qp)); [| lia].
      assert (Hmpos : 0 < m).
      { destruct (Z.eq_dec m 0) as [-> |]; [| lia]. cbn in Ek. lia. }
      apply (Zdigits2_ge (Zpos qp) 53); [| lia]. apply Z.le_trans with (2 := Hlo).
      apply Z.div_le_lower_bound; [apply Z.pow_pos_nonneg; lia |].
      rewrite <- Z.pow_add_r by lia.
      replace (k + (53 - 1)) with (Zdigits2 m - 1) by lia. auto.
Qed.

(** The result of [binary_round_aux] on a mantissa that is shifted right by
    [k >= 0] bits: some [q] between the truncated mantissa and its successor,
    rounded up only past the midpoint when the input is exact. *)
Lemma binary_round_aux_spec (sx : bool) (m e : Z) (l : location) :
  0 <= m ->
  let k := fexp prec emax (Zdigits2 m + e) - e in
  0 <= k ->
  exists q,
    m / 2 ^ k <= q <= m / 2 ^ k + 1 /\
    (l = loc_Exact -> q = m / 2 ^ k + 1 -> 2 ^ k <= 2 * (m mod 2 ^ k)) /\
    q <= 2 ^ 53 /\
    binary_round_aux prec emax sx m e l = round_result sx q (e + k) /\
    valid (round_result sx q (e + k)) = true.
Proof.
  intros Hm0 k Hk.
  destruct (shr_spec m e k l Hm0 Hk) as (mrs & Hshr & Hm & Hr).
  pose proof (rne_bounds mrs) as [Hq Hup]. cbn zeta in Hq, Hup.
  set (q := round_nearest_even (shr_m mrs) (loc_of_shr_record mrs)) in *.
  rewrite Hm in Hq, Hup.
  pose proof (Zdigits2_bounds m Hm0) as (D0 & Dhi & Dlo).
  assert (Hk53 : Zdigits2 m <= 53 + k).
  { unfold k. rewrite fexp_eq. lia. }
  assert (Hlt : m / 2 ^ k < 2 ^ 53).
  { apply Z.div_lt_upper_bound; [apply Z.pow_pos_nonneg; lia |].
    rewrite <- Z.pow_add_r by lia.
    apply Z.lt_le_trans with (1 := Dhi). apply Z.pow_le_mono_r; lia. }
  assert (Hge : 0 <= m / 2 ^ k) by (apply Z.div_pos; [lia | apply Z.pow_pos_nonneg; lia]).
  exists q. split; [exact Hq |]. split; [intros El E; apply Hr; auto |].
  split; [lia |].
  split; [| apply (round_result_valid sx m e k q); [exact Hm0 | reflexivity | exact Hk | lia]].
  unfold binary_round_aux, shr_fexp.
  fold k. rewrite Hshr. fold q.
  assert (He' : -1074 <= e + k) by (unfold k; rewrite fexp_eq; lia).
  unfold round_result. cbn [shr_record_of_loc].
  destruct (Z.eqb_spec q 0) as [Hq0 | Hq0].
  - rewrite Hq0. cbn [Zdigits2]. rewrite shr_nonpos by (rewrite fexp_eq; lia).
    reflexivity.
  - destruct (Z.eqb_spec q (2 ^ 53)) as [Hq53 | Hq53].
    + rewrite Hq53.
      change (Zdigits2 (2 ^ 53)) with 54.
      replace (fexp prec emax (54 + (e + k)) - (e + k)) with 1 by (rewrite fexp_eq; lia).
      reflexivity.
    + assert (Hqpos : 0 < q) by lia.
      pose proof (Zdigits2_le q 53 ltac:(lia) ltac:(lia) ltac:(lia)) as Dq.
      rewrite shr_nonpos by (rewrite fexp_eq; lia).
      cbn [shr_m]. destruct q as [| qp | qp]; [lia | | lia]. reflexivity.
Qed.

Lemma pos_iter_xO (mp d : positive) :
  Zpos (Pos.iter xO mp d) = Zpos mp * 2 ^ Zpos d.
Proof.
  induction d as [| d IH] using Pos.peano_ind.
  - cbn. lia.
  - rewrite Pos.iter_succ, Pos2Z.inj_succ, Z.pow_succ_r by lia.
    change (Zpos (Pos.iter xO mp d)~0) with (2 * Zpos (Pos.iter xO mp d)).
    rewrite IH. ring.
Qed.

Lemma shl_align_spec (mp : positive) (e e' : Z) :
  exists mz ez,
    shl_align mp e e' = (mz, ez) /\
    ez = Z.min e e' /\ Zpos mz = Zpos mp * 2 ^ (e - ez).
Proof.
  unfold shl_align. destruct (e' - e) as [| d | d] eqn:E.
  - exists mp, e. split; [reflexivity |]. split; [lia |].
    rewrite Z.sub_diag. lia.
  - exists mp, e. split; [reflexivity |]. split; [lia |].
    rewrite Z.sub_diag. lia.
  - exists (Pos.iter xO mp d), e'. split; [reflexivity |]. split; [lia |].
    rewrite pos_iter_xO. f_equal. f_equal. lia.
Qed.

Lemma digits2_pos_shift (mp mz : positive) (s : Z) :
  0 <= s -> Zpos mz = Zpos mp * 2 ^ s ->
  Zpos (digits2_pos mz) = Zpos (digits2_pos mp) + s.
Proof.
  intros Hs E. apply digits2_pos_unique. rewrite E.
  pose proof (digits2_pos_bounds mp) as [Lo Hi].
  assert (0 < 2 ^ s) by (apply Z.pow_pos_nonneg; lia).
  replace (Zpos (digits2_pos mp) + s - 1) with (Zpos (digits2_pos mp) - 1 + s) by lia.
  rewrite !Z.pow_add_r by lia. split; nia.
Qed.

(** [binary_round] first aligns the mantissa so that no bit is lost. *)
Lemma binary_round_aligned (sx : bool) (mp : positive) (e : Z) :
  exists mz ez,
    binary_round prec emax sx mp e
    = binary_round_aux prec emax sx (Zpos mz) ez loc_Exact /\
    ez <= e /\ Zpos mz = Zpos mp * 2 ^ (e - ez) /\
    Zdigits2 (Zpos mz) + ez = Zpos (digits2_pos mp) + e /\
    0 <= fexp prec emax (Zdigits2 (Zpos mz) + ez) - ez.
Proof.
  unfold binary_round.
  destruct (shl_align_spec mp e (fexp prec emax (Zpos (digits2_pos mp) + e)))
    as (mz & ez & Hal & Hez & Hmz).
  rewrite Hal. exists mz, ez.
  assert (Hd : Zpos (digits2_pos mz) + ez = Zpos (digits2_pos mp) + e).
  { rewrite (digits2_pos_shift mp mz (e - ez)); [lia | lia | exact Hmz]. }
  cbn [Zdigits2]. split; [reflexivity |]. split; [lia |]. split; [exact Hmz |].
  split; [exact Hd |]. rewrite Hd. lia.
Qed.

Lemma pow2_le_exp (a b : Z) : 0 <= a -> 2 ^ a <= 2 ^ b -> a <= b.
Proof.
  intros Ha H. destruct (Z.leb_spec a b); [assumption |].
  destruct (Z.ltb_spec b 0).
  - rewrite (Z.pow_neg_r 2 b) in H by assumption.
    assert (0 < 2 ^ a) by (apply Z.pow_pos_nonneg; lia). lia.
  - assert (2 ^ b < 2 ^ a) by (apply Z.pow_lt_mono_r; lia). lia.
Qed.

Lemma round_result_mag (sx : bool) (q e' n : Z) :
  n <= 1023 -> e' <= n - 52 -> 0 <= q <= 2 ^ (n - e') ->
  valid (round_result sx q e') = true ->
  valid (round_result sx q e') = true /\ mag_le n (round_result sx q e').
Proof.
  intros Hn He [Hq0 Hq] Hv. split; [exact Hv |]. clear Hv.
  unfold round_result.
  destruct (Z.eqb_spec q 0); [cbn; auto |].
  destruct (Z.eqb_spec q (2 ^ 53)) as [E53 | N53].
  - rewrite E53 in Hq. apply pow2_le_exp in Hq; [| lia].
    destruct (Z.leb_spec (e' + 1) 971); [| lia].
    cbn [mag_le]. split; [lia |].
    change (Zpos (Z.to_pos (2 ^ 52))) with (2 ^ 52).
    apply Z.pow_le_mono_r; lia.
  - destruct (Z.leb_spec e' 971); [| lia].
    cbn [mag_le]. split; [lia |].
    rewrite Z2Pos.id by lia. exact Hq.
Qed.

(** Rounding is monotone at a power of 2: a value below [2^n] plus half a
    unit in the last place of [2^n] rounds to at most [2^n]. *)
Lemma binary_round_aux_le_pow2 (sx : bool) (mp : positive) (e n : Z) :
  0 <= fexp prec emax (Zdigits2 (Zpos mp) + e) - e ->
  -1022 <= n <= 1023 -> e <= n - 53 ->
  Zpos mp < 2 ^ (n - e) + 2 ^ (n - 53 - e) ->
  valid (binary_round_aux prec emax sx (Zpos mp) e loc_Exact) = true /\
  mag_le n (binary_round_aux prec emax sx (Zpos mp) e loc_Exact).
Proof.
  intros Hk Hn He Hm.
  destruct (binary_round_aux_spec sx (Zpos mp) e loc_Exact ltac:(lia) Hk)
    as (q & Hq & Hup & H53 & Hr & Hv).
  specialize (Hup eq_refl). cbn [Zdigits2] in *. rewrite Hr.
  set (k := fexp prec emax (Zpos (digits2_pos mp) + e) - e) in *.
  assert (Ee : e + k = Z.max (Zpos (digits2_pos mp) + e - 53) (-1074))
    by (unfold k; rewrite fexp_eq; lia).
  pose proof (digits2_pos_bounds mp) as [Dlo Dhi].
  clearbody k. set (d := Zpos (digits2_pos mp)) in *.
  assert (Hp1 : 0 < 2 ^ (n - 53 - e)) by (apply Z.pow_pos_nonneg; lia).
  assert (Hp2 : 2 ^ (n - e) = 2 ^ 53 * 2 ^ (n - 53 - e)).
  { rewrite <- Z.pow_add_r by lia. f_equal. lia. }
  assert (Hd : d <= n - e + 1).
  { apply (Zdigits2_le (Zpos mp)); [lia | lia |].
    replace (n - e + 1) with (Z.succ (n - e)) by lia.
    rewrite Z.pow_succ_r by lia. change (2 ^ 53) with 9007199254740992 in Hp2. lia. }
  assert (He' : e + k <= n - 52) by lia.
  assert (Hk0 : 0 < 2 ^ k) by (apply Z.pow_pos_nonneg; lia).
  assert (Hge : 0 <= Zpos mp / 2 ^ k) by (apply Z.div_pos; lia).
  apply round_result_mag; [lia | lia | | exact Hv].
  split; [lia |].
  assert (Hsplit : 2 ^ (n - e) = 2 ^ (n - (e + k)) * 2 ^ k).
  { rewrite <- Z.pow_add_r by lia. f_equal. lia. }
  destruct (Z.leb_spec (d + e) n) as [Hle | Hgt].
  - assert (Zpos mp < 2 ^ (n - e)).
    { apply Z.lt_le_trans with (1 := Dhi). apply Z.pow_le_mono_r; lia. }
    assert (Zpos mp / 2 ^ k < 2 ^ (n - (e + k))).
    { apply Z.div_lt_upper_bound; [lia |]. rewrite Z.mul_comm, <- Hsplit. assumption. }
    lia.
  - assert (Ed : d = n - e + 1) by lia.
    assert (Ek : e + k = n - 52) by lia.
    assert (Hlo : 2 ^ (n - e) <= Zpos mp).
    { replace (n - e) with (d - 1) by lia. exact Dlo. }
    replace (n - (e + k)) with 52 in * by lia.
    assert (Hhalf : 2 ^ k = 2 * 2 ^ (n - 53 - e)).
    { rewrite <- Z.pow_succ_r by lia. f_equal. lia. }
    assert (Hdiv : Zpos mp / 2 ^ k = 2 ^ 52).
    { symmetry. apply Z.div_unique with (r := Zpos mp - 2 ^ 52 * 2 ^ k); lia. }
    assert (Hmod : Zpos mp mod 2 ^ k = Zpos mp - 2 ^ 52 * 2 ^ k).
    { symmetry. apply Z.mod_unique with (q := 2 ^ 52); lia. }
    rewrite Hdiv, Hmod in *.
    destruct (Z.eq_dec q (2 ^ 52 + 1)) as [Equp | Nup]; [| lia].
    specialize (Hup Equp). lia.
Qed.

Lemma binary_round_le_pow2 (sx : bool) (mp : positive) (e n : Z) :
  -1022 <= n <= 1023 -> e <= n - 53 ->
  Zpos mp < 2 ^ (n - e) + 2 ^ (n - 53 - e) ->
  valid (binary_round prec emax sx mp e) = true /\
  mag_le n (binary_round prec emax sx mp e).
Proof.
  intros Hn He Hm.
  destruct (binary_round_aligned sx mp e) as (mz & ez & -> & Hez & Hmz & _ & Hk).
  apply binary_round_aux_le_pow2; [exact Hk | exact Hn | lia |].
  rewrite Hmz.
  assert (0 < 2 ^ (e - ez)) by (apply Z.pow_pos_nonneg; lia).
  replace (n - ez) with (n - e + (e - ez)) by lia.
  replace (n - 53 - ez) with (n - 53 - e + (e - ez)) by lia.
  rewrite !Z.pow_add_r by lia. nia.
Qed.


(** ** Operations keep doubles canonical *)

Lemma valid_binary_round (sx : bool) (mp : positive) (e : Z) :
  valid (binary_round prec emax sx mp e) = true.
Proof.
  destruct (binary_round_aligned sx mp e) as (mz & ez & -> & _ & _ & _ & Hk).
  destruct (binary_round_aux_spec sx (Zpos mz) ez loc_Exact ltac:(lia) Hk)
    as (q & _ & _ & _ & -> & Hv).
  exact Hv.
Qed.

Lemma valid_binary_normalize (m e : Z) (sz : bool) :
  valid (binary_normalize prec emax m e sz) = true.
Proof.
  destruct m; cbn [binary_normalize]; [reflexivity | |]; apply valid_binary_round.
Qed.

Lemma valid_of_Z (z : Z) : valid (of_Z z) = true.
Proof. apply valid_binary_normalize. Qed.

Lemma valid_add (x y : float) :
  valid x = true -> valid y = true -> valid (add x y) = true.
Proof.
  intros Hx Hy.
  destruct x as [sx | sx | | sx mx ex], y as [sy | sy | | sy my ey];
    try assumption; try reflexivity;
    try (destruct sx, sy; reflexivity).
  apply valid_binary_normalize.
Qed.

Lemma valid_sub (x y : float) :
  valid x = true -> valid y = true -> valid (sub x y) = true.
Proof.
  intros Hx Hy.
  destruct x as [sx | sx | | sx mx ex], y as [sy | sy | | sy my ey];
    try assumption; try reflexivity;
    try (destruct sx, sy; reflexivity).
  apply valid_binary_normalize.
Qed.

Lemma bounded_canonical (m : positive) (e : Z) :
  bounded prec emax m e = true ->
  e = Z.max (Zpos (digits2_pos m) + e - 53) (-1074) /\ e <= 971.
Proof.
  unfold bounded, canonical_mantissa. intros H.
  apply andb_true_iff in H as [H1 H2].
  apply Z.eqb_eq in H1. apply Z.leb_le in H2. rewrite fexp_eq in H1.
  change (emax - prec) with 971 in H2. lia.
Qed.

Lemma valid_mul (x y : float) :
  valid x = true -> valid y = true -> valid (mul x y) = true.
Proof.
  intros Hx Hy.
  destruct x as [sx | sx | | sx mx ex], y as [sy | sy | | sy my ey];
    try reflexivity.
  cbn [mul SFmul]. unfold mul. cbn [SFmul].
  apply bounded_canonical in Hx as [Cx _]. apply bounded_canonical in Hy as [Cy _].
  pose proof (digits2_pos_bounds mx) as [Xlo Xhi].
  pose proof (digits2_pos_bounds my) as [Ylo Yhi].
  assert (D : Zpos (digits2_pos mx) + Zpos (digits2_pos my) - 1
              <= Zdigits2 (Zpos (mx * my))).
  { apply Zdigits2_ge; [| lia]. rewrite Pos2Z.inj_mul.
    replace (Zpos (digits2_pos mx) + Zpos (digits2_pos my) - 1 - 1)
      with ((Zpos (digits2_pos mx) - 1) + (Zpos (digits2_pos my) - 1)) by lia.
    rewrite Z.pow_add_r by lia.
    apply Z.mul_le_mono_nonneg; try assumption; apply Z.pow_nonneg; lia. }
  assert (Hk : 0 <= fexp prec emax (Zdigits2 (Zpos (mx * my)) + (ex + ey)) - (ex + ey)).
  { rewrite fexp_eq. lia. }
  destruct (binary_round_aux_spec (xorb sx sy) (Zpos (mx * my)) (ex + ey) loc_Exact
              ltac:(lia) Hk) as (q & _ & _ & _ & -> & Hv).
  exact Hv.
Qed.

Lemma valid_div (x y : float) :
  valid x = true -> valid y = true -> valid (div x y) = true.
Proof.
  intros Hx Hy.
  destruct x as [sx | sx | | sx mx ex], y as [sy | sy | | sy my ey];
    try reflexivity.
  unfold div. cbn [SFdiv]. unfold SFdiv_core_binary.
  set (d1 := Zdigits2 (Zpos mx)). set (d2 := Zdigits2 (Zpos my)).
  set (e' := Z.min (fexp prec emax (d1 + ex - (d2 + ey))) (ex - ey)).
  set (s := ex - ey - e').
  set (m' := match s with Z.pos _ => Z.shiftl (Zpos mx) s | 0 => Zpos mx | Z.neg _ => 0 end).
  assert (Hs : 0 <= s) by (unfold s, e'; lia).
  assert (Hm' : m' = Zpos mx * 2 ^ s).
  { unfold m'. destruct s as [| p | p]; [cbn; lia | | lia].
    apply Z.shiftl_mul_pow2. lia. }
  clearbody m'.
  pose proof (Z_div_mod_full m' (Zpos my) ltac:(lia)) as Hdm.
  unfold Z.div, Z.modulo in *.
  assert (Hq : fst (Z.div_eucl m' (Zpos my)) = m' / Zpos my) by reflexivity.
  destruct (Z.div_eucl m' (Zpos my)) as [q r]. cbn [fst] in Hq.
  pose proof (digits2_pos_bounds mx) as [Xlo Xhi].
  pose proof (digits2_pos_bounds my) as [Ylo Yhi].
  assert (Hp : 0 < 2 ^ s) by (apply Z.pow_pos_nonneg; lia).
  assert (Hq0 : 0 <= q).
  { rewrite Hq. apply Z.div_pos; [rewrite Hm'; nia | lia]. }
  assert (Hk : 0 <= fexp prec emax (Zdigits2 q + e') - e').
  { rewrite fexp_eq.
    destruct (Z.leb_spec e' (-1074)); [lia |].
    assert (He' : e' <= d1 + ex - (d2 + ey) - 53).
    { unfold e' in *. rewrite fexp_eq in *. lia. }
    assert (Hdig : d1 + s - d2 <= Zdigits2 q).
    { assert (Hlow : 2 ^ (d1 + s - d2 - 1) <= q).
      { rewrite Hq. apply Z.div_le_lower_bound; [lia |]. rewrite Hm'.
        apply Z.le_trans with (2 ^ d2 * 2 ^ (d1 + s - d2 - 1)).
        - apply Z.mul_le_mono_nonneg_r; [apply Z.pow_nonneg; lia |].
          unfold d2. cbn [Zdigits2]. lia.
        - rewrite <- Z.pow_add_r by (unfold d1, d2, s in *; cbn [Zdigits2] in *; lia).
          replace (d2 + (d1 + s - d2 - 1)) with (d1 - 1 + s) by lia.
          rewrite Z.pow_add_r by (unfold d1; cbn [Zdigits2]; lia).
          apply Z.mul_le_mono_nonneg_r; [lia |]. exact Xlo. }
      apply Zdigits2_ge; [exact Hlow |].
      assert (0 < 2 ^ (d1 + s - d2 - 1)) by (apply Z.pow_pos_nonneg; unfold s in *; lia).
      lia. }
    unfold s in Hdig. lia. }
  destruct (binary_round_aux_spec (xorb sx sy) q e' (new_location (Zpos my) r) Hq0 Hk)
    as (q' & _ & _ & _ & -> & Hv).
  exact Hv.
Qed.


Lemma finite_inv (x : float) :
  finite x = true ->
  (exists s, x = S754_zero s) \/
  (exists s m e, x = S754_finite s m e /\ bounded prec emax m e = true).
Proof.
  destruct x as [s | s | | s m e]; cbn; try discriminate; eauto 6.
Qed.

Lemma finite_valid (x : float) : finite x = true -> valid x = true.
Proof. unfold finite. intros H. apply andb_true_iff in H. tauto. Qed.

Create HintDb binary64.

#[local] Hint Resolve valid_of_Z valid_add valid_sub valid_mul valid_div
  finite_valid : binary64.

(** ** Magnitude bounds *)

Lemma mag_le_mono (n n' : Z) (x : float) : n <= n' -> mag_le n x -> mag_le n' x.
Proof.
  intros Hn. destruct x as [| | | s m e]; cbn; auto. intros [He Hm].
  split; [lia |]. apply Z.le_trans with (1 := Hm). apply Z.pow_le_mono_r; lia.
Qed.

Lemma compare_cont_le (m q : positive) :
  match Pos.compare_cont Eq m q with Gt => false | _ => true end = true ->
  Zpos m <= Zpos q.
Proof.
  intros H. change (Pos.compare_cont Eq m q) with (Pos.compare m q) in H.
  destruct (Pos.compare_spec m q) as [E | L | G]; [lia | lia | discriminate H].
Qed.

Lemma le_one_mag (x : float) :
  finite x = true -> leb (abs x) one = true -> mag_le 0 x.
Proof.
  intros Hf Hle.
  destruct (finite_inv x Hf) as [[s ->] | (s & m & e & -> & Hb)]; [exact I |].
  apply bounded_canonical in Hb as [Hc _].
  pose proof (digits2_pos_bounds m) as [Lo Hi].
  unfold leb, SFleb, abs, SFabs, one, SFcompare in Hle. cbn [mag_le].
  destruct (Z.compare_spec e (-52)) as [E | L | G].
  - subst e. split; [lia |].
    apply compare_cont_le in Hle. exact Hle.
  - clear Hle. split; [lia |].
    assert (2 ^ Zpos (digits2_pos m) <= 2 ^ (0 - e)) by (apply Z.pow_le_mono_r; lia).
    lia.
  - discriminate Hle.
Qed.

Lemma mag_le_zero_exp (s : bool) (m : positive) (e : Z) :
  bounded prec emax m e = true -> mag_le 0 (S754_finite s m e) -> e <= -52.
Proof.
  intros Hb [He Hm]. apply bounded_canonical in Hb as [Hc _].
  pose proof (digits2_pos_bounds m) as [Lo Hi].
  destruct (Z.leb_spec e (-52)); [assumption |].
  assert (Zpos (digits2_pos m) = 53) by lia.
  assert (2 ^ (0 - e) < 2 ^ (Zpos (digits2_pos m) - 1)) by (apply Z.pow_lt_mono_r; lia).
  lia.
Qed.

(** The product of two doubles of magnitude at most 1 has magnitude at most
    1. *)
Lemma mul_mag (x y : float) :
  valid x = true -> valid y = true -> mag_le 0 x -> mag_le 0 y ->
  mag_le 0 (mul x y).
Proof.
  intros Hx Hy Mx My.
  destruct x as [sx | sx | | sx mx ex], y as [sy | sy | | sy my ey];
    try contradiction; try exact I.
  unfold mul. cbn [SFmul].
  pose proof (mag_le_zero_exp _ _ _ Hx Mx) as Ex.
  pose proof (mag_le_zero_exp _ _ _ Hy My) as Ey.
  destruct Mx as [_ Mx], My as [_ My].
  apply bounded_canonical in Hx as [Cx _]. apply bounded_canonical in Hy as [Cy _].
  pose proof (digits2_pos_bounds mx) as [Xlo Xhi].
  pose proof (digits2_pos_bounds my) as [Ylo Yhi].
  assert (D : Zpos (digits2_pos mx) + Zpos (digits2_pos my) - 1
              <= Zdigits2 (Zpos (mx * my))).
  { apply Zdigits2_ge; [| lia]. rewrite Pos2Z.inj_mul.
    replace (Zpos (digits2_pos mx) + Zpos (digits2_pos my) - 1 - 1)
      with ((Zpos (digits2_pos mx) - 1) + (Zpos (digits2_pos my) - 1)) by lia.
    rewrite Z.pow_add_r by lia.
    apply Z.mul_le_mono_nonneg; try assumption; apply Z.pow_nonneg; lia. }
  apply binary_round_aux_le_pow2; [rewrite fexp_eq; lia | lia | lia |].
  assert (0 < 2 ^ (0 - 53 - (ex + ey))) by (apply Z.pow_pos_nonneg; lia).
  replace (0 - (ex + ey)) with ((0 - ex) + (0 - ey)) by lia.
  rewrite Z.pow_add_r by lia. rewrite Pos2Z.inj_mul.
  assert (Zpos mx * Zpos my <= 2 ^ (0 - ex) * 2 ^ (0 - ey));
    [apply Z.mul_le_mono_nonneg; lia | lia].
Qed.

(** Adding a term of magnitude at most 1 to an accumulator of magnitude at
    most [2^54] leaves it at most [2^54]: at [2^54] the term is below half a
    unit in the last place. *)
Lemma add_mag (s t : float) :
  mag_le 54 s -> mag_le 0 t -> mag_le 54 (add s t).
Proof.
  intros Ms Mt.
  destruct s as [ss | ss | | ss ms es], t as [st | st | | st mt et];
    try contradiction.
  - destruct ss, st; exact I.
  - apply mag_le_mono with (n := 0); [lia | exact Mt].
  - exact Ms.
  - unfold add. cbn [SFadd]. destruct Ms as [Es Ms], Mt as [Et Mt].
    set (ez := Z.min es et).
    destruct (shl_align_spec ms es ez) as (as_ & e1 & -> & He1 & HA).
    destruct (shl_align_spec mt et ez) as (at_ & e2 & -> & He2 & HB).
    cbn [fst]. replace e1 with ez in HA by lia. replace e2 with ez in HB by lia.
    assert (Ha : Zpos as_ <= 2 ^ (54 - ez)).
    { rewrite HA. replace (54 - ez) with ((54 - es) + (es - ez)) by lia.
      rewrite Z.pow_add_r by lia.
      apply Z.mul_le_mono_nonneg_r; [apply Z.pow_nonneg; lia | exact Ms]. }
    assert (Hb : Zpos at_ <= 2 ^ (0 - ez)).
    { rewrite HB. replace (0 - ez) with ((0 - et) + (et - ez)) by lia.
      rewrite Z.pow_add_r by lia.
      apply Z.mul_le_mono_nonneg_r; [apply Z.pow_nonneg; lia | exact Mt]. }
    assert (Hp : 0 < 2 ^ (0 - ez)) by (apply Z.pow_pos_nonneg; lia).
    assert (Hp2 : 2 ^ (54 - 53 - ez) = 2 * 2 ^ (0 - ez)).
    { rewrite <- Z.pow_succ_r by lia. f_equal. lia. }
    set (M := cond_Zopp ss (Zpos as_) + cond_Zopp st (Zpos at_)).
    assert (HM : Z.abs M <= Zpos as_ + Zpos at_).
    { unfold M. destruct ss, st; cbn [cond_Zopp]; lia. }
    assert (Hez : ez <= 0) by (unfold ez; lia).
    clearbody M ez.
    destruct M as [| p | p]; cbn [binary_normalize]; [exact I | |];
      (apply binary_round_le_pow2; [lia | lia |]);
      rewrite Hp2; clear Hp2; pow_atoms; lia.
Qed.


(** ** Conversion of integers *)

Lemma DBL_LIMIT_lt : DBL_LIMIT < 2 ^ 1024.
Proof. vm_compute. reflexivity. Qed.

Lemma DBL_LIMIT_double : 2 * DBL_LIMIT = 2 ^ 971 * (2 * 2 ^ 53 - 1).
Proof. vm_compute. reflexivity. Qed.

(** An integer below [DBL_LIMIT] rounds to a normal double of magnitude at
    least 1. *)
Lemma binary_round_int_finite (sx : bool) (p : positive) :
  Zpos p < DBL_LIMIT ->
  exists m e,
    binary_round prec emax sx p 0 = S754_finite sx m e /\
    2 ^ 52 <= Zpos m /\ -52 <= e.
Proof.
  intros Hp.
  destruct (binary_round_aligned sx p 0) as (mz & ez & -> & Hez & Hmz & Hd & Hk).
  destruct (binary_round_aux_spec sx (Zpos mz) ez loc_Exact ltac:(lia) Hk)
    as (q & Hq & Hup & H53 & -> & _).
  specialize (Hup eq_refl).
  set (k := fexp prec emax (Zdigits2 (Zpos mz) + ez) - ez) in *.
  pose proof (digits2_pos_bounds p) as [Plo Phi].
  pose proof (digits2_pos_bounds mz) as [Zlo Zhi].
  cbn [Zdigits2] in *. set (d := Zpos (digits2_pos p)) in *.
  set (dz := Zpos (digits2_pos mz)) in *.
  assert (Hd1024 : d <= 1024).
  { apply (Zdigits2_le (Zpos p)); [lia | lia |].
    apply Z.lt_trans with (1 := Hp). exact DBL_LIMIT_lt. }
  assert (Ek : k = dz - 53) by (unfold k; rewrite fexp_eq; lia).
  assert (Hk0 : 0 < 2 ^ k) by (apply Z.pow_pos_nonneg; lia).
  assert (Hlow : 2 ^ 52 <= Zpos mz / 2 ^ k).
  { apply Z.div_le_lower_bound; [lia |]. rewrite <- Z.pow_add_r by lia.
    replace (k + 52) with (dz - 1) by lia. exact Zlo. }
  unfold round_result.
  assert (0 < 2 ^ 52) by (apply Z.pow_pos_nonneg; lia).
  destruct (Z.eqb_spec q 0); [lia |].
  destruct (Z.eqb_spec q (2 ^ 53)) as [E53 | N53].
  - destruct (Z.leb_spec (ez + k + 1) 971).
    { do 2 eexists. split; [reflexivity |]. rewrite Z2Pos.id by lia. lia. }
    exfalso.
    assert (Ed : d = 1024) by lia.
    assert (Hlt : Zpos mz / 2 ^ k < 2 ^ 53).
    { apply Z.div_lt_upper_bound; [lia |]. rewrite <- Z.pow_add_r by lia.
      replace (k + 53) with dz by lia. exact Zhi. }
    assert (Equp : q = Zpos mz / 2 ^ k + 1) by lia.
    specialize (Hup Equp).
    pose proof (Z.div_mod (Zpos mz) (2 ^ k) ltac:(lia)) as Edm.
    assert (Hpe : 0 < 2 ^ (0 - ez)) by (apply Z.pow_pos_nonneg; lia).
    assert (Hsplit : 2 ^ k = 2 ^ 971 * 2 ^ (0 - ez)).
    { rewrite <- Z.pow_add_r by lia. f_equal. lia. }
    assert (Hdiv : Zpos mz / 2 ^ k = 2 ^ 53 - 1) by lia.
    rewrite Hdiv in Edm.
    assert (H2 : 2 ^ k * (2 * 2 ^ 53 - 1) <= 2 * Zpos mz).
    { set (R := Zpos mz mod 2 ^ k) in *. set (K := 2 ^ k) in *.
      set (T := 2 ^ 53) in *. clearbody R K T. nia. }
    rewrite Hmz, Hsplit in H2.
    assert (H3 : 2 ^ 971 * (2 * 2 ^ 53 - 1) <= 2 * Zpos p).
    { apply Z.mul_le_mono_pos_r with (p := 2 ^ (0 - ez)); [exact Hpe |].
      set (E := 2 ^ (0 - ez)) in *. set (A := 2 ^ 971) in *. set (T := 2 ^ 53) in *.
      clearbody E A T. nia. }
    rewrite <- DBL_LIMIT_double in H3.
    set (L := DBL_LIMIT) in *. clearbody L. lia.
  - destruct (Z.leb_spec (ez + k) 971); [| lia].
    do 2 eexists. split; [reflexivity |]. rewrite Z2Pos.id by lia. lia.
Qed.

Lemma of_Z_pos (z : Z) :
  0 < z < DBL_LIMIT ->
  exists m e, of_Z z = S754_finite false m e /\ 2 ^ 52 <= Zpos m /\ -52 <= e.
Proof.
  intros [H0 H1]. destruct z as [| p | p]; [lia | | lia].
  apply binary_round_int_finite. exact H1.
Qed.

Lemma of_Z_neg (z : Z) :
  - DBL_LIMIT < z < 0 ->
  exists m e, of_Z z = S754_finite true m e /\ 2 ^ 52 <= Zpos m /\ -52 <= e.
Proof.
  intros [H0 H1]. destruct z as [| p | p]; [lia | lia |].
  apply binary_round_int_finite. lia.
Qed.

Lemma float_of_int_ok (z : Z) :
  - DBL_LIMIT < z < DBL_LIMIT -> float_of_int z = Ok (of_Z z).
Proof.
  intros Hz. unfold float_of_int.
  destruct (Z.lt_trichotomy z 0) as [L | [E | G]].
  - destruct (of_Z_neg z ltac:(lia)) as (m & e & -> & _). reflexivity.
  - subst z. reflexivity.
  - destruct (of_Z_pos z ltac:(lia)) as (m & e & -> & _). reflexivity.
Qed.


(** ** Division by a double of magnitude at least 1 *)

(** The quotient and remainder [SFdiv] hands to the rounding, and the
    exponent it chooses, which never asks for a left shift. *)
Lemma div_core_spec (mx my : positive) (ex ey : Z) :
  exists q e' s r,
    SFdiv_core_binary prec emax (Zpos mx) ex (Zpos my) ey
    = (q, e', new_location (Zpos my) r) /\
    0 <= s /\ e' = ex - ey - s /\
    Zpos mx * 2 ^ s = Zpos my * q + r /\ 0 <= r < Zpos my /\ 0 <= q /\
    0 <= fexp prec emax (Zdigits2 q + e') - e'.
Proof.
  unfold SFdiv_core_binary.
  set (d1 := Zdigits2 (Zpos mx)). set (d2 := Zdigits2 (Zpos my)).
  set (e' := Z.min (fexp prec emax (d1 + ex - (d2 + ey))) (ex - ey)).
  set (s := ex - ey - e').
  set (m' := match s with Z.pos _ => Z.shiftl (Zpos mx) s | 0 => Zpos mx | Z.neg _ => 0 end).
  assert (Hs : 0 <= s) by (unfold s, e'; lia).
  assert (Hm' : m' = Zpos mx * 2 ^ s).
  { unfold m'. destruct s as [| p | p]; [cbn; lia | | lia].
    apply Z.shiftl_mul_pow2. lia. }
  clearbody m'.
  pose proof (Z_div_mod_full m' (Zpos my) ltac:(lia)) as Hdm.
  assert (Hq : fst (Z.div_eucl m' (Zpos my)) = m' / Zpos my) by reflexivity.
  destruct (Z.div_eucl m' (Zpos my)) as [q r]. cbn [fst] in Hq.
  destruct Hdm as [Hdm Hr]. unfold Remainder in Hr.
  pose proof (digits2_pos_bounds mx) as [Xlo Xhi].
  pose proof (digits2_pos_bounds my) as [Ylo Yhi].
  assert (Hp : 0 < 2 ^ s) by (apply Z.pow_pos_nonneg; lia).
  assert (Hq0 : 0 <= q).
  { rewrite Hq. apply Z.div_pos; [rewrite Hm'; nia | lia]. }
  exists q, e', s, r. split; [reflexivity |].
  split; [exact Hs |]. split; [unfold s; lia |].
  split; [rewrite <- Hm'; exact Hdm |]. split; [lia |]. split; [exact Hq0 |].
  rewrite fexp_eq.
  destruct (Z.leb_spec e' (-1074)); [lia |].
  assert (He' : e' <= d1 + ex - (d2 + ey) - 53).
  { unfold e' in *. rewrite fexp_eq in *. lia. }
  assert (Hdig : d1 + s - d2 <= Zdigits2 q).
  { assert (Hlow : 2 ^ (d1 + s - d2 - 1) <= q).
    { rewrite Hq. apply Z.div_le_lower_bound; [lia |]. rewrite Hm'.
      apply Z.le_trans with (2 ^ d2 * 2 ^ (d1 + s - d2 - 1)).
      - apply Z.mul_le_mono_nonneg_r; [apply Z.pow_nonneg; lia |].
        unfold d2. cbn [Zdigits2]. lia.
      - rewrite <- Z.pow_add_r by (unfold d1, d2, s in *; cbn [Zdigits2] in *; lia).
        replace (d2 + (d1 + s - d2 - 1)) with (d1 - 1 + s) by lia.
        rewrite Z.pow_add_r by (unfold d1; cbn [Zdigits2]; lia).
        apply Z.mul_le_mono_nonneg_r; [lia |]. exact Xlo. }
    apply Zdigits2_ge; [exact Hlow |].
    assert (0 < 2 ^ (d1 + s - d2 - 1)) by (apply Z.pow_pos_nonneg; unfold s in *; lia).
    lia. }
  unfold s in Hdig. lia.
Qed.

Lemma new_location_zero (n : Z) : new_location n 0 = loc_Exact.
Proof.
  unfold new_location, new_location_even, new_location_odd.
  destruct (Z.even n); reflexivity.
Qed.

Lemma round_result_sign (sx : bool) (q e : Z) :
  is_finite (round_result sx q e) = true ->
  signbit (round_result sx q e) = sx.
Proof.
  unfold round_result.
  destruct (q =? 0); [reflexivity |].
  destruct (q =? 2 ^ 53); [destruct (e + 1 <=? 971) | destruct (e <=? 971)];
    try reflexivity; discriminate.
Qed.

(** A finite double divided by a normal double of magnitude at least 1 does
    not overflow: the quotient reaches the largest double only when the
    division is exact. *)
Lemma div_normal_finite (sx sy : bool) (mx my : positive) (ex ey : Z) :
  bounded prec emax mx ex = true ->
  bounded prec emax my ey = true ->
  2 ^ 52 <= Zpos my -> -52 <= ey ->
  is_finite (div (S754_finite sx mx ex) (S754_finite sy my ey)) = true.
Proof.
  intros Bx By Hmy Hey.
  apply bounded_canonical in Bx as [Cx Ex]. apply bounded_canonical in By as [Cy _].
  pose proof (digits2_pos_bounds mx) as [Xlo Xhi].
  pose proof (digits2_pos_bounds my) as [Ylo Yhi].
  set (d1 := Zpos (digits2_pos mx)) in *.
  assert (Hd1 : d1 <= 53) by lia.
  unfold div. cbn [SFdiv].
  destruct (div_core_spec mx my ex ey)
    as (q & e' & s & r & -> & Hs & He' & Hdm & Hr & Hq0 & Hk).
  destruct (binary_round_aux_spec (xorb sx sy) q e' (new_location (Zpos my) r) Hq0 Hk)
    as (Q & HQ & Hup & H53 & -> & _).
  set (k := fexp prec emax (Zdigits2 q + e') - e') in *.
  assert (Hk0 : 0 < 2 ^ k) by (apply Z.pow_pos_nonneg; lia).
  assert (Hs0 : 0 < 2 ^ s) by (apply Z.pow_pos_nonneg; lia).
  assert (Hqd : 0 <= q / 2 ^ k) by (apply Z.div_pos; lia).
  (* the quotient has at most d1 + s - 52 digits *)
  assert (Hq52 : q * 2 ^ 52 < 2 ^ (d1 + s)).
  { rewrite Z.pow_add_r by (unfold d1; lia).
    assert (q * 2 ^ 52 <= q * Zpos my) by (apply Z.mul_le_mono_nonneg_l; lia).
    assert (Zpos mx * 2 ^ s < 2 ^ d1 * 2 ^ s) by (apply Z.mul_lt_mono_pos_r; lia).
    lia. }
  assert (Hdq : Zdigits2 q <= Z.max 0 (d1 + s - 52)).
  { destruct (Z.leb_spec (d1 + s) 52) as [Hle | Hgt].
    - assert (2 ^ (d1 + s) <= 2 ^ 52) by (apply Z.pow_le_mono_r; lia).
      assert (q = 0) by nia. subst q. cbn. lia.
    - apply Zdigits2_le; [exact Hq0 | lia |].
      rewrite Z.max_r by lia.
      apply Z.mul_lt_mono_pos_r with (p := 2 ^ 52); [reflexivity |].
      rewrite <- Z.pow_add_r by lia.
      replace (d1 + s - 52 + 52) with (d1 + s) by lia. exact Hq52. }
  assert (HE : e' + k = Z.max (Zdigits2 q + e' - 53) (-1074))
    by (unfold k; rewrite fexp_eq; lia).
  assert (HE971 : e' + k <= 971) by lia.
  unfold round_result.
  destruct (Z.eqb_spec Q 0); [reflexivity |].
  destruct (Z.eqb_spec Q (2 ^ 53)) as [E53 | N53].
  - destruct (Z.leb_spec (e' + k + 1) 971); [reflexivity |]. exfalso.
    assert (Hk52 : s = k + 52) by lia.
    assert (Hmx : Zpos mx <= 2 * 2 ^ 52 - 1).
    { assert (2 ^ d1 <= 2 ^ 53) by (apply Z.pow_le_mono_r; lia).
      change (2 ^ 53) with (2 * 2 ^ 52) in *. lia. }
    assert (Hsp : 2 ^ s = 2 ^ 52 * 2 ^ k).
    { rewrite Hk52, Z.pow_add_r by lia. ring. }
    assert (HqK : (2 * 2 ^ 52 - 1) * 2 ^ k <= q).
    { assert (2 ^ 53 - 1 <= q / 2 ^ k) by lia.
      pose proof (Z.mul_div_le q (2 ^ k) Hk0).
      change (2 ^ 53) with (2 * 2 ^ 52) in *. nia. }
    rewrite Hsp in Hdm.
    set (T := 2 ^ 52) in *. set (K := 2 ^ k) in *.
    assert (HT : 0 < T) by reflexivity.
    assert (Hr0 : r = 0).
    { clearbody T K. nia. }
    assert (HqE : q = (2 * T - 1) * K).
    { clearbody T K. subst r. nia. }
    subst r. rewrite new_location_zero in Hup. specialize (Hup eq_refl).
    assert (Hdiv : q / K = 2 * T - 1).
    { rewrite HqE. apply Z.div_mul. lia. }
    assert (Hmod : q mod K = 0).
    { rewrite HqE. apply Z.mod_mul. lia. }
    rewrite Hdiv, Hmod in Hup. change (2 ^ 53) with (2 * T) in E53.
    rewrite Hdiv in HQ. lia.
  - destruct (Z.leb_spec (e' + k) 971); [reflexivity | lia].
Qed.

Lemma div_normal_sign (sx sy : bool) (mx my : positive) (ex ey : Z) :
  is_finite (div (S754_finite sx mx ex) (S754_finite sy my ey)) = true ->
  signbit (div (S754_finite sx mx ex) (S754_finite sy my ey)) = xorb sx sy.
Proof.
  unfold div. cbn [SFdiv].
  destruct (div_core_spec mx my ex ey)
    as (q & e' & s & r & -> & Hs & He' & Hdm & Hr & Hq0 & Hk).
  destruct (binary_round_aux_spec (xorb sx sy) q e' (new_location (Zpos my) r) Hq0 Hk)
    as (Q & _ & _ & _ & -> & _).
  apply round_result_sign.
Qed.

(** Dividing a finite double by a non-zero integer keeps it finite, with
    the sign of the quotient. *)
Lemma div_int_finite (x : float) (N : Z) :
  finite x = true -> - DBL_LIMIT < N < DBL_LIMIT -> N <> 0 ->
  is_finite (div x (of_Z N)) = true /\
  signbit (div x (of_Z N)) = xorb (signbit x) (N <? 0).
Proof.
  intros Hf HN H0.
  assert (Hy : exists m e, of_Z N = S754_finite (N <? 0) m e /\
                           2 ^ 52 <= Zpos m /\ -52 <= e).
  { destruct (Z.ltb_spec N 0).
    - apply of_Z_neg. lia.
    - apply of_Z_pos. lia. }
  destruct Hy as (my & ey & Ey & Hmy & Hey).
  pose proof (valid_of_Z N) as Vy. rewrite Ey in *.
  destruct (finite_inv x Hf) as [[s ->] | (s & m & e & -> & Hb)].
  - split; reflexivity.
  - pose proof (div_normal_finite s (N <? 0) m my e ey Hb Vy Hmy Hey) as Hfin.
    split; [exact Hfin |]. apply div_normal_sign. exact Hfin.
Qed.

(** An infinity or a NaN divided by a non-zero integer stays one. *)
Lemma div_not_finite (x : float) (N : Z) :
  is_finite x = false -> - DBL_LIMIT < N < DBL_LIMIT -> N <> 0 ->
  is_finite (div x (of_Z N)) = false.
Proof.
  intros Hf HN H0.
  assert (Hy : exists s m e, of_Z N = S754_finite s m e).
  { destruct (Z.lt_trichotomy N 0) as [L | [E | G]]; [| contradiction |].
    - destruct (of_Z_neg N ltac:(lia)) as (m & e & -> & _). eauto.
    - destruct (of_Z_pos N ltac:(lia)) as (m & e & -> & _). eauto. }
  destruct Hy as (s & m & e & ->).
  destruct x as [sx | sx | | sx mx ex]; try discriminate; reflexivity.
Qed.



(** ** Loops *)

Lemma range_nonpos (N : Z) : N <= 0 -> range N = [].
Proof.
  intros H. unfold range. destruct N; try lia; reflexivity.
Qed.

Lemma in_range (N i : Z) : In i (range N) <-> 0 <= i < N.
Proof.
  unfold range. rewrite in_map_iff. split.
  - intros (n & <- & Hn). apply in_seq in Hn. lia.
  - intros Hi. exists (Z.to_nat i). split; [lia |]. apply in_seq. lia.
Qed.

Lemma range_succ (N : Z) : 0 <= N -> range (N + 1) = range N ++ [N].
Proof.
  intros H. unfold range.
  replace (Z.to_nat (N + 1)) with (S (Z.to_nat N)) by lia.
  rewrite seq_S, map_app. cbn. rewrite Z2Nat.id by lia. reflexivity.
Qed.

(** Two loops whose bodies agree step by step agree. *)
Lemma for_each_sim {A B : Type} (R : A -> B -> Prop)
  (body1 : Z -> A -> result A) (body2 : Z -> B -> result B) (l : list Z) :
  (forall i s v, In i l -> R s v -> result_rel R (body1 i s) (body2 i v)) ->
  forall s v, R s v -> result_rel R (for_each body1 l s) (for_each body2 l v).
Proof.
  induction l as [| i l IH]; intros Hb s v Hsv; [exact Hsv |].
  cbn [for_each]. pose proof (Hb i s v (or_introl eq_refl) Hsv) as H.
  destruct (body1 i s) as [s' | e1], (body2 i v) as [v' | e2]; cbn in *;
    try contradiction; [| exact H].
  apply IH; [| exact H]. intros j s0 v0 Hj. apply Hb. right. exact Hj.
Qed.

(** A loop whose body raises nothing is a fold. *)
Lemma for_each_fold {S : Type} (body : Z -> S -> result S) (g : S -> Z -> S)
  (l : list Z) :
  (forall i s, In i l -> body i s = Ok (g s i)) ->
  forall s, for_each body l s = Ok (fold_left g l s).
Proof.
  induction l as [| i l IH]; intros Hb s; [reflexivity |].
  cbn [for_each fold_left]. rewrite Hb by (left; reflexivity). cbn [bind].
  apply IH. intros j s0 Hj. apply Hb. right. exact Hj.
Qed.

Lemma fold_left_invariant {S : Type} (P : S -> Prop) (g : S -> Z -> S) (l : list Z) :
  (forall i s, In i l -> P s -> P (g s i)) ->
  forall s, P s -> P (fold_left g l s).
Proof.
  induction l as [| i l IH]; intros Hg s Hs; [exact Hs |].
  cbn [fold_left]. apply IH.
  - intros j s0 Hj. apply Hg. right. exact Hj.
  - apply Hg; [left; reflexivity | exact Hs].
Qed.

(** ** The integrand *)

Section Integrand.

Variable M : libm.
Hypothesis HM : conforming M.

Lemma math_1_sin_ok (x : float) :
  valid x = true -> is_inf x = false -> math_sin M x = Ok (sin M x).
Proof.
  intros Hv Hi. unfold math_sin, math_1.
  destruct x as [s | s | | s m e]; try discriminate.
  - rewrite (sin_zero M HM). reflexivity.
  - pose proof (sin_nan M HM) as E. unfold nan in E. rewrite E. reflexivity.
  - destruct (sin_range M HM (S754_finite s m e)) as [Hf _]; [exact Hv |].
    destruct (sin M (S754_finite s m e)); try discriminate; reflexivity.
Qed.

Lemma math_1_cos_ok (x : float) :
  valid x = true -> is_inf x = false -> math_cos M x = Ok (cos M x).
Proof.
  intros Hv Hi. unfold math_cos, math_1.
  destruct x as [s | s | | s m e]; try discriminate.
  - rewrite (cos_zero M HM). reflexivity.
  - pose proof (cos_nan M HM) as E. unfold nan in E. rewrite E. reflexivity.
  - destruct (cos_range M HM (S754_finite s m e)) as [Hf _]; [exact Hv |].
    destruct (cos M (S754_finite s m e)); try discriminate; reflexivity.
Qed.

(** [math.sin] and [math.cos] accept every double but the infinities. *)
Lemma fpy_ok (x : float) :
  valid x = true -> is_inf x = false -> fpy M x = Ok (sincos M x).
Proof.
  intros Hv Hi. unfold fpy.
  rewrite math_1_sin_ok, math_1_cos_ok by assumption. reflexivity.
Qed.

Lemma sincos_mag (x : float) :
  finite x = true -> valid (sincos M x) = true /\ mag_le 0 (sincos M x).
Proof.
  intros Hf. destruct (sin_range M HM x Hf) as [Sf Sl].
  destruct (cos_range M HM x Hf) as [Cf Cl]. unfold sincos. split.
  - auto with binary64.
  - apply mul_mag; auto using le_one_mag with binary64.
Qed.

End Integrand.

(** ** Samples *)

Lemma valid_step (a b : float) (N : Z) :
  valid a = true -> valid b = true -> valid (step a b N) = true.
Proof.
  intros Ha Hb. unfold step. auto with binary64.
Qed.

Lemma valid_sample (a dx : float) (i : Z) :
  valid a = true -> valid dx = true -> valid (sample a dx i) = true.
Proof.
  intros Ha Hd. unfold sample. auto with binary64.
Qed.

Lemma of_Z_nonzero (z : Z) :
  - DBL_LIMIT < z < DBL_LIMIT -> z <> 0 -> is_zero (of_Z z) = false.
Proof.
  intros Hz Hn. destruct (Z.lt_trichotomy z 0) as [L | [E | G]]; [| contradiction |].
  - destruct (of_Z_neg z ltac:(lia)) as (m & e & -> & _). reflexivity.
  - destruct (of_Z_pos z ltac:(lia)) as (m & e & -> & _). reflexivity.
Qed.

Lemma py_truediv_ok (x : float) (N : Z) :
  - DBL_LIMIT < N < DBL_LIMIT -> N <> 0 ->
  py_truediv x (PyInt N) = Ok (div x (of_Z N)).
Proof.
  intros HN H0. unfold py_truediv. cbn [to_double].
  rewrite float_of_int_ok by assumption. cbn [bind].
  rewrite of_Z_nonzero by assumption. reflexivity.
Qed.

(** ** The Python loop against the C loop *)

Lemma holds_add (s : pynum) (v y : float) :
  holds s v -> py_add s (PyFloat y) = Ok (PyFloat (add v y)).
Proof. intros [[-> ->] | ->]; reflexivity. Qed.

Lemma holds_mul (s : pynum) (v y : float) :
  holds s v -> py_mul s (PyFloat y) = Ok (PyFloat (mul v y)).
Proof. intros [[-> ->] | ->]; reflexivity. Qed.


(** ** The routines *)

Section Routines.

Variable M : libm.

Lemma integrate_python_eq (a b : float) (N : Z) :
  integrate_python M a b N =
  (dx <- py_truediv (sub b a) (PyInt N) ;;
   s <- for_each (py_body M a dx) (range N) (PyInt 0) ;;
   py_mul s (PyFloat dx)).
Proof. reflexivity. Qed.

Lemma cy_integrate_eq (cdivision : bool) (g : float -> result float)
  (a b : float) (N : Z) :
  cy_integrate cdivision g a b N =
  (N <- as_c_int N ;;
   dx <- cy_div cdivision (sub b a) N ;;
   s <- for_each (cy_body g a dx) (range N) zero ;;
   Ok (mul s dx)).
Proof. reflexivity. Qed.

Lemma py_body_eq (a dx : float) (i : Z) (s : pynum) :
  - DBL_LIMIT < i < DBL_LIMIT ->
  py_body M a dx i s = (y <- fpy M (sample a dx i) ;; py_add s (PyFloat y)).
Proof.
  intros Hi. unfold py_body. cbn [py_mul to_double].
  rewrite float_of_int_ok by assumption. reflexivity.
Qed.

Lemma as_c_int_ok (N : Z) : INT_MIN <= N <= INT_MAX -> as_c_int N = Ok N.
Proof.
  intros [H1 H2]. unfold as_c_int.
  apply Z.leb_le in H1. apply Z.leb_le in H2. rewrite H1, H2. reflexivity.
Qed.

Lemma int_range_dbl (N : Z) : INT_MIN <= N <= INT_MAX -> - DBL_LIMIT < N < DBL_LIMIT.
Proof.
  intros H. assert (INT_MAX < DBL_LIMIT) by (vm_compute; reflexivity).
  assert (- DBL_LIMIT < INT_MIN) by (vm_compute; reflexivity).
  set (L := DBL_LIMIT) in *. set (lo := INT_MIN) in *. set (hi := INT_MAX) in *.
  clearbody L lo hi. lia.
Qed.

(** For a C int the two divisions differ at 0 only. *)
Lemma cy_div_ok (cdivision : bool) (x : float) (N : Z) :
  N <> 0 -> cy_div cdivision x N = Ok (div x (of_Z N)).
Proof.
  intros H. unfold cy_div. apply Z.eqb_neq in H. rewrite H, andb_false_r.
  reflexivity.
Qed.

(** The loop of a variant whose integrand raises nothing is the fold of
    [riemann_sum]. *)
Lemma cy_integrate_left (cdivision : bool) (g : float -> result float)
  (a b : float) (N : Z) :
  (forall x, g x = Ok (sincos M x)) ->
  1 <= N <= INT_MAX ->
  cy_integrate cdivision g a b N = Ok (left_riemann M a b N).
Proof.
  intros Hg HN. rewrite cy_integrate_eq.
  rewrite as_c_int_ok by (unfold INT_MIN, INT_MAX in *; lia). cbn [bind].
  rewrite cy_div_ok by lia. cbn [bind].
  rewrite (for_each_fold _ (fun s i => add s (sincos M (sample a (step a b N) i)))).
  - reflexivity.
  - intros i s _. unfold cy_body. rewrite Hg. reflexivity.
Qed.

(** Python and the typed Cython variant run the same loop. *)
Lemma python_types_loop (a dx : float) (l : list Z) (s : pynum) (v : float) :
  (forall i, In i l -> - DBL_LIMIT < i < DBL_LIMIT) ->
  holds s v ->
  result_rel holds (for_each (py_body M a dx) l s)
                   (for_each (cy_body (f_types M) a dx) l v).
Proof.
  intros Hl. apply for_each_sim. intros i s0 v0 Hi Hs.
  rewrite py_body_eq by (apply Hl; exact Hi). unfold cy_body, f_types.
  fold (sample a dx i). destruct (fpy M (sample a dx i)) as [y | e]; cbn [bind].
  - rewrite (holds_add s0 v0 y Hs). cbn. right. reflexivity.
  - reflexivity.
Qed.

Lemma python_types_agree (a b : float) (N : Z) :
  INT_MIN <= N <= INT_MAX ->
  integrate_python M a b N =
  (v <- integrate_cython_types M a b N ;; Ok (PyFloat v)).
Proof.
  intros HN. unfold integrate_cython_types.
  rewrite integrate_python_eq, cy_integrate_eq.
  rewrite as_c_int_ok by assumption. cbn [bind].
  pose proof (int_range_dbl N HN) as HD.
  destruct (Z.eq_dec N 0) as [-> | H0]; [reflexivity |].
  rewrite py_truediv_ok, cy_div_ok by assumption. cbn [bind].
  set (dx := div (sub b a) (of_Z N)).
  assert (Hl : forall i, In i (range N) -> - DBL_LIMIT < i < DBL_LIMIT).
  { intros i Hi. apply in_range in Hi. lia. }
  pose proof (python_types_loop a dx (range N) (PyInt 0) zero Hl
                (or_introl (conj eq_refl eq_refl))) as H.
  destruct (for_each (py_body M a dx) (range N) (PyInt 0)) as [s | e1],
           (for_each (cy_body (f_types M) a dx) (range N) zero) as [v | e2];
    cbn in H; try contradiction; cbn [bind].
  - apply holds_mul. exact H.
  - congruence.
Qed.

(** Where the typed variant returns, the libc variant returns the same. *)
Lemma types_libc_loop (a dx : float) (l : list Z) (s v : float) :
  for_each (cy_body (f_types M) a dx) l s = Ok v ->
  for_each (cy_body (f_libc M) a dx) l s = Ok v.
Proof.
  revert s. induction l as [| i l IH]; intros s; [trivial |].
  cbn [for_each]. unfold cy_body at 1 3, f_types, f_libc, fpy, math_sin, math_cos, math_1.
  set (x := add a (mul (of_Z i) dx)).
  destruct (is_nan (sin M x) && negb (is_nan x)); [discriminate |].
  destruct (is_inf (sin M x) && is_finite x); [discriminate |]. cbn [bind].
  destruct (is_nan (cos M x) && negb (is_nan x)); [discriminate |].
  destruct (is_inf (cos M x) && is_finite x); [discriminate |]. cbn [bind].
  apply IH.
Qed.

Lemma types_libc_agree (a b : float) (N : Z) (v : float) :
  integrate_cython_types M a b N = Ok v ->
  integrate_cython_libc M a b N = Ok v.
Proof.
  unfold integrate_cython_types, integrate_cython_libc.
  rewrite !cy_integrate_eq.
  destruct (as_c_int N) as [n | e]; [cbn [bind] | discriminate].
  destruct (cy_div false (sub b a) n) as [dx | e]; [cbn [bind] | discriminate].
  destruct (for_each (cy_body (f_types M) a dx) (range n) zero) as [s | e] eqn:E;
    [cbn [bind] | discriminate].
  rewrite (types_libc_loop a dx (range n) zero s E). trivial.
Qed.

Lemma python_loop_left (a dx : float) (l : list Z) :
  (forall i, In i l ->
     - DBL_LIMIT < i < DBL_LIMIT /\
     fpy M (sample a dx i) = Ok (sincos M (sample a dx i))) ->
  forall s v, holds s v ->
  exists s',
    for_each (py_body M a dx) l s = Ok s' /\
    holds s' (fold_left (fun s i => add s (sincos M (sample a dx i))) l v).
Proof.
  induction l as [| i l IH]; intros Hl s v Hsv; [exists s; split; [reflexivity | exact Hsv] |].
  destruct (Hl i (or_introl eq_refl)) as [Hi Hf].
  cbn [for_each fold_left]. rewrite py_body_eq by exact Hi. rewrite Hf. cbn [bind].
  rewrite (holds_add s v _ Hsv). cbn [bind].
  apply IH; [| right; reflexivity]. intros j Hj. apply Hl. right. exact Hj.
Qed.

Hypothesis HM : conforming M.

Lemma fpy_inf (x : float) : is_inf x = true -> fpy M x = Raise ValueError.
Proof.
  destruct x as [s | s | | s m e]; try discriminate. intros _.
  unfold fpy, math_sin, math_1. rewrite (sin_inf M HM). reflexivity.
Qed.

(** The loop stops with [ValueError] at the first infinite sample. *)
Lemma python_loop_raises (a dx : float) (l : list Z) :
  (forall i, In i l ->
     - DBL_LIMIT < i < DBL_LIMIT /\ valid (sample a dx i) = true) ->
  (exists i, In i l /\ is_inf (sample a dx i) = true) ->
  forall s v, holds s v -> for_each (py_body M a dx) l s = Raise ValueError.
Proof.
  induction l as [| i l IH]; intros Hl (j & Hj & Hinf) s v Hsv; [contradiction |].
  destruct (Hl i (or_introl eq_refl)) as [Hi Hv].
  cbn [for_each]. rewrite py_body_eq by exact Hi.
  destruct (is_inf (sample a dx i)) eqn:E.
  - rewrite fpy_inf by exact E. reflexivity.
  - rewrite (fpy_ok M HM) by assumption. cbn [bind].
    rewrite (holds_add s v _ Hsv). cbn [bind].
    apply IH with (v := add v (sincos M (sample a dx i))).
    + intros i' Hi'. apply Hl. right. exact Hi'.
    + exists j. split; [| exact Hinf]. destruct Hj as [<- | Hj]; [congruence | exact Hj].
    + right. reflexivity.
Qed.

Lemma integrate_python_raises (a b : float) (N : Z) :
  valid a = true -> valid b = true ->
  1 <= N < DBL_LIMIT ->
  (exists i, 0 <= i < N /\ is_inf (sample a (step a b N) i) = true) ->
  integrate_python M a b N = Raise ValueError.
Proof.
  intros Ha Hb HN (j & Hj & Hinf). rewrite integrate_python_eq.
  rewrite py_truediv_ok by lia. cbn [bind]. fold (step a b N).
  assert (Hdx : valid (step a b N) = true) by (apply valid_step; assumption).
  rewrite (python_loop_raises a (step a b N) (range N)) with (v := zero).
  - reflexivity.
  - intros i Hi. apply in_range in Hi. split; [lia |]. auto using valid_sample.
  - exists j. split; [apply in_range; exact Hj | exact Hinf].
  - left. auto.
Qed.

Lemma integrate_python_left (a b : float) (N : Z) :
  valid a = true -> valid b = true ->
  1 <= N < DBL_LIMIT ->
  (forall i, 0 <= i < N -> is_inf (sample a (step a b N) i) = false) ->
  integrate_python M a b N = Ok (PyFloat (left_riemann M a b N)).
Proof.
  intros Ha Hb HN Hs. rewrite integrate_python_eq.
  rewrite py_truediv_ok by lia. cbn [bind]. fold (step a b N).
  assert (Hdx : valid (step a b N) = true) by (apply valid_step; assumption).
  destruct (python_loop_left a (step a b N) (range N)) with (s := PyInt 0) (v := zero)
    as (s' & -> & Hh).
  - intros i Hi. apply in_range in Hi. split; [lia |].
    apply (fpy_ok M HM); auto using valid_sample.
  - left. auto.
  - cbn [bind]. apply holds_mul. exact Hh.
Qed.

(** With a zero-width interval every sample is [a] and the step is +0. *)
Lemma sub_self (a : float) : finite a = true -> sub a a = zero.
Proof.
  intros Hf. destruct a as [[|] | | | s m e]; try discriminate; try reflexivity.
  unfold sub. cbn [SFsub].
  replace (cond_Zopp s (Zpos (fst (shl_align m e (Z.min e e)))) -
           cond_Zopp s (Zpos (fst (shl_align m e (Z.min e e))))) with 0 by lia.
  reflexivity.
Qed.

Lemma step_self (a : float) (N : Z) :
  finite a = true -> 0 < N < DBL_LIMIT -> step a a N = zero.
Proof.
  intros Hf HN. unfold step. rewrite sub_self by assumption.
  destruct (of_Z_pos N HN) as (m & e & -> & _). reflexivity.
Qed.

Lemma of_Z_times_zero (i : Z) :
  0 <= i < DBL_LIMIT -> mul (of_Z i) zero = zero.
Proof.
  intros Hi. destruct (Z.eq_dec i 0) as [-> | Hn]; [reflexivity |].
  destruct (of_Z_pos i ltac:(lia)) as (m & e & -> & _). reflexivity.
Qed.

Lemma sample_self (a : float) (i : Z) :
  finite a = true -> 0 <= i < DBL_LIMIT -> finite (sample a zero i) = true.
Proof.
  intros Hf Hi. unfold sample. rewrite of_Z_times_zero by assumption.
  destruct a as [[|] | | | s m e]; try discriminate; try reflexivity. exact Hf.
Qed.

Lemma finite_not_inf (x : float) : finite x = true -> is_inf x = false.
Proof. destruct x; try discriminate; reflexivity. Qed.

Lemma riemann_sum_mag (a dx : float) (N : Z) :
  (forall i, 0 <= i < N -> finite (sample a dx i) = true) ->
  mag_le 54 (riemann_sum M a dx N).
Proof.
  intros Hs. unfold riemann_sum.
  apply fold_left_invariant with (P := mag_le 54); [| exact I].
  intros i s Hi Hmag. apply in_range in Hi.
  apply add_mag; [exact Hmag |]. apply (sincos_mag M HM). apply Hs. exact Hi.
Qed.

Lemma mul_mag_zero (s : float) :
  mag_le 54 s -> mul s zero = S754_zero (signbit s).
Proof.
  destruct s as [sg | sg | | sg m e]; cbn [mag_le]; try contradiction; intros _;
    cbn; rewrite xorb_false_r; reflexivity.
Qed.

Lemma integrate_python_self (a : float) (N : Z) :
  finite a = true -> 1 <= N < DBL_LIMIT ->
  integrate_python M a a N =
  Ok (PyFloat (S754_zero (signbit (riemann_sum M a zero N)))).
Proof.
  intros Hf HN. pose proof (finite_valid a Hf) as Hv.
  rewrite integrate_python_left; try assumption.
  - unfold left_riemann. rewrite step_self by (assumption || lia).
    rewrite mul_mag_zero; [reflexivity |].
    apply riemann_sum_mag. intros i Hi. apply sample_self; [assumption | lia].
  - intros i Hi. rewrite step_self by (assumption || lia).
    apply finite_not_inf, sample_self; [assumption | lia].
Qed.

End Routines.


(** ** Non-positive [N] *)

Lemma mul_zero_div_zero (y : float) : mul zero (div y zero) = nan.
Proof. destruct y as [[|] | [|] | | [|] m e]; reflexivity. Qed.

Lemma mul_zero_l (x : float) :
  mul zero x = if is_finite x then S754_zero (signbit x) else nan.
Proof. destruct x as [[|] | [|] | | [|] m e]; reflexivity. Qed.

Lemma integrate_zero (M : libm) (a b : float) : integrate M a b 0 = Ok nan.
Proof.
  unfold integrate. rewrite cy_integrate_eq. cbn [as_c_int bind].
  change (as_c_int 0) with (Ok (A := Z) 0). cbn [bind cy_div negb andb].
  change (range 0) with (@nil Z). cbn [for_each bind].
  change (of_Z 0) with zero. rewrite mul_zero_div_zero. reflexivity.
Qed.

Lemma cy_integrate_negative (M : libm) (cdivision : bool)
  (g : float -> result float) (a b : float) (N : Z) :
  INT_MIN <= N < 0 ->
  cy_integrate cdivision g a b N = Ok (mul zero (step a b N)).
Proof.
  intros HN. rewrite cy_integrate_eq.
  rewrite as_c_int_ok by (unfold INT_MAX; lia). cbn [bind].
  rewrite cy_div_ok by lia. cbn [bind].
  rewrite range_nonpos by lia. reflexivity.
Qed.

Lemma integrate_python_negative (M : libm) (a b : float) (N : Z) :
  - DBL_LIMIT < N < 0 ->
  integrate_python M a b N = Ok (PyFloat (mul zero (step a b N))).
Proof.
  intros HN. rewrite integrate_python_eq.
  assert (HL : N < DBL_LIMIT).
  { assert (0 < DBL_LIMIT) by (vm_compute; reflexivity).
    set (L := DBL_LIMIT) in *. clearbody L. lia. }
  rewrite py_truediv_ok by lia. cbn [bind].
  rewrite range_nonpos by lia. reflexivity.
Qed.

(** ** numpy *)

Lemma add_comm (x y : float) : add x y = add y x.
Proof.
  destruct x as [[|] | [|] | | sx mx ex], y as [[|] | [|] | | sy my ey];
    try reflexivity.
  unfold add. cbn [SFadd]. rewrite (Z.min_comm ey ex). f_equal. apply Z.add_comm.
Qed.

Lemma removelast_map {A B : Type} (g : A -> B) (l : list A) :
  removelast (map g l) = map g (removelast l).
Proof.
  induction l as [| x l IH]; [reflexivity |].
  destruct l as [| y l]; [reflexivity |].
  cbn [map removelast] in *. rewrite IH. reflexivity.
Qed.

(** With a non-zero step, [linspace(a, b, N + 1)] is the list of the left
    endpoints followed by [b]. *)
Lemma linspace_samples (a b : float) (N : Z) :
  1 <= N -> is_zero (step a b N) = false ->
  linspace a b (N + 1) =
  Ok (map (sample a (step a b N)) (range N) ++ [b]).
Proof.
  intros HN Hz. unfold linspace.
  destruct (Z.ltb_spec (N + 1) 0); [lia |].
  destruct (Z.ltb_spec 1 (N + 1)); [| lia].
  replace (N + 1 - 1) with N by lia. fold (step a b N). rewrite Hz.
  rewrite range_succ by lia. rewrite !map_app. cbn [map].
  rewrite removelast_last. f_equal. f_equal.
  rewrite !map_map. apply map_ext. intros i. unfold sample. apply add_comm.
Qed.

Lemma integrate_numpy_samples (M : libm) (a b : float) (N : Z) :
  1 <= N < DBL_LIMIT -> is_zero (step a b N) = false ->
  integrate_numpy (numpy_of M) a b N =
  Ok (mul (step a b N)
          (add_reduce (map (sincos M) (map (sample a (step a b N)) (range N))))).
Proof.
  intros HN Hz. unfold integrate_numpy. cbn [np_linspace numpy_of np_sum].
  rewrite linspace_samples by (lia || assumption). cbn [bind].
  rewrite py_truediv_ok by lia. cbn [bind]. fold (step a b N).
  unfold fnp. cbn [np_sin np_cos numpy_of].
  rewrite map_app. cbn [map]. rewrite removelast_last. reflexivity.
Qed.

(** ** The small-angle libm conforms *)

Lemma small_angle_conforming : conforming small_angle.
Proof.
  constructor; cbn [sin cos small_angle]; try reflexivity.
  - intros x Hf.
    destruct x as [[|] | [|] | | s m e]; try discriminate; try (split; reflexivity).
    cbn [small_angle_sin].
    destruct (leb (abs (S754_finite s m e)) one) eqn:E; [split; assumption |].
    split; [reflexivity |]. destruct s; vm_compute; reflexivity.
  - intros x Hf.
    destruct x as [[|] | [|] | | s m e]; try discriminate; split; reflexivity.
Qed.


(** * Further lemmas *)

(** ** Magnitude bounds at any power of 2 *)

(** The exponent of a canonical double of magnitude at most [2^n]. *)
Lemma mag_le_exp (n : Z) (s : bool) (m : positive) (e : Z) :
  -1022 <= n -> bounded prec emax m e = true -> mag_le n (S754_finite s m e) ->
  e <= n - 52.
Proof.
  intros Hn Hb [He Hm]. apply bounded_canonical in Hb as [Hc _].
  pose proof (digits2_pos_bounds m) as [Lo Hi].
  destruct (Z.leb_spec e (n - 52)); [assumption |].
  assert (Zpos (digits2_pos m) = 53) by lia.
  assert (2 ^ (n - e) < 2 ^ (Zpos (digits2_pos m) - 1)) by (apply Z.pow_lt_mono_r; lia).
  lia.
Qed.

Lemma mag_le_finite (n : Z) (x : float) :
  valid x = true -> mag_le n x -> finite x = true.
Proof.
  intros Hv Hm. destruct x; try contradiction; unfold finite; rewrite Hv; reflexivity.
Qed.

Lemma le_compare_cont (m q : positive) :
  Zpos m <= Zpos q ->
  match Pos.compare_cont Eq m q with Gt => false | _ => true end = true.
Proof.
  intros H. change (Pos.compare_cont Eq m q) with (Pos.compare m q).
  destruct (Pos.compare_spec m q) as [E | L | G]; [reflexivity | reflexivity | lia].
Qed.

Lemma mag_le_one (x : float) :
  valid x = true -> mag_le 0 x -> leb (abs x) one = true.
Proof.
  intros Hv Hm. destruct x as [s | s | | s m e]; try contradiction; [reflexivity |].
  pose proof (mag_le_zero_exp s m e Hv Hm) as He.
  destruct Hm as [_ Hm].
  unfold leb, SFleb, abs, SFabs, one, SFcompare.
  destruct (Z.compare_spec e (-52)) as [E | L | G]; [| reflexivity | lia].
  subst e. apply le_compare_cont. exact Hm.
Qed.

(** A finite double at most [2^n] in the order of the doubles has magnitude
    at most [2^n]. *)
Lemma leb_pow2_mag (n : Z) (x : float) :
  finite x = true ->
  leb (abs x) (S754_finite false 4503599627370496 (n - 52)) = true ->
  mag_le n x.
Proof.
  intros Hf Hle.
  destruct (finite_inv x Hf) as [[s ->] | (s & m & e & -> & Hb)]; [exact I |].
  apply bounded_canonical in Hb as [Hc _].
  pose proof (digits2_pos_bounds m) as [Lo Hi].
  unfold leb, SFleb, abs, SFabs, SFcompare in Hle. cbn [mag_le].
  destruct (Z.compare_spec e (n - 52)) as [E | L | G].
  - subst e. split; [lia |]. apply compare_cont_le in Hle.
    replace (n - (n - 52)) with 52 by lia. exact Hle.
  - clear Hle. split; [lia |].
    assert (2 ^ Zpos (digits2_pos m) <= 2 ^ (n - e)) by (apply Z.pow_le_mono_r; lia).
    lia.
  - discriminate Hle.
Qed.

Lemma normalize_mag (m e n : Z) (sz : bool) :
  -1022 <= n <= 1023 -> e <= n - 53 -> Z.abs m <= 2 ^ (n - e) ->
  mag_le n (binary_normalize prec emax m e sz).
Proof.
  intros Hn He Hm.
  assert (0 < 2 ^ (n - 53 - e)) by (apply Z.pow_pos_nonneg; lia).
  destruct m as [| p | p]; cbn [binary_normalize]; [exact I | |];
    (apply binary_round_le_pow2; [exact Hn | exact He | lia]).
Qed.

Lemma align_mag (n e ez : Z) (m mz : positive) :
  ez <= e -> Zpos mz = Zpos m * 2 ^ (e - ez) -> Zpos m <= 2 ^ (n - e) -> e <= n ->
  Zpos mz <= 2 ^ (n - ez).
Proof.
  intros Hez -> Hm He. replace (n - ez) with ((n - e) + (e - ez)) by lia.
  rewrite Z.pow_add_r by lia.
  apply Z.mul_le_mono_nonneg_r; [apply Z.pow_nonneg; lia | exact Hm].
Qed.

(** The sum and the difference of two doubles of magnitude at most [2^n]
    have magnitude at most [2^(n+1)]. *)
Lemma add_mag_pow2 (n : Z) (x y : float) :
  -1022 <= n <= 1022 -> valid x = true -> valid y = true ->
  mag_le n x -> mag_le n y -> mag_le (n + 1) (add x y).
Proof.
  intros Hn Vx Vy Mx My.
  destruct x as [sx | sx | | sx mx ex], y as [sy | sy | | sy my ey];
    try contradiction.
  - destruct sx, sy; exact I.
  - apply mag_le_mono with (n := n); [lia | exact My].
  - apply mag_le_mono with (n := n); [lia | exact Mx].
  - pose proof (mag_le_exp n _ _ _ ltac:(lia) Vx Mx) as Ex.
    pose proof (mag_le_exp n _ _ _ ltac:(lia) Vy My) as Ey.
    destruct Mx as [Ex' Mx], My as [Ey' My].
    unfold add. cbn [SFadd]. set (ez := Z.min ex ey).
    destruct (shl_align_spec mx ex ez) as (ax & e1 & -> & He1 & HA).
    destruct (shl_align_spec my ey ez) as (ay & e2 & -> & He2 & HB).
    cbn [fst]. replace e1 with ez in HA by lia. replace e2 with ez in HB by lia.
    pose proof (align_mag n ex ez mx ax ltac:(lia) HA Mx Ex') as Ha.
    pose proof (align_mag n ey ez my ay ltac:(lia) HB My Ey') as Hb.
    apply normalize_mag; [lia | lia |].
    replace (n + 1 - ez) with (Z.succ (n - ez)) by lia.
    rewrite Z.pow_succ_r by lia.
    destruct sx, sy; cbn [cond_Zopp]; lia.
Qed.

Lemma sub_mag_pow2 (n : Z) (x y : float) :
  -1022 <= n <= 1022 -> valid x = true -> valid y = true ->
  mag_le n x -> mag_le n y -> mag_le (n + 1) (sub x y).
Proof.
  intros Hn Vx Vy Mx My.
  destruct x as [sx | sx | | sx mx ex], y as [sy | sy | | sy my ey];
    try contradiction.
  - destruct sx, sy; exact I.
  - apply mag_le_mono with (n := n); [lia | exact My].
  - apply mag_le_mono with (n := n); [lia | exact Mx].
  - pose proof (mag_le_exp n _ _ _ ltac:(lia) Vx Mx) as Ex.
    pose proof (mag_le_exp n _ _ _ ltac:(lia) Vy My) as Ey.
    destruct Mx as [Ex' Mx], My as [Ey' My].
    unfold sub. cbn [SFsub]. set (ez := Z.min ex ey).
    destruct (shl_align_spec mx ex ez) as (ax & e1 & -> & He1 & HA).
    destruct (shl_align_spec my ey ez) as (ay & e2 & -> & He2 & HB).
    cbn [fst]. replace e1 with ez in HA by lia. replace e2 with ez in HB by lia.
    pose proof (align_mag n ex ez mx ax ltac:(lia) HA Mx Ex') as Ha.
    pose proof (align_mag n ey ez my ay ltac:(lia) HB My Ey') as Hb.
    apply normalize_mag; [lia | lia |].
    replace (n + 1 - ez) with (Z.succ (n - ez)) by lia.
    rewrite Z.pow_succ_r by lia.
    destruct sx, sy; cbn [cond_Zopp]; lia.
Qed.

(** The product of doubles of magnitude at most [2^n] and [2^k] has
    magnitude at most [2^(n+k)]. *)
Lemma mul_mag_pow2 (n k : Z) (x y : float) :
  -1022 <= n -> -1022 <= k -> -1022 <= n + k <= 1023 ->
  valid x = true -> valid y = true ->
  mag_le n x -> mag_le k y -> mag_le (n + k) (mul x y).
Proof.
  intros Hn Hk Hnk Hx Hy Mx My.
  destruct x as [sx | sx | | sx mx ex], y as [sy | sy | | sy my ey];
    try contradiction; try exact I.
  unfold mul. cbn [SFmul].
  pose proof (mag_le_exp n _ _ _ Hn Hx Mx) as Ex.
  pose proof (mag_le_exp k _ _ _ Hk Hy My) as Ey.
  destruct Mx as [_ Mx], My as [_ My].
  apply bounded_canonical in Hx as [Cx _]. apply bounded_canonical in Hy as [Cy _].
  pose proof (digits2_pos_bounds mx) as [Xlo Xhi].
  pose proof (digits2_pos_bounds my) as [Ylo Yhi].
  assert (D : Zpos (digits2_pos mx) + Zpos (digits2_pos my) - 1
              <= Zdigits2 (Zpos (mx * my))).
  { apply Zdigits2_ge; [| lia]. rewrite Pos2Z.inj_mul.
    replace (Zpos (digits2_pos mx) + Zpos (digits2_pos my) - 1 - 1)
      with ((Zpos (digits2_pos mx) - 1) + (Zpos (digits2_pos my) - 1)) by lia.
    rewrite Z.pow_add_r by lia.
    apply Z.mul_le_mono_nonneg; try assumption; apply Z.pow_nonneg; lia. }
  apply binary_round_aux_le_pow2; [rewrite fexp_eq; lia | lia | lia |].
  assert (0 < 2 ^ (n + k - 53 - (ex + ey))) by (apply Z.pow_pos_nonneg; lia).
  replace (n + k - (ex + ey)) with ((n - ex) + (k - ey)) by lia.
  rewrite Z.pow_add_r by lia. rewrite Pos2Z.inj_mul.
  assert (Zpos mx * Zpos my <= 2 ^ (n - ex) * 2 ^ (k - ey));
    [apply Z.mul_le_mono_nonneg; lia | lia].
Qed.

(** An integer below [2^n] converts to a double of magnitude at most
    [2^n]. *)
Lemma binary_round_int_mag (sx : bool) (p : positive) (n : Z) :
  0 <= n <= 1023 -> Zpos p < 2 ^ n ->
  mag_le n (binary_round prec emax sx p 0).
Proof.
  intros Hn Hp.
  destruct (binary_round_aligned sx p 0) as (mz & ez & -> & Hez & Hmz & Hd & Hk).
  pose proof (Zdigits2_le (Zpos p) n ltac:(lia) ltac:(lia) Hp) as Dp.
  cbn [Zdigits2] in Dp.
  assert (He : ez <= n - 53) by (rewrite Hd, fexp_eq in Hk; lia).
  apply binary_round_aux_le_pow2; [exact Hk | lia | exact He |].
  rewrite Hmz.
  assert (0 < 2 ^ (n - 53 - ez)) by (apply Z.pow_pos_nonneg; lia).
  assert (0 < 2 ^ (0 - ez)) by (apply Z.pow_pos_nonneg; lia).
  replace (n - ez) with (n + (0 - ez)) by lia. rewrite Z.pow_add_r by lia.
  assert (Zpos p * 2 ^ (0 - ez) < 2 ^ n * 2 ^ (0 - ez))
    by (apply Z.mul_lt_mono_pos_r; lia).
  lia.
Qed.

Lemma of_Z_mag (n z : Z) :
  0 <= n <= 1023 -> Z.abs z < 2 ^ n -> mag_le n (of_Z z).
Proof.
  intros Hn Hz. unfold of_Z.
  destruct z as [| p | p]; cbn [binary_normalize]; [exact I | |];
    apply binary_round_int_mag; (exact Hn || lia).
Qed.

(** Dividing by a normal double of magnitude at least 1 does not increase
    the magnitude: the quotient reaches [2^n] only when the division is
    exact. *)
Lemma div_mag (n : Z) (sx sy : bool) (mx my : positive) (ex ey : Z) :
  -1022 <= n <= 1023 ->
  bounded prec emax mx ex = true ->
  mag_le n (S754_finite sx mx ex) ->
  2 ^ 52 <= Zpos my -> -52 <= ey ->
  mag_le n (div (S754_finite sx mx ex) (S754_finite sy my ey)).
Proof.
  intros Hn Bx Mx Hmy Hey.
  pose proof (mag_le_exp n _ _ _ ltac:(lia) Bx Mx) as Ex.
  destruct Mx as [_ Mx].
  unfold div. cbn [SFdiv].
  destruct (div_core_spec mx my ex ey)
    as (q & e' & s & r & -> & Hs & He' & Hdm & Hr & Hq0 & Hk).
  destruct (binary_round_aux_spec (xorb sx sy) q e' (new_location (Zpos my) r) Hq0 Hk)
    as (Q & HQ & Hup & H53 & -> & Hv).
  set (k := fexp prec emax (Zdigits2 q + e') - e') in *.
  set (t := ey + 52).
  assert (Ht : 0 < 2 ^ t) by (apply Z.pow_pos_nonneg; lia).
  assert (Hs0 : 0 < 2 ^ s) by (apply Z.pow_pos_nonneg; lia).
  assert (Hk0 : 0 < 2 ^ k) by (apply Z.pow_pos_nonneg; lia).
  assert (H52 : 0 < 2 ^ 52) by reflexivity.
  (* scaled by 2^t, the dividend is at most 2^(n - e') * 2^52 *)
  assert (Hpow : 2 ^ (n - ex) * 2 ^ s * 2 ^ t = 2 ^ (n - e' + 52)).
  { rewrite <- !Z.pow_add_r by lia. f_equal. unfold t. lia. }
  assert (Hb : (Zpos my * q + r) * 2 ^ t <= 2 ^ (n - e' + 52)).
  { rewrite <- Hdm, <- Hpow.
    apply Z.mul_le_mono_nonneg_r; [lia |].
    apply Z.mul_le_mono_nonneg_r; [lia | exact Mx]. }
  (* the exponent after rounding *)
  assert (HE : e' + k = Z.max (Zdigits2 q + e' - 53) (-1074))
    by (unfold k; rewrite fexp_eq; lia).
  assert (Hq52 : q * 2 ^ 52 <= 2 ^ (n - ex + s)).
  { rewrite Z.pow_add_r by lia.
    assert (q * 2 ^ 52 <= q * Zpos my) by (apply Z.mul_le_mono_nonneg_l; lia).
    assert (Zpos mx * 2 ^ s <= 2 ^ (n - ex) * 2 ^ s)
      by (apply Z.mul_le_mono_nonneg_r; lia).
    lia. }
  assert (Hdq : Zdigits2 q <= n - ex + s - 52 + 1).
  { destruct (Z.eq_dec q 0) as [-> | Hq1]; [cbn; lia |].
    apply Zdigits2_le; [lia | lia |].
    apply Z.mul_lt_mono_pos_r with (p := 2 ^ 52); [exact H52 |].
    rewrite <- Z.pow_add_r by lia.
    replace (n - ex + s - 52 + 1 + 52) with (Z.succ (n - ex + s)) by lia.
    rewrite Z.pow_succ_r by lia.
    assert (0 < 2 ^ (n - ex + s)) by (apply Z.pow_pos_nonneg; lia). lia. }
  assert (HEn : e' + k <= n - 52) by lia.
  apply round_result_mag; [lia | exact HEn | | exact Hv].
  assert (Hqd : 0 <= q / 2 ^ k) by (apply Z.div_pos; lia).
  split; [lia |].
  assert (Hsplit : 2 ^ (n - e' + 52) = 2 ^ (n - (e' + k)) * 2 ^ k * 2 ^ 52).
  { rewrite <- !Z.pow_add_r by lia. f_equal. lia. }
  set (B := 2 ^ (n - (e' + k))) in *.
  assert (HB : 0 < B) by (apply Z.pow_pos_nonneg; lia).
  rewrite Hsplit in Hb.
  assert (Hmq : 2 ^ 52 * q + r <= Zpos my * q + r)
    by (apply Z.add_le_mono_r, Z.mul_le_mono_nonneg_r; lia).
  assert (HT : Zpos my * q + r <= (Zpos my * q + r) * 2 ^ t).
  { rewrite <- (Z.mul_1_r (Zpos my * q + r)) at 1.
    apply Z.mul_le_mono_nonneg_l; lia. }
  assert (Hqr : 2 ^ 52 * q + r <= B * 2 ^ k * 2 ^ 52) by lia.
  assert (Hqle : q <= B * 2 ^ k).
  { apply Z.mul_le_mono_pos_l with (p := 2 ^ 52); [exact H52 |]. lia. }
  destruct (Z.eq_dec q (B * 2 ^ k)) as [Eq | Nq].
  - assert (Hr0 : r = 0).
    { rewrite Eq in Hqr. lia. }
    subst r. rewrite new_location_zero in Hup. specialize (Hup eq_refl).
    assert (Hdiv : q / 2 ^ k = B) by (rewrite Eq; apply Z.div_mul; lia).
    assert (Hmod : q mod 2 ^ k = 0) by (rewrite Eq; apply Z.mod_mul; lia).
    rewrite Hdiv, Hmod in *.
    destruct (Z.eq_dec Q (B + 1)) as [Eup | Nup]; [specialize (Hup Eup); lia | lia].
  - assert (q / 2 ^ k < B); [| lia].
    apply Z.div_lt_upper_bound; [lia |]. lia.
Qed.

(** The step of an interval with ends of magnitude at most [2^n] has
    magnitude at most [2^(n+1)]. *)
Lemma step_mag (n : Z) (a b : float) (N : Z) :
  -1022 <= n <= 1022 -> valid a = true -> valid b = true ->
  mag_le n a -> mag_le n b -> 0 < N < DBL_LIMIT ->
  mag_le (n + 1) (step a b N).
Proof.
  intros Hn Va Vb Ma Mb HN. unfold step.
  pose proof (sub_mag_pow2 n b a Hn Vb Va Mb Ma) as Ms.
  pose proof (valid_sub b a Vb Va) as Vs.
  destruct (of_Z_pos N HN) as (m & e & -> & Hm & He).
  destruct (sub b a) as [s | s | | s mx ex]; try contradiction; [exact I |].
  apply div_mag; (lia || assumption).
Qed.

(** ** Integers beyond the doubles *)

(** The round bit after [k >= 1] shifts is bit [k - 1] of the mantissa. *)
Lemma shr_round_bit (m e k : Z) :
  0 <= m -> 1 <= k ->
  exists mrs,
    shr (shr_record_of_loc m loc_Exact) e k = (mrs, e + k) /\
    shr_m mrs = m / 2 ^ k /\ shr_r mrs = Z.odd (m / 2 ^ (k - 1)).
Proof.
  intros Hm Hk. destruct k as [| p | p]; [lia | | lia].
  eexists. split; [reflexivity |]. rewrite iter_pos_nat.
  destruct (Pos.to_nat p) as [| n] eqn:En; [lia |].
  replace (Z.pos p - 1) with (Z.of_nat n) by lia.
  replace (Z.pos p) with (Z.succ (Z.of_nat n)) by lia.
  cbn [shr_record_of_loc]. rewrite Nat.iter_succ.
  pose proof (shr_iter m false false n Hm) as [H1 _]. cbn zeta in H1.
  set (mrs := Nat.iter n shr_1 _) in *.
  assert (Hp : 0 < 2 ^ Z.of_nat n) by (apply Z.pow_pos_nonneg; lia).
  assert (Hq : 0 <= shr_m mrs) by (rewrite H1; apply Z.div_pos; lia).
  rewrite (shr_1_nonneg mrs Hq). cbn [shr_m shr_r]. rewrite H1. split; [| reflexivity].
  rewrite Z.pow_succ_r, Z.div_div by lia. f_equal. lia.
Qed.

(** A mantissa that rounds up from [2^53 - 1] at the largest exponent
    overflows. *)
Lemma binary_round_aux_overflow (sx : bool) (m e : Z) :
  0 <= m ->
  let k := fexp prec emax (Zdigits2 m + e) - e in
  1 <= k -> e + k = 971 ->
  m / 2 ^ k = 2 ^ 53 - 1 -> Z.odd (m / 2 ^ (k - 1)) = true ->
  binary_round_aux prec emax sx m e loc_Exact = S754_infinity sx.
Proof.
  intros Hm k Hk He Hq Hodd.
  destruct (shr_round_bit m e k Hm Hk) as (mrs & Hshr & Hmm & Hr).
  unfold binary_round_aux, shr_fexp. fold k. rewrite Hshr.
  rewrite Hmm, Hq, He. rewrite Hodd in Hr.
  destruct mrs as [mm r s]. cbn [shr_r] in Hr. subst r.
  destruct s; vm_compute; reflexivity.
Qed.

(** From [DBL_LIMIT] on, an integer rounds to an infinity. *)
Lemma binary_round_overflow (sx : bool) (p : positive) :
  DBL_LIMIT <= Zpos p -> binary_round prec emax sx p 0 = S754_infinity sx.
Proof.
  intros Hp.
  destruct (binary_round_aligned sx p 0) as (mz & ez & -> & Hez & Hmz & Hd & Hk).
  pose proof (digits2_pos_bounds p) as [Plo Phi].
  set (d := Zpos (digits2_pos p)) in *.
  assert (Hd1024 : 1024 <= d).
  { apply (Zdigits2_ge (Zpos p)); [| lia].
    assert (2 ^ (1024 - 1) <= DBL_LIMIT) by (vm_compute; discriminate).
    set (L := DBL_LIMIT) in *. clearbody L. lia. }
  set (k := fexp prec emax (Zdigits2 (Zpos mz) + ez) - ez) in *.
  assert (Ek : k = d - 53 - ez) by (unfold k; rewrite Hd, fexp_eq; lia).
  assert (Hp0 : 0 < 2 ^ (0 - ez)) by (apply Z.pow_pos_nonneg; lia).
  assert (Hdiv : forall j, 0 <= j -> Zpos mz / 2 ^ (j - ez) = Zpos p / 2 ^ j).
  { intros j Hj. rewrite Hmz. replace (j - ez) with (j + (0 - ez)) by lia.
    rewrite Z.pow_add_r by lia.
    apply Z.div_mul_cancel_r; [apply Z.pow_nonzero; lia | lia]. }
  destruct (Z.eq_dec d 1024) as [E | NE].
  - apply binary_round_aux_overflow; fold k; try lia.
    + replace k with (971 - ez) by lia. rewrite Hdiv by lia.
      rewrite E in Phi. clear - Hp Phi.
      symmetry. apply Z.div_unique with (r := Zpos p - (2 ^ 53 - 1) * 2 ^ 971).
      * assert (Hl : DBL_LIMIT = (2 ^ 53 - 1) * 2 ^ 971 + 2 ^ 970)
          by (vm_compute; reflexivity).
        assert (Hh : 2 ^ 1024 = (2 ^ 53 - 1) * 2 ^ 971 + 2 ^ 971)
          by (vm_compute; reflexivity).
        set (L := DBL_LIMIT) in *. set (A := (2 ^ 53 - 1) * 2 ^ 971) in *.
        set (B := 2 ^ 970) in *. set (C := 2 ^ 971) in *. set (D := 2 ^ 1024) in *.
        assert (0 < B) by reflexivity.
        clearbody L A B C D. lia.
      * set (A := 2 ^ 53 - 1). set (C := 2 ^ 971). clearbody A C. lia.
    + replace (k - 1) with (970 - ez) by lia. rewrite Hdiv by lia.
      rewrite E in Phi. clear - Hp Phi.
      replace (Zpos p / 2 ^ 970) with (2 ^ 54 - 1); [reflexivity |].
      apply Z.div_unique with (r := Zpos p - (2 ^ 54 - 1) * 2 ^ 970).
      * assert (Hl : DBL_LIMIT = (2 ^ 54 - 1) * 2 ^ 970) by (vm_compute; reflexivity).
        assert (Hh : 2 ^ 1024 = (2 ^ 54 - 1) * 2 ^ 970 + 2 ^ 970)
          by (vm_compute; reflexivity).
        set (L := DBL_LIMIT) in *. set (A := (2 ^ 54 - 1) * 2 ^ 970) in *.
        set (B := 2 ^ 970) in *. set (D := 2 ^ 1024) in *.
        clearbody L A B D. lia.
      * set (A := 2 ^ 54 - 1). set (C := 2 ^ 970). clearbody A C. lia.
  - destruct (binary_round_aux_spec sx (Zpos mz) ez loc_Exact ltac:(lia) Hk)
      as (q & Hq & _ & H53 & -> & _). fold k in Hq |- *.
    assert (Hk0 : 0 < 2 ^ k) by (apply Z.pow_pos_nonneg; lia).
    assert (Hlow : 2 ^ 52 <= Zpos mz / 2 ^ k).
    { replace k with (d - 53 - ez) by lia. rewrite Hdiv by lia.
      apply Z.div_le_lower_bound; [apply Z.pow_pos_nonneg; lia |].
      rewrite <- Z.pow_add_r by lia. replace (d - 53 + 52) with (d - 1) by lia.
      exact Plo. }
    assert (0 < 2 ^ 52) by reflexivity.
    unfold round_result.
    destruct (Z.eqb_spec q 0); [lia |].
    destruct (Z.eqb_spec q (2 ^ 53)).
    + destruct (Z.leb_spec (ez + k + 1) 971); [lia | reflexivity].
    + destruct (Z.leb_spec (ez + k) 971); [lia | reflexivity].
Qed.

Lemma float_of_int_overflow (z : Z) :
  z <= - DBL_LIMIT \/ DBL_LIMIT <= z -> float_of_int z = Raise OverflowError.
Proof.
  intros Hz. unfold float_of_int, of_Z.
  assert (0 < DBL_LIMIT) by (vm_compute; reflexivity).
  destruct z as [| p | p]; cbn [binary_normalize].
  - set (L := DBL_LIMIT) in *. clearbody L. lia.
  - rewrite binary_round_overflow; [reflexivity |].
    set (L := DBL_LIMIT) in *. clearbody L. lia.
  - rewrite binary_round_overflow; [reflexivity |].
    set (L := DBL_LIMIT) in *. clearbody L. lia.
Qed.

(** ** NaN and signed zeros in sums, exact quotients *)

Lemma add_nan_r (x : float) : add x nan = nan.
Proof. destruct x as [[|] | [|] | | [|] m e]; reflexivity. Qed.



Lemma fold_add_nan (g : Z -> float) (l : list Z) :
  fold_left (fun s i => add s (g i)) l nan = nan.
Proof. induction l as [| i l IH]; [reflexivity | exact IH]. Qed.

(** A sum with a NaN term is NaN. *)
Lemma fold_add_has_nan (g : Z -> float) (l : list Z) (s : float) :
  (exists i, In i l /\ g i = nan) ->
  fold_left (fun s i => add s (g i)) l s = nan.
Proof.
  revert s. induction l as [| i l IH]; intros s (j & Hj & Hn); [contradiction |].
  cbn [fold_left]. destruct Hj as [<- | Hj].
  - rewrite Hn, add_nan_r. apply fold_add_nan.
  - apply IH. exists j. auto.
Qed.

Lemma mul_comm (x y : float) : mul x y = mul y x.
Proof.
  destruct x as [sx | sx | | sx mx ex], y as [sy | sy | | sy my ey];
    unfold mul; cbn [SFmul]; rewrite ?(xorb_comm sy sx); try reflexivity.
  rewrite (Pos.mul_comm my mx), (Z.add_comm ey ex). reflexivity.
Qed.

(** Rounding a non-zero mantissa at an exponent of the format gives no
    zero: a sum of doubles does not underflow. *)
Lemma binary_round_nonzero (sx : bool) (p : positive) (e : Z) :
  -1074 <= e -> is_zero (binary_round prec emax sx p e) = false.
Proof.
  intros He.
  destruct (binary_round_aligned sx p e) as (mz & ez & -> & Hez & Hmz & Hd & Hk).
  destruct (binary_round_aux_spec sx (Zpos mz) ez loc_Exact ltac:(lia) Hk)
    as (q & Hq & _ & _ & -> & _).
  set (k := fexp prec emax (Zdigits2 (Zpos mz) + ez) - ez) in *.
  pose proof (digits2_pos_bounds mz) as [Zlo Zhi].
  assert (Ek : k = Z.max (Zpos (digits2_pos mz) + ez - 53) (-1074) - ez)
    by (unfold k; rewrite fexp_eq; reflexivity).
  assert (Hk0 : 0 < 2 ^ k) by (apply Z.pow_pos_nonneg; lia).
  assert (Hge : 2 ^ k <= Zpos mz).
  { destruct (Z.max_spec (Zpos (digits2_pos mz) + ez - 53) (-1074)) as [[_ Em] | [_ Em]];
      rewrite Em in Ek.
    - rewrite Hmz.
      assert (2 ^ k <= 2 ^ (e - ez)) by (apply Z.pow_le_mono_r; lia).
      assert (0 < 2 ^ (e - ez)) by (apply Z.pow_pos_nonneg; lia). nia.
    - apply Z.le_trans with (2 := Zlo). apply Z.pow_le_mono_r; lia. }
  assert (1 <= Zpos mz / 2 ^ k) by (apply Z.div_le_lower_bound; lia).
  unfold round_result.
  destruct (Z.eqb_spec q 0); [lia |].
  destruct (q =? 2 ^ 53); [destruct (ez + k + 1 <=? 971) | destruct (ez + k <=? 971)];
    reflexivity.
Qed.

Lemma bounded_emin (m : positive) (e : Z) :
  bounded prec emax m e = true -> -1074 <= e.
Proof. intros H. apply bounded_canonical in H. lia. Qed.

(** A sum is -0.0 only when both terms are. *)
Lemma add_nzero_inv (x y : float) :
  valid x = true -> valid y = true -> add x y = nzero ->
  x = nzero /\ y = nzero.
Proof.
  intros Vx Vy.
  destruct x as [[|] | [|] | | sx mx ex], y as [[|] | [|] | | sy my ey];
    try discriminate; try (split; reflexivity).
  unfold add. cbn [SFadd]. intros H. exfalso.
  apply bounded_emin in Vx, Vy.
  set (m := cond_Zopp sx _ + cond_Zopp sy _) in H.
  destruct m as [| p | p]; cbn [binary_normalize] in H; [discriminate | |].
  - pose proof (binary_round_nonzero false p (Z.min ex ey) ltac:(lia)) as Hz.
    rewrite H in Hz. discriminate.
  - pose proof (binary_round_nonzero true p (Z.min ex ey) ltac:(lia)) as Hz.
    rewrite H in Hz. discriminate.
Qed.

Lemma add_zero_l (x : float) : x <> nzero -> add zero x = x.
Proof.
  destruct x as [[|] | [|] | | [|] m e]; try reflexivity. intros H. contradiction H.
  reflexivity.
Qed.

Lemma div_eucl_exact (m : positive) (p : Z) :
  Z.div_eucl (Zpos m * p) (Zpos m) = (p, 0).
Proof.
  destruct (Z.div_eucl (Zpos m * p) (Zpos m)) as [q r] eqn:E.
  assert (Hq : q = Zpos m * p / Zpos m) by (unfold Z.div; rewrite E; reflexivity).
  assert (Hr : r = (Zpos m * p) mod Zpos m) by (unfold Z.modulo; rewrite E; reflexivity).
  rewrite Z.mul_comm, Z.div_mul in Hq by lia.
  rewrite Z.mul_comm, Z.mod_mul in Hr by lia. congruence.
Qed.

(** A finite non-zero double divided by itself is exactly 1. *)
Lemma div_self (x : float) :
  is_finite x = true -> is_zero x = false -> div x x = one.
Proof.
  intros Hf Hz. destruct x as [s | s | | s m e]; try discriminate. clear Hf Hz.
  unfold div. cbn [SFdiv]. unfold SFdiv_core_binary.
  replace (Zdigits2 (Zpos m) + e - (Zdigits2 (Zpos m) + e)) with 0 by lia.
  replace (e - e) with 0 by lia.
  change (0 - Z.min (fexp prec emax 0) 0) with 53.
  change (Z.min (fexp prec emax 0) 0) with (-53).
  cbv iota. rewrite Z.shiftl_mul_pow2 by lia.
  rewrite div_eucl_exact. rewrite new_location_zero, xorb_nilpotent.
  vm_compute. reflexivity.
Qed.

(** ** Lists *)

Lemma fold_left_map_add (g : Z -> float) (l : list Z) (s : float) :
  fold_left add (map g l) s = fold_left (fun s i => add s (g i)) l s.
Proof.
  revert s. induction l as [| i l IH]; intros s; [reflexivity | apply IH].
Qed.

Lemma length_range (N : Z) : length (range N) = Z.to_nat N.
Proof. unfold range. rewrite length_map, length_seq. reflexivity. Qed.

(** A boolean test fails on every index below [N] or holds on one. *)
Lemma range_forall_or_exists (p : Z -> bool) (N : Z) :
  (forall i, 0 <= i < N -> p i = false) \/ (exists i, 0 <= i < N /\ p i = true).
Proof.
  assert (H : (forall i, In i (range N) -> p i = false) \/
              (exists i, In i (range N) /\ p i = true)).
  { induction (range N) as [| j l IH]; [left; intros i [] |].
    destruct (p j) eqn:E; [right; exists j; split; [left; reflexivity | exact E] |].
    destruct IH as [IH | (i & Hi & Hp)].
    - left. intros i [<- | Hi]; auto.
    - right. exists i. split; [right; exact Hi | exact Hp]. }
  destruct H as [H | (i & Hi & Hp)].
  - left. intros i Hi. apply H, in_range. exact Hi.
  - right. exists i. split; [apply in_range; exact Hi | exact Hp].
Qed.

(** Fewer than 8 elements are added in order. *)
Lemma pairwise_sum_short (fuel : nat) (xs : list float) :
  (length xs < 8)%nat -> pairwise_sum fuel xs = fold_left add xs zero.
Proof.
  intros H. apply Nat.ltb_lt in H.
  destruct fuel; cbn [pairwise_sum]; rewrite H; reflexivity.
Qed.

(** ** NaN in numpy's sum *)











(** ** The routines on particular inputs *)

Lemma types_of_python_ok (M : libm) (a b : float) (N : Z) (v : float) :
  INT_MIN <= N <= INT_MAX ->
  integrate_python M a b N = Ok (PyFloat v) ->
  integrate_cython_types M a b N = Ok v.
Proof.
  intros HN. rewrite (python_types_agree M a b N HN).
  destruct (integrate_cython_types M a b N); cbn [bind]; congruence.
Qed.

Lemma types_of_python_raise (M : libm) (a b : float) (N : Z) (e : exn) :
  INT_MIN <= N <= INT_MAX ->
  integrate_python M a b N = Raise e ->
  integrate_cython_types M a b N = Raise e.
Proof.
  intros HN. rewrite (python_types_agree M a b N HN).
  destruct (integrate_cython_types M a b N); cbn [bind]; congruence.
Qed.

Lemma append_assoc (s t u : string) :
  ((s ++ t) ++ u)%string = (s ++ (t ++ u))%string.
Proof.
  induction s as [| c s IH]; [reflexivity |]. cbn [append]. rewrite IH. reflexivity.
Qed.

Lemma py_mul_1000 (x : float) :
  py_mul (PyFloat x) (PyInt 1000) = Ok (PyFloat (mul x (of_Z 1000))).
Proof. reflexivity. Qed.

(** With ends of magnitude at most [2^968] and [N] a C int, every sample
    point is finite. *)
Lemma sample_finite (a b : float) (N i : Z) :
  finite a = true -> finite b = true ->
  mag_le 968 a -> mag_le 968 b ->
  1 <= N <= INT_MAX -> 0 <= i < N ->
  finite (sample a (step a b N) i) = true.
Proof.
  intros Fa Fb Ma Mb HN Hi.
  pose proof (finite_valid a Fa) as Va. pose proof (finite_valid b Fb) as Vb.
  assert (HD : 0 < N < DBL_LIMIT).
  { pose proof (int_range_dbl N). unfold INT_MIN in *. lia. }
  pose proof (step_mag 968 a b N ltac:(lia) Va Vb Ma Mb HD) as Md.
  pose proof (valid_step a b N Va Vb) as Vd.
  assert (Mi : mag_le 31 (of_Z i)).
  { apply of_Z_mag; [lia |]. unfold INT_MAX in HN. lia. }
  pose proof (mul_mag_pow2 31 (968 + 1) (of_Z i) (step a b N)
                ltac:(lia) ltac:(lia) ltac:(lia) (valid_of_Z i) Vd Mi Md) as Mp.
  apply (mag_le_finite (1000 + 1)); [apply valid_sample; assumption |].
  unfold sample. apply add_mag_pow2; auto with binary64; [lia |].
  apply mag_le_mono with (n := 968); [lia | exact Ma].
Qed.

(** ** Ends that are not finite *)

Lemma of_Z_nonneg (i : Z) :
  0 <= i < DBL_LIMIT ->
  of_Z i = zero \/ exists m e, of_Z i = S754_finite false m e.
Proof.
  intros Hi. destruct (Z.eq_dec i 0) as [-> | Hn]; [left; reflexivity |].
  right. destruct (of_Z_pos i ltac:(lia)) as (m & e & -> & _). eauto.
Qed.

(** With a lower end that is not finite, or a NaN upper end, every sample
    point is a NaN: the first product [0 * dx] already is. *)
Lemma sample_nan (a b : float) (N i : Z) :
  is_finite a = false \/ is_nan b = true ->
  0 < N < DBL_LIMIT -> 0 <= i < DBL_LIMIT ->
  sample a (step a b N) i = nan.
Proof.
  intros H HN Hi. unfold sample, step.
  destruct (of_Z_pos N HN) as (m & e & -> & _).
  destruct (of_Z_nonneg i Hi) as [-> | (m' & e' & ->)];
    destruct H as [H | H];
    destruct a as [[|] | [|] | | [|] ma ea], b as [[|] | [|] | | [|] mb eb];
    try discriminate H; reflexivity.
Qed.

(** With a finite lower end and an infinite upper end the step is infinite:
    the first sample point is a NaN, the second an infinity. *)
Lemma sample_infinite_upper (a b : float) (N : Z) :
  is_finite a = true -> is_inf b = true -> 0 < N < DBL_LIMIT ->
  sample a (step a b N) 0 = nan /\ is_inf (sample a (step a b N) 1) = true.
Proof.
  intros Ha Hb HN. unfold sample, step.
  destruct (of_Z_pos N HN) as (m & e & -> & _).
  destruct a as [[|] | [|] | | [|] ma ea], b as [[|] | [|] | | [|] mb eb];
    try discriminate; split; reflexivity.
Qed.

Section Samples.

Variable M : libm.
Hypothesis HM : conforming M.

Lemma sincos_not_finite (x : float) :
  is_finite x = false -> sincos M x = nan.
Proof.
  destruct x as [s | s | | s m e]; try discriminate; intros _; unfold sincos.
  - rewrite (sin_inf M HM). reflexivity.
  - pose proof (sin_nan M HM) as E. unfold nan in E. rewrite E. reflexivity.
Qed.

Lemma valid_sincos (x : float) : valid x = true -> valid (sincos M x) = true.
Proof.
  intros Hv. destruct (is_finite x) eqn:Hf.
  - assert (Fx : finite x = true) by (unfold finite; rewrite Hf, Hv; reflexivity).
    destruct (sin_range M HM x Fx) as [Sf _].
    destruct (cos_range M HM x Fx) as [Cf _]. unfold sincos. auto with binary64.
  - rewrite sincos_not_finite by exact Hf. reflexivity.
Qed.

(** The sum over an interval with a sample point that is not finite. *)
Lemma left_riemann_nan (a b : float) (N : Z) :
  (exists i, 0 <= i < N /\ is_finite (sample a (step a b N) i) = false) ->
  left_riemann M a b N = nan.
Proof.
  intros (i & Hi & Hf). unfold left_riemann, riemann_sum.
  rewrite (fold_add_has_nan (fun i => sincos M (sample a (step a b N) i))).
  - reflexivity.
  - exists i. split; [apply in_range; exact Hi | apply sincos_not_finite; exact Hf].
Qed.

(** The accumulator, started at +0.0, is never -0.0. *)
Lemma riemann_sum_not_nzero (a dx : float) (N : Z) :
  valid a = true -> valid dx = true ->
  valid (riemann_sum M a dx N) = true /\ riemann_sum M a dx N <> nzero.
Proof.
  intros Va Vd. unfold riemann_sum.
  apply fold_left_invariant with (P := fun s => valid s = true /\ s <> nzero).
  - intros i s _ [Vs Hs].
    assert (Vy : valid (sincos M (sample a dx i)) = true)
      by (apply valid_sincos, valid_sample; assumption).
    split; [auto with binary64 |].
    intros E. apply add_nzero_inv in E; [| assumption | assumption]. tauto.
  - split; [reflexivity | discriminate].
Qed.

(** With such ends the sum times the step is finite as well. *)
Lemma left_riemann_finite (a b : float) (N : Z) :
  finite a = true -> finite b = true ->
  mag_le 968 a -> mag_le 968 b ->
  1 <= N <= INT_MAX ->
  finite (left_riemann M a b N) = true.
Proof.
  intros Fa Fb Ma Mb HN.
  pose proof (finite_valid a Fa) as Va. pose proof (finite_valid b Fb) as Vb.
  assert (HD : 0 < N < DBL_LIMIT).
  { pose proof (int_range_dbl N). unfold INT_MIN in *. lia. }
  pose proof (step_mag 968 a b N ltac:(lia) Va Vb Ma Mb HD) as Md.
  pose proof (valid_step a b N Va Vb) as Vd.
  destruct (riemann_sum_not_nzero a (step a b N) N Va Vd) as [Vs _].
  assert (Ms : mag_le 54 (riemann_sum M a (step a b N) N)).
  { apply (riemann_sum_mag M HM). intros i Hi. apply sample_finite; assumption. }
  unfold left_riemann. apply (mag_le_finite (54 + (968 + 1))).
  - auto with binary64.
  - apply mul_mag_pow2; (lia || assumption).
Qed.

End Samples.


(** * Doubles as real numbers *)

(** ** Powers of 2 *)

Lemma pow2_pos (e : Z) : (0 < pow2 e)%R.
Proof. apply powerRZ_lt. lra. Qed.

Lemma pow2_add (a b : Z) : pow2 (a + b) = (pow2 a * pow2 b)%R.
Proof. apply powerRZ_add. lra. Qed.

Lemma pow2_IZR (n : Z) : 0 <= n -> pow2 n = IZR (2 ^ n).
Proof.
  intros Hn. unfold pow2. rewrite <- (Z2Nat.id n Hn) at 1.
  rewrite <- pow_powerRZ, pow_IZR, Z2Nat.id by exact Hn. reflexivity.
Qed.

Lemma pow2_le (a b : Z) : a <= b -> (pow2 a <= pow2 b)%R.
Proof.
  intros H. replace b with (a + (b - a)) by lia. rewrite pow2_add.
  rewrite (pow2_IZR (b - a)) by lia.
  assert (H0 : 0 < 2 ^ (b - a)) by (apply Z.pow_pos_nonneg; lia).
  assert (H1 : 1 <= 2 ^ (b - a)) by lia. apply IZR_le in H1. pose proof (pow2_pos a). nra.
Qed.

Lemma pow2_0 : pow2 0 = 1%R.
Proof. reflexivity. Qed.

Lemma pow2_succ (a : Z) : pow2 (a + 1) = (2 * pow2 a)%R.
Proof. rewrite pow2_add. change (pow2 1) with (2 * 1)%R. ring. Qed.

Lemma pow2_opp (a : Z) : (pow2 (- a) * pow2 a = 1)%R.
Proof. rewrite <- pow2_add. replace (- a + a) with 0 by lia. reflexivity. Qed.

Lemma pow2_lt (a b : Z) : a < b -> (pow2 a < pow2 b)%R.
Proof.
  intros H. replace b with (a + 1 + (b - a - 1)) by lia.
  rewrite pow2_add, pow2_succ.
  pose proof (pow2_pos a). pose proof (pow2_le 0 (b - a - 1) ltac:(lia)) as Hl.
  rewrite pow2_0 in Hl. nra.
Qed.

Lemma pow2_le_inv (a b : Z) : (pow2 a <= pow2 b)%R -> a <= b.
Proof.
  intros H. destruct (Z.le_gt_cases a b) as [|G]; [assumption |].
  apply pow2_lt in G. lra.
Qed.

Lemma pow2_sub (a b : Z) : pow2 (a - b) = (pow2 a / pow2 b)%R.
Proof.
  pose proof (pow2_pos b). replace a with (a - b + b) at 2 by lia.
  rewrite pow2_add. field. lra.
Qed.

Lemma Rabs_le_inv (a b : R) : (Rabs a <= b)%R -> (- b <= a <= b)%R.
Proof. unfold Rabs. destruct (Rcase_abs a); lra. Qed.

(** ** The value of a rounded mantissa *)

Lemma IZR_cond_Zopp (s : bool) (z : Z) :
  IZR (cond_Zopp s z) = ((if s then -1 else 1) * IZR z)%R.
Proof. destruct s; cbn [cond_Zopp]; [rewrite opp_IZR |]; ring. Qed.

Lemma to_R_round_result (sx : bool) (q E : Z) :
  0 <= q <= 2 ^ 53 -> is_finite (round_result sx q E) = true ->
  to_R (round_result sx q E) = (IZR (cond_Zopp sx q) * pow2 E)%R.
Proof.
  intros Hq. unfold round_result.
  destruct (Z.eqb_spec q 0) as [-> | H0].
  - intros _. rewrite IZR_cond_Zopp. cbn [to_R]. ring.
  - destruct (Z.eqb_spec q (2 ^ 53)) as [-> | H53].
    + destruct (E + 1 <=? 971); [intros _ | discriminate].
      cbn [to_R]. rewrite pow2_succ, !IZR_cond_Zopp.
      change (Z.pos (Z.to_pos (2 ^ 52))) with (2 ^ 52).
      change (2 ^ 53) with (2 * 2 ^ 52). rewrite mult_IZR. ring.
    + destruct (E <=? 971); [intros _ | discriminate].
      cbn [to_R]. rewrite Z2Pos.id by lia. reflexivity.
Qed.

(** A multiple of [2^k] next to [m / 2^k] is within [2^k] of every real
    from [m] up to [m + 1]. *)
Lemma floor_bracket (m k q : Z) (y : R) :
  0 <= m -> 0 <= k ->
  (IZR m <= y < IZR m + 1)%R ->
  m / 2 ^ k <= q <= m / 2 ^ k + 1 ->
  (Rabs (IZR q * pow2 k - y) <= pow2 k)%R.
Proof.
  intros Hm Hk Hy Hq. rewrite (pow2_IZR k Hk).
  assert (HK : 0 < 2 ^ k) by (apply Z.pow_pos_nonneg; lia).
  set (K := 2 ^ k) in *. set (t := m / K) in *.
  assert (Hlo : t * K <= m) by (rewrite Z.mul_comm; apply Z.mul_div_le; exact HK).
  assert (Hhi : m + 1 <= (t + 1) * K).
  { assert (H : m < K * Z.succ t) by (apply Z.mul_succ_div_gt; exact HK).
    clearbody t K. nia. }
  apply IZR_le in Hlo, Hhi. rewrite mult_IZR in Hlo. rewrite mult_IZR, !plus_IZR in Hhi.
  assert (HKr : (0 < IZR K)%R) by (apply IZR_lt; exact HK).
  apply Rabs_le.
  assert (Hq' : q = t \/ q = t + 1) by lia.
  destruct Hq' as [-> | ->]; [| rewrite plus_IZR]; nra.
Qed.

(** The unit in the last place of a value of magnitude at most [2^n]. *)
Lemma ulp_le (m e n : Z) (y : R) :
  0 <= m -> 0 <= fexp prec emax (Zdigits2 m + e) - e ->
  (IZR m <= y)%R -> (y * pow2 e <= pow2 n)%R -> -1022 <= n ->
  fexp prec emax (Zdigits2 m + e) <= n - 52.
Proof.
  intros Hm Hk Hy Hn Hn'. rewrite fexp_eq in *.
  destruct (Z.eq_dec m 0) as [-> | H0].
  - cbn [Zdigits2] in *. lia.
  - pose proof (Zdigits2_bounds m Hm) as (D0 & _ & Dlo). specialize (Dlo ltac:(lia)).
    assert (D1 : 1 <= Zdigits2 m) by (destruct m; cbn [Zdigits2]; lia).
    assert (Hd : Zdigits2 m - 1 <= n - e).
    { apply pow2_le_inv. rewrite pow2_IZR by lia.
      apply IZR_le in Dlo. rewrite pow2_sub.
      pose proof (pow2_pos e).
      apply Rle_trans with y; [lra |].
      apply (Rmult_le_reg_r (pow2 e)); [assumption |].
      replace (pow2 n / pow2 e * pow2 e)%R with (pow2 n) by (field; lra). exact Hn. }
    lia.
Qed.

(** Rounding a mantissa moves the value by at most one unit in the last
    place. *)
Lemma round_aux_error (sx : bool) (m e : Z) (l : location) (y : R) :
  0 <= m ->
  let k := fexp prec emax (Zdigits2 m + e) - e in
  0 <= k ->
  (IZR m <= y < IZR m + 1)%R ->
  is_finite (binary_round_aux prec emax sx m e l) = true ->
  (Rabs (to_R (binary_round_aux prec emax sx m e l)
         - (if sx then -1 else 1) * y * pow2 e) <= pow2 (e + k))%R.
Proof.
  intros Hm k Hk Hy Hfin.
  destruct (binary_round_aux_spec sx m e l Hm Hk) as (q & Hq & _ & H53 & E & _).
  fold k in Hq, E. rewrite E in Hfin |- *.
  assert (Hq0 : 0 <= q).
  { assert (0 <= m / 2 ^ k) by (apply Z.div_pos; [lia | apply Z.pow_pos_nonneg; lia]).
    lia. }
  rewrite to_R_round_result by (assumption || lia).
  rewrite IZR_cond_Zopp, pow2_add.
  pose proof (floor_bracket m k q y Hm Hk Hy Hq) as Hb.
  pose proof (pow2_pos e) as He.
  replace ((if sx then -1 else 1) * IZR q * (pow2 e * pow2 k)
           - (if sx then -1 else 1) * y * pow2 e)%R
    with ((if sx then -1 else 1) * (pow2 e * (IZR q * pow2 k - y)))%R by ring.
  apply Rabs_le_inv in Hb. apply Rabs_le. destruct sx; nra.
Qed.

(** The same bound from the magnitude: a value of magnitude at most [2^n]
    is rounded to within [2^(n-52)]. *)
Lemma round_aux_error_mag (sx : bool) (m e n : Z) (l : location) (y : R) :
  0 <= m ->
  0 <= fexp prec emax (Zdigits2 m + e) - e ->
  (IZR m <= y < IZR m + 1)%R ->
  (y * pow2 e <= pow2 n)%R -> -1022 <= n ->
  is_finite (binary_round_aux prec emax sx m e l) = true ->
  (Rabs (to_R (binary_round_aux prec emax sx m e l)
         - (if sx then -1 else 1) * y * pow2 e) <= pow2 (n - 52))%R.
Proof.
  intros Hm Hk Hy Hn Hn' Hfin.
  apply Rle_trans with (1 := round_aux_error sx m e l y Hm Hk Hy Hfin).
  apply pow2_le.
  pose proof (ulp_le m e n y Hm Hk (proj1 Hy) Hn Hn'). lia.
Qed.

Lemma to_R_finite (s : bool) (m : positive) (e : Z) :
  to_R (S754_finite s m e) = (sgn s * IZR (Zpos m) * pow2 e)%R.
Proof. cbn [to_R]. rewrite IZR_cond_Zopp. reflexivity. Qed.

Lemma sgn_xorb (a b : bool) : sgn (xorb a b) = (sgn a * sgn b)%R.
Proof. destruct a, b; cbn; ring. Qed.

Lemma Rabs_sgn_mul (s : bool) (x : R) : Rabs (sgn s * x) = Rabs x.
Proof. destruct s; cbn [sgn]; [replace (-1 * x)%R with (- x)%R by ring; apply Rabs_Ropp | f_equal; ring]. Qed.

(** [binary_round] on an exact mantissa. *)
Lemma binary_round_error (sx : bool) (p : positive) (e n : Z) :
  is_finite (binary_round prec emax sx p e) = true ->
  (IZR (Zpos p) * pow2 e <= pow2 n)%R -> -1022 <= n ->
  (Rabs (to_R (binary_round prec emax sx p e) - sgn sx * IZR (Zpos p) * pow2 e)
   <= pow2 (n - 52))%R.
Proof.
  intros Hfin Hn Hn'.
  destruct (binary_round_aligned sx p e) as (mz & ez & E & Hez & Hmz & _ & Hk).
  rewrite E in Hfin |- *.
  assert (Hv : (IZR (Zpos mz) * pow2 ez = IZR (Zpos p) * pow2 e)%R).
  { rewrite Hmz, mult_IZR, <- pow2_IZR by lia.
    replace e with (e - ez + ez) at 2 by lia. rewrite (pow2_add (e - ez) ez). ring. }
  pose proof (round_aux_error_mag sx (Zpos mz) ez n loc_Exact (IZR (Zpos mz))
                ltac:(lia) Hk ltac:(lra) ltac:(lra) Hn' Hfin) as H.
  unfold sgn. replace ((if sx then -1 else 1) * IZR (Z.pos p) * pow2 e)%R
    with ((if sx then -1 else 1) * IZR (Z.pos mz) * pow2 ez)%R by (rewrite !Rmult_assoc, Hv; reflexivity).
  exact H.
Qed.

Lemma binary_normalize_error (m e n : Z) (sz : bool) :
  is_finite (binary_normalize prec emax m e sz) = true ->
  (Rabs (IZR m * pow2 e) <= pow2 n)%R -> -1022 <= n ->
  (Rabs (to_R (binary_normalize prec emax m e sz) - IZR m * pow2 e)
   <= pow2 (n - 52))%R.
Proof.
  intros Hfin Hn Hn'. pose proof (pow2_pos e) as He. pose proof (pow2_pos (n - 52)) as Hu.
  destruct m as [| p | p]; cbn [binary_normalize] in *.
  - cbn [to_R]. rewrite Rmult_0_l, Rminus_0_r, Rabs_R0. lra.
  - assert (Hp : (0 < IZR (Zpos p))%R) by (apply IZR_lt; lia).
    rewrite Rabs_pos_eq in Hn by nra.
    pose proof (binary_round_error false p e n Hfin Hn Hn') as H.
    cbn [sgn] in H. rewrite Rmult_1_l in H. exact H.
  - assert (Hp : (0 < IZR (Zpos p))%R) by (apply IZR_lt; lia).
    change (Z.neg p) with (- Zpos p) in *. rewrite opp_IZR in *.
    replace (- IZR (Z.pos p) * pow2 e)%R with (- (IZR (Z.pos p) * pow2 e))%R in * by ring.
    rewrite Rabs_Ropp, Rabs_pos_eq in Hn by nra.
    pose proof (binary_round_error true p e n Hfin Hn Hn') as H.
    cbn [sgn] in H.
    replace (-1 * IZR (Z.pos p) * pow2 e)%R with (- (IZR (Z.pos p) * pow2 e))%R in H by ring.
    exact H.
Qed.

Lemma to_R_aligned (s : bool) (m mz : positive) (e ez : Z) :
  ez <= e -> Zpos mz = Zpos m * 2 ^ (e - ez) ->
  (IZR (cond_Zopp s (Zpos mz)) * pow2 ez)%R = to_R (S754_finite s m e).
Proof.
  intros He Hm. cbn [to_R]. rewrite !IZR_cond_Zopp, Hm, mult_IZR, <- pow2_IZR by lia.
  replace e with (e - ez + ez) at 2 by lia. rewrite (pow2_add (e - ez) ez). ring.
Qed.

(** ** The four operations *)

Lemma add_error (n : Z) (x y : float) :
  is_finite x = true -> is_finite y = true -> is_finite (add x y) = true ->
  (Rabs (to_R x + to_R y) <= pow2 n)%R -> -1022 <= n ->
  (Rabs (to_R (add x y) - (to_R x + to_R y)) <= pow2 (n - 52))%R.
Proof.
  intros Fx Fy Hfin Hn Hn'. pose proof (pow2_pos (n - 52)) as Hu.
  destruct x as [sx | sx | | sx mx ex], y as [sy | sy | | sy my ey];
    try discriminate.
  - replace (to_R (add (S754_zero sx) (S754_zero sy))) with 0%R
      by (destruct sx, sy; reflexivity).
    cbn [to_R]. rewrite Rplus_0_r, Rminus_0_r, Rabs_R0. lra.
  - change (add (S754_zero sx) (S754_finite sy my ey)) with (S754_finite sy my ey).
    replace (to_R (S754_zero sx)) with 0%R by reflexivity.
    rewrite Rplus_0_l, Rminus_diag, Rabs_R0. lra.
  - change (add (S754_finite sx mx ex) (S754_zero sy)) with (S754_finite sx mx ex).
    replace (to_R (S754_zero sy)) with 0%R by reflexivity.
    rewrite Rplus_0_r, Rminus_diag, Rabs_R0. lra.
  - unfold add in *. cbn [SFadd] in *. set (ez := Z.min ex ey) in *.
    destruct (shl_align_spec mx ex ez) as (ax & e1 & Ex & He1 & HA).
    destruct (shl_align_spec my ey ez) as (ay & e2 & Ey & He2 & HB).
    rewrite Ex, Ey in *. cbn [fst] in *.
    replace e1 with ez in HA by lia. replace e2 with ez in HB by lia.
    assert (E : (to_R (S754_finite sx mx ex) + to_R (S754_finite sy my ey)
                 = IZR (cond_Zopp sx (Zpos ax) + cond_Zopp sy (Zpos ay)) * pow2 ez)%R).
    { rewrite plus_IZR, Rmult_plus_distr_r.
      rewrite (to_R_aligned sx mx ax ex ez), (to_R_aligned sy my ay ey ez)
        by (lia || assumption). reflexivity. }
    rewrite E in *. apply binary_normalize_error; assumption.
Qed.

Lemma mul_error (n : Z) (x y : float) :
  valid x = true -> valid y = true ->
  is_finite x = true -> is_finite y = true -> is_finite (mul x y) = true ->
  (Rabs (to_R x * to_R y) <= pow2 n)%R -> -1022 <= n ->
  (Rabs (to_R (mul x y) - to_R x * to_R y) <= pow2 (n - 52))%R.
Proof.
  intros Vx Vy Fx Fy Hfin Hn Hn'. pose proof (pow2_pos (n - 52)) as Hu.
  destruct x as [sx | sx | | sx mx ex], y as [sy | sy | | sy my ey];
    try discriminate;
    try (cbn [mul SFmul to_R]; unfold mul; cbn [SFmul to_R];
         rewrite ?Rmult_0_l, ?Rmult_0_r, Rminus_0_r, Rabs_R0; lra).
  unfold mul in *. cbn [SFmul] in *.
  apply bounded_canonical in Vx as [Cx _]. apply bounded_canonical in Vy as [Cy _].
  pose proof (digits2_pos_bounds mx) as [Xlo Xhi].
  pose proof (digits2_pos_bounds my) as [Ylo Yhi].
  assert (D : Zpos (digits2_pos mx) + Zpos (digits2_pos my) - 1
              <= Zdigits2 (Zpos (mx * my))).
  { apply Zdigits2_ge; [| lia]. rewrite Pos2Z.inj_mul.
    replace (Zpos (digits2_pos mx) + Zpos (digits2_pos my) - 1 - 1)
      with ((Zpos (digits2_pos mx) - 1) + (Zpos (digits2_pos my) - 1)) by lia.
    rewrite Z.pow_add_r by lia.
    apply Z.mul_le_mono_nonneg; try assumption; apply Z.pow_nonneg; lia. }
  assert (Hk : 0 <= fexp prec emax (Zdigits2 (Zpos (mx * my)) + (ex + ey)) - (ex + ey)).
  { rewrite fexp_eq. lia. }
  assert (E : (to_R (S754_finite sx mx ex) * to_R (S754_finite sy my ey)
               = sgn (xorb sx sy) * IZR (Zpos (mx * my)) * pow2 (ex + ey))%R).
  { rewrite !to_R_finite, sgn_xorb, Pos2Z.inj_mul, mult_IZR, pow2_add. ring. }
  rewrite E in *.
  assert (Hp : (0 < IZR (Zpos (mx * my)))%R) by (apply IZR_lt; lia).
  pose proof (pow2_pos (ex + ey)) as Hpe.
  rewrite Rmult_assoc, Rabs_sgn_mul, Rabs_pos_eq in Hn by nra.
  apply (round_aux_error_mag (xorb sx sy) (Zpos (mx * my)) (ex + ey) n loc_Exact
           (IZR (Zpos (mx * my)))); (lia || lra || assumption).
Qed.

Lemma div_error (n : Z) (x y : float) :
  is_finite x = true -> is_finite y = true -> is_zero y = false ->
  is_finite (div x y) = true ->
  (Rabs (to_R x / to_R y) <= pow2 n)%R -> -1022 <= n ->
  (Rabs (to_R (div x y) - to_R x / to_R y) <= pow2 (n - 52))%R.
Proof.
  intros Fx Fy Zy Hfin Hn Hn'. pose proof (pow2_pos (n - 52)) as Hu.
  destruct x as [sx | sx | | sx mx ex], y as [sy | sy | | sy my ey];
    try discriminate.
  - unfold div. cbn [SFdiv to_R]. unfold Rdiv. rewrite Rmult_0_l, Rminus_0_r, Rabs_R0. lra.
  - unfold div in *. cbn [SFdiv] in *.
    destruct (div_core_spec mx my ex ey)
      as (q & e' & s & r & Ec & Hs & He' & Hdm & Hr & Hq0 & Hk).
    rewrite Ec in *.
    assert (Hmy : (0 < IZR (Zpos my))%R) by (apply IZR_lt; lia).
    assert (Hmx : (0 < IZR (Zpos mx))%R) by (apply IZR_lt; lia).
    pose proof (pow2_pos ex) as Pex. pose proof (pow2_pos ey) as Pey.
    pose proof (pow2_pos e') as Pe'.
    set (yq := (IZR q + IZR r / IZR (Zpos my))%R).
    assert (Hyq : (IZR q <= yq < IZR q + 1)%R).
    { unfold yq. destruct Hr as [Hr0 Hr1]. apply IZR_le in Hr0. apply IZR_lt in Hr1.
      assert (0 <= IZR r / IZR (Zpos my) < 1)%R; [| lra]. split.
      - apply Rmult_le_pos; [lra | apply Rlt_le, Rinv_0_lt_compat; lra].
      - apply (Rmult_lt_reg_r (IZR (Zpos my))); [lra |].
        unfold Rdiv. rewrite Rmult_assoc, Rinv_l by lra. lra. }
    assert (E : (to_R (S754_finite sx mx ex) / to_R (S754_finite sy my ey)
                 = sgn (xorb sx sy) * yq * pow2 e')%R).
    { rewrite !to_R_finite, sgn_xorb. unfold yq.
      assert (Hd : (IZR (Zpos mx) * pow2 s = IZR (Zpos my) * IZR q + IZR r)%R)
        by (rewrite pow2_IZR, <- !mult_IZR, <- plus_IZR by lia; f_equal; exact Hdm).
      assert (He : (pow2 ex = pow2 e' * pow2 ey * pow2 s)%R).
      { rewrite <- !pow2_add. f_equal. lia. }
      rewrite He. pose proof (pow2_pos s).
      assert (Hsx : sgn sx <> 0%R) by (destruct sx; cbn; lra).
      assert (Hsy : sgn sy <> 0%R) by (destruct sy; cbn; lra).
      assert (Hss : (sgn sy * sgn sy = 1)%R) by (destruct sy; cbn; lra).
      assert (Hyd : (yq * IZR (Zpos my) = IZR (Zpos my) * IZR q + IZR r)%R)
        by (unfold yq; field; lra).
      fold yq.
      apply (Rmult_eq_reg_r (sgn sy * IZR (Zpos my) * pow2 ey));
        [| apply Rmult_integral_contrapositive_currified;
           [apply Rmult_integral_contrapositive_currified |]; lra].
      unfold Rdiv at 1. rewrite Rmult_assoc, Rinv_l, Rmult_1_r
        by (apply Rmult_integral_contrapositive_currified;
            [apply Rmult_integral_contrapositive_currified |]; lra).
      replace (sgn sx * sgn sy * yq * pow2 e' * (sgn sy * IZR (Z.pos my) * pow2 ey))%R
        with ((sgn sy * sgn sy) * (sgn sx * pow2 e' * pow2 ey * (yq * IZR (Z.pos my))))%R
        by ring.
      rewrite Hss, Hyd, <- Hd. ring. }
    rewrite E in *.
    rewrite Rmult_assoc, Rabs_sgn_mul, Rabs_pos_eq in Hn.
    2:{ apply IZR_le in Hq0. nra. }
    apply (round_aux_error_mag (xorb sx sy) q e' n _ yq); (lia || lra || assumption).
Qed.

(** ** Magnitudes *)

Lemma mag_le_R (n : Z) (x : float) : mag_le n x -> (Rabs (to_R x) <= pow2 n)%R.
Proof.
  pose proof (pow2_pos n) as Hn.
  destruct x as [s | s | | s m e]; cbn [mag_le]; try contradiction.
  - intros _. cbn [to_R]. rewrite Rabs_R0. lra.
  - intros [He Hm]. rewrite to_R_finite, Rmult_assoc, Rabs_sgn_mul.
    pose proof (pow2_pos e) as Pe.
    assert (Hp : (0 < IZR (Zpos m))%R) by (apply IZR_lt; lia).
    rewrite Rabs_pos_eq by nra.
    apply IZR_le in Hm. rewrite <- pow2_IZR in Hm by lia.
    replace n with (n - e + e) by lia. rewrite pow2_add. nra.
Qed.

Lemma R_mag_le (n : Z) (x : float) :
  is_finite x = true -> (Rabs (to_R x) <= pow2 n)%R -> mag_le n x.
Proof.
  destruct x as [s | s | | s m e]; try discriminate; intros _; [intros _; exact I |].
  rewrite to_R_finite, Rmult_assoc, Rabs_sgn_mul.
  pose proof (pow2_pos e) as Pe.
  assert (Hp : (1 <= IZR (Zpos m))%R) by (apply IZR_le; lia).
  rewrite Rabs_pos_eq by nra. intros H.
  assert (He : e <= n) by (apply pow2_le_inv; nra).
  split; [exact He |].
  apply le_IZR. rewrite <- pow2_IZR by lia.
  replace n with (n - e + e) in H by lia. rewrite pow2_add in H.
  pose proof (pow2_pos (n - e)). nra.
Qed.

(** ** Mantissas below [2^53] are exact *)

Lemma binary_round_exact_at (sx : bool) (p : positive) (e : Z) :
  Zpos p < 2 ^ 53 -> -1021 <= e <= 971 ->
  is_finite (binary_round prec emax sx p e) = true /\
  to_R (binary_round prec emax sx p e) = (sgn sx * IZR (Zpos p) * pow2 e)%R.
Proof.
  intros Hp He.
  destruct (binary_round_aligned sx p e) as (mz & ez & -> & Hez & Hmz & Hd & Hk).
  destruct (binary_round_aux_spec sx (Zpos mz) ez loc_Exact ltac:(lia) Hk)
    as (q & Hq & Hup & H53 & -> & _).
  specialize (Hup eq_refl).
  pose proof (digits2_pos_bounds p) as [Plo Phi].
  pose proof (Zdigits2_le (Zpos p) 53 ltac:(lia) ltac:(lia) Hp) as Dp.
  cbn [Zdigits2] in Dp, Hd, Hk, Hq, Hup |- *.
  set (d := Zpos (digits2_pos p)) in *.
  set (k := fexp prec emax (Zpos (digits2_pos mz) + ez) - ez) in *.
  assert (Hd1 : 1 <= d) by (unfold d; lia).
  assert (Ek : k = d + e - 53 - ez) by (unfold k; rewrite Hd, fexp_eq; lia).
  assert (Hk' : 0 <= k) by exact Hk.
  assert (Hsplit : Zpos mz = Zpos p * 2 ^ (53 - d) * 2 ^ k).
  { rewrite Hmz, <- Z.mul_assoc, <- Z.pow_add_r by lia. f_equal. f_equal. lia. }
  assert (HK : 0 < 2 ^ k) by (apply Z.pow_pos_nonneg; lia).
  assert (Hdiv : Zpos mz / 2 ^ k = Zpos p * 2 ^ (53 - d))
    by (rewrite Hsplit; apply Z.div_mul; lia).
  assert (Hmod : Zpos mz mod 2 ^ k = 0)
    by (rewrite Hsplit; apply Z.mod_mul; lia).
  rewrite Hdiv, Hmod in *.
  assert (Eq : q = Zpos p * 2 ^ (53 - d)).
  { destruct (Z.eq_dec q (Zpos p * 2 ^ (53 - d) + 1)) as [E | NE];
      [specialize (Hup E); lia | lia]. }
  assert (H2 : 0 < 2 ^ (53 - d)) by (apply Z.pow_pos_nonneg; lia).
  assert (Hlt : q < 2 ^ 53).
  { rewrite Eq. replace 53 with (d + (53 - d)) at 2 by lia.
    rewrite Z.pow_add_r by lia. apply Z.mul_lt_mono_pos_r; lia. }
  assert (Hq0 : 0 < q) by (rewrite Eq; apply Z.mul_pos_pos; lia).
  assert (Efin : round_result sx q (ez + k) = S754_finite sx (Z.to_pos q) (ez + k)).
  { unfold round_result.
    destruct (Z.eqb_spec q 0); [lia |].
    destruct (Z.eqb_spec q (2 ^ 53)); [lia |].
    destruct (Z.leb_spec (ez + k) 971); [reflexivity | lia]. }
  rewrite Efin. split; [reflexivity |].
  rewrite to_R_finite, Z2Pos.id, Eq, mult_IZR, <- pow2_IZR by lia.
  rewrite Rmult_assoc, Rmult_assoc, <- pow2_add.
  replace (53 - d + (ez + k)) with e by lia. ring.
Qed.

Lemma binary_normalize_exact (m e : Z) (sz : bool) :
  Z.abs m < 2 ^ 53 -> -1021 <= e <= 971 ->
  is_finite (binary_normalize prec emax m e sz) = true /\
  to_R (binary_normalize prec emax m e sz) = (IZR m * pow2 e)%R.
Proof.
  intros Hz He. destruct m as [| p | p]; cbn [binary_normalize].
  - split; [reflexivity |]. cbn [to_R]. ring.
  - destruct (binary_round_exact_at false p e) as [F E]; [lia | lia |].
    split; [exact F |]. rewrite E. cbn [sgn]. ring.
  - destruct (binary_round_exact_at true p e) as [F E]; [lia | lia |].
    split; [exact F |]. rewrite E. cbn [sgn].
    change (Z.neg p) with (- Zpos p). rewrite opp_IZR. ring.
Qed.

Lemma of_Z_exact (z : Z) :
  Z.abs z < 2 ^ 53 -> is_finite (of_Z z) = true /\ to_R (of_Z z) = IZR z.
Proof.
  intros Hz. destruct (binary_normalize_exact z 0 false Hz ltac:(lia)) as [F E].
  split; [exact F |]. unfold of_Z. rewrite E, pow2_0. ring.
Qed.

(** * The integrand on the reals *)

Section RealIntegrand.

Local Open Scope R_scope.

Lemma sin2_cos2' (x : R) : Rsin x * Rsin x + Rcos x * Rcos x = 1.
Proof. pose proof (sin2_cos2 x) as H. unfold Rsqr in H. exact H. Qed.

Lemma sincos_R_bound (x : R) : Rabs (sincos_R x) <= 1.
Proof.
  unfold sincos_R. pose proof (sin2_cos2' x). apply Rabs_le. nra.
Qed.

Lemma derivable_sincos_R (c : R) :
  derivable_pt_lim sincos_R c (Rcos c * Rcos c - Rsin c * Rsin c).
Proof.
  replace (Rcos c * Rcos c - Rsin c * Rsin c)
    with (Rcos c * Rcos c + Rsin c * - Rsin c) by ring.
  apply (derivable_pt_lim_mult Rsin Rcos);
    [apply derivable_pt_lim_sin | apply derivable_pt_lim_cos].
Qed.

Lemma derivable_half_sin2 (c : R) : derivable_pt_lim half_sin2 c (sincos_R c).
Proof.
  unfold sincos_R.
  replace (Rsin c * Rcos c) with (/ 2 * (Rcos c * Rsin c + Rsin c * Rcos c)) by field.
  apply (derivable_pt_lim_scal (Rsin * Rsin)%F (/ 2)).
  apply (derivable_pt_lim_mult Rsin Rsin); apply derivable_pt_lim_sin.
Qed.

(** A function whose derivative is at most 1 in magnitude moves no faster
    than its argument. *)
Lemma lipschitz_1 (g g' : R -> R) :
  (forall c, derivable_pt_lim g c (g' c)) -> (forall c, Rabs (g' c) <= 1) ->
  forall x y, Rabs (g x - g y) <= Rabs (x - y).
Proof.
  intros Hd Hb.
  assert (L : forall x y, x < y -> Rabs (g y - g x) <= y - x).
  { intros x y Hxy.
    destruct (MVT_cor2 g g' x y Hxy (fun c _ => Hd c)) as (c & E & _).
    rewrite E. specialize (Hb c). apply Rabs_le_inv in Hb. apply Rabs_le. nra. }
  intros x y. destruct (Rtotal_order x y) as [H | [-> | H]].
  - rewrite (Rabs_minus_sym x y), (Rabs_minus_sym (g x)), (Rabs_pos_eq (y - x)) by lra.
    apply L. exact H.
  - rewrite !Rminus_diag, Rabs_R0. lra.
  - rewrite (Rabs_pos_eq (x - y)) by lra. apply L. exact H.
Qed.

Lemma sincos_R_lipschitz (x y : R) : Rabs (sincos_R x - sincos_R y) <= Rabs (x - y).
Proof.
  apply (lipschitz_1 sincos_R (fun c => Rcos c * Rcos c - Rsin c * Rsin c)).
  - exact derivable_sincos_R.
  - intros c. pose proof (sin2_cos2' c). apply Rabs_le. nra.
Qed.

Lemma cos_lipschitz (x y : R) : Rabs (Rcos x - Rcos y) <= Rabs (x - y).
Proof.
  apply (lipschitz_1 Rcos (fun c => - Rsin c)).
  - exact derivable_pt_lim_cos.
  - intros c. pose proof (SIN_bound c). apply Rabs_le. lra.
Qed.

(** One step of the left-endpoint rule against the antiderivative. *)
Lemma riemann_step (x h : R) :
  0 < h -> Rabs (h * sincos_R x - (half_sin2 (x + h) - half_sin2 x)) <= h * h.
Proof.
  intros Hh.
  destruct (MVT_cor2 half_sin2 sincos_R x (x + h) ltac:(lra)
              (fun c _ => derivable_half_sin2 c)) as (c & E & Hc).
  rewrite E. pose proof (sincos_R_lipschitz x c) as L.
  rewrite (Rabs_minus_sym x c), (Rabs_pos_eq (c - x)) in L by lra.
  apply Rabs_le_inv in L. apply Rabs_le. nra.
Qed.

(** The left-endpoint rule over [n] steps from 0. *)
Lemma riemann_telescope (h : R) (n : nat) :
  0 < h ->
  Rabs (h * sum_below (fun j => sincos_R (INR j * h)) n - half_sin2 (INR n * h))
  <= INR n * (h * h).
Proof.
  intros Hh. induction n as [| n IH].
  - cbn [sum_below INR]. unfold half_sin2. rewrite !Rmult_0_l, sin_0.
    rewrite Rmult_0_r, Rmult_0_r, Rmult_0_r, Rminus_0_r, Rabs_R0. lra.
  - cbn [sum_below]. rewrite S_INR.
    pose proof (riemann_step (INR n * h) h Hh) as St.
    replace ((INR n + 1) * h) with (INR n * h + h) by ring.
    apply Rabs_le_inv in IH, St. apply Rabs_le. lra.
Qed.

Lemma half_sin2_cos (x : R) : half_sin2 x - / 2 = - (Rcos x * Rcos x) / 2.
Proof. unfold half_sin2. pose proof (sin2_cos2' x). lra. Qed.

Lemma INR_fact_S (n : nat) : INR (fact (S n)) = INR (S n) * INR (fact n).
Proof. rewrite fact_simpl, mult_INR. reflexivity. Qed.

Lemma INR_fact_12 :
  INR (fact 2) = 2 /\ INR (fact 4) = 24 /\ INR (fact 6) = 720 /\
  INR (fact 8) = 40320 /\ INR (fact 10) = 3628800 /\
  INR (fact 12) = 479001600.
Proof.
  repeat rewrite INR_fact_S. rewrite !S_INR. cbn [fact INR]. repeat split; ring.
Qed.

(** The cosine of 1.5708, by its series to the twelfth power. *)
Lemma cos_15708 : Rabs (Rcos (15708 / 10000)) <= 5 / 1000000.
Proof.
  pose proof (pre_cos_bound (15708 / 10000) 2 ltac:(lra) ltac:(lra)) as [Lo Hi].
  change (2 * 2 + 1)%nat with 5%nat in Lo. change (2 * (2 + 1))%nat with 6%nat in Hi.
  unfold cos_approx, cos_term in Lo, Hi. cbn [sum_f_R0 Nat.mul Nat.add] in Lo, Hi.
  destruct INR_fact_12 as (F2 & F4 & F6 & F8 & F10 & F12).
  rewrite F2, F4, F6, F8, F10 in Lo. rewrite F2, F4, F6, F8, F10, F12 in Hi.
  change (INR (fact 0)) with 1 in Lo, Hi.
  apply Rabs_le. split; [| clear Lo]; [clear Hi |]; lra.
Qed.

End RealIntegrand.

(** * The sum on [0, half_pi] *)

Lemma pow2_neg_val (k : Z) : 0 <= k -> pow2 (- k) = (/ IZR (2 ^ k))%R.
Proof.
  intros Hk. pose proof (pow2_opp k) as H. rewrite (pow2_IZR k Hk) in H.
  assert (0 < 2 ^ k) by (apply Z.pow_pos_nonneg; lia).
  assert (0 < IZR (2 ^ k))%R by (apply IZR_lt; assumption).
  apply (Rmult_eq_reg_r (IZR (2 ^ k))); [| lra]. rewrite H. field. lra.
Qed.

Lemma half_pi_R : to_R half_pi = (7074237752028440 / 4503599627370496)%R.
Proof.
  unfold half_pi. rewrite to_R_finite. cbn [sgn].
  change (pow2 (-52)) with (pow2 (- (52))).
  rewrite (pow2_neg_val 52) by lia. change (2 ^ 52) with 4503599627370496. field.
Qed.

Lemma to_R_add_zero_l (y : float) :
  is_finite y = true ->
  is_finite (add zero y) = true /\ to_R (add zero y) = to_R y.
Proof. destruct y as [[|] | | | s m e]; try discriminate; intros _; split; reflexivity. Qed.

Lemma finite_of (x : float) : valid x = true -> is_finite x = true -> finite x = true.
Proof. intros V F. unfold finite. rewrite V, F. reflexivity. Qed.

Lemma finite_is_finite (x : float) : finite x = true -> is_finite x = true.
Proof. unfold finite. intros H. apply andb_true_iff in H. tauto. Qed.

Lemma riemann_sum_succ (M : libm) (a dx : float) (n : Z) :
  0 <= n ->
  riemann_sum M a dx (n + 1)
  = add (riemann_sum M a dx n) (sincos M (sample a dx n)).
Proof.
  intros Hn. unfold riemann_sum. rewrite range_succ by exact Hn.
  rewrite fold_left_app. reflexivity.
Qed.

Lemma sum_below_bound (g : nat -> R) (n : nat) :
  (forall j, Rabs (g j) <= 1)%R -> (Rabs (sum_below g n) <= INR n)%R.
Proof.
  intros Hg. induction n as [| n IH].
  - cbn. rewrite Rabs_R0. lra.
  - rewrite S_INR. cbn [sum_below]. specialize (Hg n).
    apply Rabs_le_inv in IH, Hg. apply Rabs_le. lra.
Qed.

Section Convergence.

Variable M : libm.
Hypothesis HM : conforming M.
Hypothesis HA : accurate M.
Variable N : Z.
Hypothesis HN : 1 <= N <= 2 ^ 23.

Let dx : float := step zero half_pi N.
Let h : R := to_R dx.
Let B : R := to_R half_pi.

Local Open Scope R_scope.

Lemma N_R : 1 <= IZR N <= 8388608.
Proof. destruct HN as [H1 H2]. apply IZR_le in H1, H2. exact (conj H1 H2). Qed.

Lemma B_bounds : 1570796 / 1000000 <= B <= 1570797 / 1000000.
Proof. unfold B. rewrite half_pi_R. lra. Qed.

Lemma N_DBL : (0 < N < DBL_LIMIT)%Z.
Proof.
  assert (2 ^ 23 < DBL_LIMIT)%Z by (vm_compute; reflexivity).
  set (L := DBL_LIMIT) in *. clearbody L. lia.
Qed.

(** The step: [b / N] rounded. *)
Lemma step_R :
  finite dx = true /\ Rabs (h - B / IZR N) <= pow2 (-51).
Proof.
  pose proof N_DBL as HD. pose proof N_R as HNR. pose proof B_bounds as HB.
  unfold h, dx, step. change (sub half_pi zero) with half_pi.
  destruct (of_Z_exact N) as [FN EN]; [lia |].
  assert (Fd : is_finite (div half_pi (of_Z N)) = true).
  { apply (div_int_finite half_pi N); [reflexivity | lia | lia]. }
  split; [apply finite_of; auto with binary64; reflexivity |].
  fold B. rewrite <- EN. apply (div_error 1); try assumption; try reflexivity.
  - apply of_Z_nonzero; lia.
  - rewrite EN. fold B. change (pow2 1) with (2 * 1). apply Rabs_le.
    assert (0 < / IZR N <= 1).
    { split; [apply Rinv_0_lt_compat; lra |].
      rewrite <- Rinv_1. apply Rinv_le_contravar; lra. }
    unfold Rdiv. nra.
  - lia.
Qed.

Lemma pow2_m51 : pow2 (-51) = / 2251799813685248.
Proof. exact (pow2_neg_val 51 ltac:(lia)). Qed.

Lemma pow2_m52 : pow2 (-52) = / 4503599627370496.
Proof. exact (pow2_neg_val 52 ltac:(lia)). Qed.

Lemma pow2_m50 : pow2 (-50) = / 1125899906842624.
Proof. exact (pow2_neg_val 50 ltac:(lia)). Qed.

Lemma pow2_m28 : pow2 (-28) = / 268435456.
Proof. exact (pow2_neg_val 28 ltac:(lia)). Qed.

(** [N * h] is [b] up to [2^-28], and [h] is positive. *)
Lemma h_bounds :
  0 < h /\ Rabs (IZR N * h - B) <= pow2 (-28) /\ h <= 2 / IZR N.
Proof.
  destruct step_R as [_ H]. pose proof N_R as HNR. pose proof B_bounds as HB.
  apply Rabs_le_inv in H. rewrite pow2_m51 in H. rewrite pow2_m28.
  assert (HI : 0 < / IZR N) by (apply Rinv_0_lt_compat; lra).
  assert (E : B / IZR N * IZR N = B) by (field; lra).
  assert (E2 : 2 / IZR N * IZR N = 2) by (field; lra).
  assert (Hlow : / 8388608 <= / IZR N) by (apply Rinv_le_contravar; lra).
  unfold Rdiv in *.
  split; [nra |]. split; [apply Rabs_le; split; nra |].
  apply (Rmult_le_reg_r (IZR N)); [lra |]. rewrite E2. nra.
Qed.

(** The sample points: [i * h] rounded. *)
Lemma sample_R (i : Z) :
  (0 <= i < N)%Z ->
  finite (sample zero dx i) = true /\
  Rabs (to_R (sample zero dx i) - IZR i * h) <= pow2 (-51) /\
  Rabs (to_R (sample zero dx i)) <= 2.
Proof.
  intros Hi. destruct step_R as [Fd _]. destruct h_bounds as (Hh & HNh & Hh2).
  pose proof N_R as HNR. pose proof B_bounds as HB.
  pose proof (finite_valid dx Fd) as Vd. pose proof (finite_is_finite dx Fd) as Id.
  destruct (of_Z_exact i) as [Fi Ei]; [lia |].
  assert (HiR : 0 <= IZR i <= IZR N - 1).
  { split; [apply IZR_le; lia |]. rewrite <- minus_IZR. apply IZR_le. lia. }
  rewrite pow2_m28 in HNh. apply Rabs_le_inv in HNh.
  assert (Hih : 0 <= IZR i * h <= 158 / 100) by nra.
  assert (Md : mag_le 1 dx).
  { apply R_mag_le; [exact Id |]. fold h. change (pow2 1) with (2 * 1).
    rewrite Rabs_pos_eq by lra.
    assert (2 / IZR N <= 2); [| lra].
    apply (Rmult_le_reg_r (IZR N)); [lra |].
    replace (2 / IZR N * IZR N) with 2 by (field; lra). lra. }
  assert (Mi : mag_le 23 (of_Z i)) by (apply of_Z_mag; lia).
  pose proof (mul_mag_pow2 23 1 (of_Z i) dx ltac:(lia) ltac:(lia) ltac:(lia)
                (valid_of_Z i) Vd Mi Md) as Mp.
  assert (Vp : valid (mul (of_Z i) dx) = true) by auto with binary64.
  pose proof (finite_is_finite _ (mag_le_finite _ _ Vp Mp)) as Fp.
  pose proof (mul_error 1 (of_Z i) dx (valid_of_Z i) Vd Fi Id Fp) as Em.
  rewrite Ei in Em. fold h in Em. change (pow2 1) with (2 * 1) in Em.
  change (1 - 52)%Z with (-51)%Z in Em.
  specialize (Em ltac:(rewrite Rabs_pos_eq; lra) ltac:(lia)).
  destruct (to_R_add_zero_l _ Fp) as [Fs Es].
  unfold sample. rewrite Es.
  split; [apply finite_of; auto with binary64 |].
  split; [exact Em |].
  rewrite pow2_m51 in Em. apply Rabs_le_inv in Em. apply Rabs_le. lra.
Qed.

(** The integrand at a sample point. *)
Lemma sincos_R_error (x : float) :
  finite x = true -> Rabs (to_R x) <= 2 ->
  valid (sincos M x) = true /\ mag_le 0 (sincos M x) /\
  Rabs (to_R (sincos M x) - sincos_R (to_R x)) <= 3 * pow2 (-52).
Proof.
  intros Fx Hx.
  destruct (sincos_mag M HM x Fx) as [Vt Mt].
  destruct (sin_range M HM x Fx) as [Sf Sl].
  destruct (cos_range M HM x Fx) as [Cf Cl].
  pose proof (mag_le_R 0 _ (le_one_mag _ Sf Sl)) as Sb.
  pose proof (mag_le_R 0 _ (le_one_mag _ Cf Cl)) as Cb.
  rewrite pow2_0 in Sb, Cb.
  pose proof (sin_accurate M HA x Fx Hx) as Sa.
  pose proof (cos_accurate M HA x Fx Hx) as Ca.
  split; [exact Vt |]. split; [exact Mt |].
  unfold sincos in *.
  pose proof (mul_error 0 (sin M x) (cos M x) (finite_valid _ Sf) (finite_valid _ Cf)
                (finite_is_finite _ Sf) (finite_is_finite _ Cf)
                (finite_is_finite _ (mag_le_finite _ _ Vt Mt))) as Em.
  rewrite pow2_0 in Em. change (0 - 52)%Z with (-52)%Z in Em.
  apply Rabs_le_inv in Sb, Cb.
  specialize (Em ltac:(apply Rabs_le; nra) ltac:(lia)).
  pose proof (SIN_bound (to_R x)) as SB. pose proof (COS_bound (to_R x)) as CB.
  unfold sincos_R. pose proof (pow2_pos (-52)) as Hp.
  apply Rabs_le_inv in Sa, Ca, Em. apply Rabs_le.
  set (S := to_R (sin M x)) in *. set (C := to_R (cos M x)) in *.
  set (s := Rsin (to_R x)) in *. set (c := Rcos (to_R x)) in *.
  set (u := pow2 (-52)) in *. clearbody S C s c u.
  split; nra.
Qed.

(** The integrand at the [i]-th sample point against the real integrand at
    [i * h]. *)
Lemma term_R (i : Z) :
  (0 <= i < N)%Z ->
  valid (sincos M (sample zero dx i)) = true /\
  mag_le 0 (sincos M (sample zero dx i)) /\
  Rabs (to_R (sincos M (sample zero dx i)) - sincos_R (IZR i * h))
  <= 5 * pow2 (-52).
Proof.
  intros Hi. destruct (sample_R i Hi) as (Fx & Ex & Bx).
  destruct (sincos_R_error _ Fx Bx) as (Vt & Mt & Et).
  split; [exact Vt |]. split; [exact Mt |].
  pose proof (sincos_R_lipschitz (to_R (sample zero dx i)) (IZR i * h)) as L.
  pose proof (Rle_trans _ _ _ L Ex) as L'.
  rewrite pow2_m51 in L'. rewrite pow2_m52 in *.
  apply Rabs_le_inv in L', Et. apply Rabs_le. lra.
Qed.

(** The accumulator after [n] additions against the real sum. *)
Lemma riemann_sum_R (n : nat) :
  (Z.of_nat n <= N)%Z ->
  valid (riemann_sum M zero dx (Z.of_nat n)) = true /\
  is_finite (riemann_sum M zero dx (Z.of_nat n)) = true /\
  Rabs (to_R (riemann_sum M zero dx (Z.of_nat n))
        - sum_below (fun j => sincos_R (INR j * h)) n)
  <= INR n * (5 * pow2 (-52) + pow2 (-28)).
Proof.
  induction n as [| n IH]; intros Hn.
  - cbn. rewrite Rminus_diag, Rabs_R0. split; [reflexivity |]. split; [reflexivity |]. lra.
  - rewrite Nat2Z.inj_succ in Hn |- *. unfold Z.succ in *.
    destruct IH as (Vs & Fs & Es); [lia |].
    destruct (term_R (Z.of_nat n)) as (Vt & Mt & Et); [lia |].
    rewrite riemann_sum_succ by lia.
    set (s := riemann_sum M zero dx (Z.of_nat n)) in *.
    set (t := sincos M (sample zero dx (Z.of_nat n))) in *.
    set (g := fun j : nat => sincos_R (INR j * h)) in *.
    pose proof (sum_below_bound g n (fun j => sincos_R_bound _)) as Sb.
    assert (Hn' : INR n <= 8388607).
    { rewrite INR_IZR_INZ. apply IZR_le. lia. }
    pose proof (pos_INR n) as Hn0.
    pose proof (mag_le_R 0 t Mt) as Tb. rewrite pow2_0 in Tb.
    rewrite <- INR_IZR_INZ in Et. fold (g n) in Et.
    rewrite pow2_m52, pow2_m28 in *.
    apply Rabs_le_inv in Sb, Tb, Es, Et.
    assert (Hs : Rabs (to_R s) <= pow2 24).
    { rewrite pow2_IZR by lia. apply Rabs_le. simpl (2 ^ 24)%Z. lra. }
    assert (Ms : mag_le 24 s) by (apply R_mag_le; assumption).
    assert (Mt' : mag_le 24 t) by (apply mag_le_mono with (n := 0%Z); [lia | exact Mt]).
    pose proof (add_mag_pow2 24 s t ltac:(lia) Vs Vt Ms Mt') as Ma.
    assert (Va : valid (add s t) = true) by auto with binary64.
    pose proof (finite_is_finite _ (mag_le_finite _ _ Va Ma)) as Fa.
    assert (Ft : is_finite t = true)
      by (apply finite_is_finite; apply (mag_le_finite 0); assumption).
    pose proof (add_error 24 s t Fs Ft Fa) as Ea.
    change (24 - 52)%Z with (-28)%Z in Ea. rewrite pow2_m28 in Ea.
    rewrite pow2_IZR in Ea by lia. simpl (2 ^ 24)%Z in Ea.
    specialize (Ea ltac:(apply Rabs_le; lra) ltac:(lia)).
    apply Rabs_le_inv in Ea.
    split; [exact Va |]. split; [exact Fa |].
    rewrite S_INR. cbn [sum_below]. apply Rabs_le. lra.
Qed.

(** The value returned for [a = 0], [b = half_pi]: a finite double within
    [3/N] of [1/2]. *)
Lemma left_riemann_R :
  finite (left_riemann M zero half_pi N) = true /\
  Rabs (to_R (left_riemann M zero half_pi N) - / 2) <= 3 / IZR N.
Proof.
  unfold left_riemann. fold dx.
  destruct step_R as [Fd _]. destruct h_bounds as (Hh & HNh & Hh2).
  pose proof N_R as HNR. pose proof B_bounds as HB.
  pose proof (finite_valid dx Fd) as Vd. pose proof (finite_is_finite dx Fd) as Id.
  destruct (riemann_sum_R (Z.to_nat N)) as (Vs & Fs & Es); [rewrite Z2Nat.id; lia |].
  rewrite Z2Nat.id in Vs, Fs, Es by lia.
  set (s := riemann_sum M zero dx N) in *.
  set (g := fun j : nat => sincos_R (INR j * h)) in *.
  pose proof (sum_below_bound g (Z.to_nat N) (fun j => sincos_R_bound _)) as Sb.
  pose proof (riemann_telescope h (Z.to_nat N) Hh) as Te. fold g in Te.
  assert (HINR : INR (Z.to_nat N) = IZR N) by (rewrite INR_IZR_INZ, Z2Nat.id; [reflexivity | lia]).
  rewrite HINR in *.
  set (sg := sum_below g (Z.to_nat N)) in *.
  set (n := IZR N) in *.
  rewrite pow2_m52, pow2_m28 in *.
  apply Rabs_le_inv in Sb, Es, HNh.
  set (p := n * h) in *.
  assert (Hp : 1570795 / 1000000 <= p <= 1570798 / 1000000) by lra.
  (* the product [s * h] *)
  assert (Hs : - (101 / 100 * n) <= to_R s <= 101 / 100 * n) by lra.
  assert (Hsh : - (2) <= to_R s * h <= 2).
  { assert (to_R s * h <= 101 / 100 * p) by (unfold p; nra).
    assert (- (101 / 100 * p) <= to_R s * h) by (unfold p; nra). lra. }
  assert (Hs24 : Rabs (to_R s) <= pow2 24).
  { rewrite pow2_IZR by lia. simpl (2 ^ 24)%Z. apply Rabs_le. lra. }
  assert (Ms : mag_le 24 s) by (apply R_mag_le; assumption).
  assert (Md : mag_le 1 dx).
  { apply R_mag_le; [exact Id |]. fold h. change (pow2 1) with (2 * 1).
    rewrite Rabs_pos_eq by lra.
    assert (2 / n <= 2); [| lra].
    apply (Rmult_le_reg_r n); [lra |].
    replace (2 / n * n) with 2 by (field; lra). lra. }
  pose proof (mul_mag_pow2 24 1 s dx ltac:(lia) ltac:(lia) ltac:(lia) Vs Vd Ms Md) as Mp.
  assert (Vp : valid (mul s dx) = true) by auto with binary64.
  pose proof (mag_le_finite _ _ Vp Mp) as Fp.
  split; [exact Fp |].
  pose proof (mul_error 2 s dx Vs Vd Fs Id (finite_is_finite _ Fp)) as Em.
  fold h in Em. change (pow2 2) with (2 * (2 * 1)) in Em.
  change (2 - 52)%Z with (-50)%Z in Em. rewrite pow2_m50 in Em.
  specialize (Em ltac:(apply Rabs_le; lra) ltac:(lia)).
  apply Rabs_le_inv in Em.
  (* the accumulated rounding errors, scaled by [h] *)
  assert (E1 : - (2 / 100000000) <= to_R s * h - h * sg <= 2 / 100000000).
  { set (E := 5 * / 4503599627370496 + / 268435456) in *.
    assert (HE : 0 <= E <= 4 / 1000000000) by (unfold E; lra).
    assert (to_R s * h - h * sg <= p * E) by (unfold p; nra).
    assert (- (p * E) <= to_R s * h - h * sg) by (unfold p; nra).
    assert (p * E <= 2 / 100000000) by nra. lra. }
  (* the distance of the antiderivative at [N * h] to one half *)
  pose proof (half_sin2_cos p) as Hc.
  pose proof (cos_lipschitz p (15708 / 10000)) as Cl.
  pose proof cos_15708 as C0.
  assert (Hd : Rabs (p - 15708 / 10000) <= 5 / 1000000) by (apply Rabs_le; lra).
  pose proof (Rle_trans _ _ _ Cl Hd) as Cl'.
  apply Rabs_le_inv in Cl', C0.
  assert (Cp : - (1 / 100000) <= Rcos p <= 1 / 100000) by lra.
  assert (E2 : - (1 / 10000000000) <= half_sin2 p - / 2 <= 0).
  { rewrite Hc. set (c := Rcos p) in *. clearbody c. nra. }
  (* the telescoping sum *)
  assert (Hq : h = p * / n) by (unfold p; field; lra).
  assert (Hq0 : / 8388608 <= / n <= 1).
  { split.
    - apply Rinv_le_contravar; lra.
    - rewrite <- Rinv_1. apply Rinv_le_contravar; lra. }
  assert (E3 : n * (h * h) <= 24675 / 10000 * / n).
  { replace (n * (h * h)) with (p * p * / n) by (rewrite Hq at 2; unfold p; ring).
    assert (p * p <= 24675 / 10000) by nra. nra. }
  apply Rabs_le_inv in Te.
  unfold Rdiv. apply Rabs_le.
  set (q := / n) in *. set (r := to_R (mul s dx)) in *.
  set (F := half_sin2 p) in *. set (T := n * (h * h)) in *.
  clearbody q r F T. clear - Em E1 E2 E3 Te Hq0. lra.
Qed.

End Convergence.

(** ** A libm on the grid of [2^-52] *)

Lemma pow2_52 : pow2 52 = 4503599627370496%R.
Proof. rewrite pow2_IZR by lia. reflexivity. Qed.

Lemma grid_spec (r : R) :
  (-1 <= r <= 1)%R ->
  finite (grid r) = true /\ leb (abs (grid r)) one = true /\
  (Rabs (to_R (grid r) - r) <= pow2 (-52))%R.
Proof.
  intros Hr. unfold grid.
  destruct (base_Int_part (r * pow2 52)) as [Lo Hi].
  rewrite pow2_52 in *.
  set (z := Int_part (r * 4503599627370496)) in *.
  assert (Hz : - 2 ^ 52 <= z <= 2 ^ 52).
  { split.
    - apply Z.lt_succ_r. apply lt_IZR. rewrite succ_IZR.
      change (IZR (- 2 ^ 52)) with (- 4503599627370496)%R. lra.
    - apply le_IZR. change (IZR (2 ^ 52)) with 4503599627370496%R. lra. }
  destruct (binary_normalize_exact z (-52) false) as [F E]; [lia | lia |].
  set (g := binary_normalize prec emax z (-52) false) in *.
  assert (V : valid g = true) by apply valid_binary_normalize.
  rewrite pow2_m52 in *.
  assert (Eg : (Rabs (to_R g - r) <= / 4503599627370496)%R).
  { rewrite E. apply Rabs_le. lra. }
  assert (M0 : mag_le 0 g).
  { apply R_mag_le; [exact F |]. rewrite pow2_0, E. apply Rabs_le.
    pose proof (IZR_le _ _ (proj1 Hz)) as H1. pose proof (IZR_le _ _ (proj2 Hz)) as H2.
    change (IZR (- 2 ^ 52)) with (- 4503599627370496)%R in H1.
    change (IZR (2 ^ 52)) with 4503599627370496%R in H2. lra. }
  split; [apply finite_of; assumption |].
  split; [apply mag_le_one; assumption | exact Eg].
Qed.

Lemma grid_libm_conforming : conforming grid_libm.
Proof.
  split; try reflexivity.
  - intros x Fx. cbn [sin grid_libm].
    destruct x as [s | s | | s m e]; try discriminate Fx.
    + split; reflexivity.
    + destruct (grid_spec (Rsin (to_R (S754_finite s m e)))) as (F & L & _);
        [apply SIN_bound |]. split; assumption.
  - intros x Fx. cbn [cos grid_libm].
    destruct x as [s | s | | s m e]; try discriminate Fx.
    + split; reflexivity.
    + destruct (grid_spec (Rcos (to_R (S754_finite s m e)))) as (F & L & _);
        [apply COS_bound |]. split; assumption.
Qed.

Lemma grid_libm_accurate : accurate grid_libm.
Proof.
  split; intros x Fx _.
  - cbn [sin grid_libm].
    destruct x as [s | s | | s m e]; try discriminate Fx.
    + cbn [grid_sin to_R]. rewrite sin_0, Rminus_diag, Rabs_R0.
      pose proof (pow2_pos (-52)). lra.
    + apply grid_spec, SIN_bound.
  - cbn [cos grid_libm].
    destruct x as [s | s | | s m e]; try discriminate Fx.
    + cbn [grid_cos to_R].
      replace (to_R one) with 1%R.
      * rewrite cos_0, Rminus_diag, Rabs_R0. pose proof (pow2_pos (-52)). lra.
      * unfold one. cbn [to_R cond_Zopp]. rewrite pow2_m52. lra.
    + apply grid_spec, COS_bound.
Qed.

(** On [0, half_pi], with at most [2^23] subdivisions, every routine returns
    the left-endpoint Riemann sum, a finite double within [3/N] of [1/2]. *)
Lemma integrate_zero_half_pi (M : libm) (N : Z) :
  conforming M -> accurate M -> 1 <= N <= 2 ^ 23 ->
  exists v : float,
    integrate_python M zero half_pi N = Ok (PyFloat v) /\
    integrate_cython_libc M zero half_pi N = Ok v /\
    integrate_cython_cfun M zero half_pi N = Ok v /\
    integrate M zero half_pi N = Ok v /\
    finite v = true /\
    (Rabs (to_R v - / 2) <= 3 / IZR N)%R.
Proof.
  intros HM HA HN. exists (left_riemann M zero half_pi N).
  destruct (left_riemann_R M HM HA N HN) as [Fv Ev].
  assert (HI : 1 <= N <= INT_MAX) by (unfold INT_MAX; lia).
  pose proof (int_range_dbl N ltac:(unfold INT_MIN, INT_MAX in *; lia)) as HD.
  split.
  { apply (integrate_python_left M HM); [reflexivity | reflexivity | lia |].
    intros i Hi. apply finite_not_inf.
    apply (sample_R N HN i Hi). }
  split; [apply cy_integrate_left; [reflexivity | exact HI] |].
  split; [apply cy_integrate_left; [reflexivity | exact HI] |].
  split; [apply cy_integrate_left; [reflexivity | exact HI] |].
  split; assumption.
Qed.

(** * The claims *)

(** C1 (amended).  For finite [a], [b] and an integer [N >= 1] that converts
    to a double, when no sample point [a + i*dx] is an infinity,
    [integrate_python(a, b, N)] returns [s * dx] with [dx = (b - a)/N] and
    [s] the sum, accumulated from 0 in the order [i = 0..N-1], of
    [sin(a + i*dx) * cos(a + i*dx)]; when some sample point is an infinity
    it raises [ValueError]. *)
Theorem integrate_python_riemann_sum (M : libm) (a b : float) (N : Z) :
  conforming M ->
  finite a = true -> finite b = true ->
  1 <= N < DBL_LIMIT ->
  ((forall i, 0 <= i < N -> is_inf (sample a (step a b N) i) = false) ->
   integrate_python M a b N = Ok (PyFloat (left_riemann M a b N))) /\
  ((exists i, 0 <= i < N /\ is_inf (sample a (step a b N) i) = true) ->
   integrate_python M a b N = Raise ValueError).
Proof.
  intros HM Ha Hb HN. split; intros Hs.
  - apply integrate_python_left; auto with binary64.
  - apply integrate_python_raises; auto with binary64.
Qed.

Lemma integrate_python_riemann_sum_witness :
  conforming small_angle /\
  integrate_python small_angle zero two_m30 4
  = Ok (PyFloat (left_riemann small_angle zero two_m30 4)).
Proof.
  split; [exact small_angle_conforming |].
  apply (integrate_python_riemann_sum small_angle zero two_m30 4).
  - exact small_angle_conforming.
  - reflexivity.
  - reflexivity.
  - split; [lia | vm_compute; reflexivity].
  - intros i Hi.
    assert (E : i = 0 \/ i = 1 \/ i = 2 \/ i = 3) by lia.
    destruct E as [-> | [-> | [-> | ->]]]; vm_compute; reflexivity.
Defined.

(** C1 as stated fails: with [b - a] overflowing, the second sample point is
    an infinity and [math.sin] raises; an [N] beyond the doubles cannot be
    divided by. *)
Lemma integrate_python_overflow :
  finite (SFopp max_float) = true /\ finite max_float = true /\
  integrate_python small_angle (SFopp max_float) max_float 2 = Raise ValueError /\
  integrate_python small_angle zero one (10 ^ 400) = Raise OverflowError.
Proof. repeat split; vm_compute; reflexivity. Qed.

(** C2 (amended).  On every [N] a C int can hold, the four loop
    implementations agree: [integrate_python] and [integrate_cython_types]
    return the same double or raise the same exception,
    [integrate_cython_libc] and [integrate_cython_cfun] are the same
    function, and they return what the first two return whenever those
    return.  [integrate_numpy] evaluates the integrand at the same sample
    points and multiplies by the same [dx], but adds the values in the order
    of numpy's pairwise reduction. *)
Theorem loop_implementations_agree (M : libm) (a b : float) (N : Z) :
  INT_MIN <= N <= INT_MAX ->
  integrate_python M a b N
  = (v <- integrate_cython_types M a b N ;; Ok (PyFloat v)) /\
  integrate_cython_libc M a b N = integrate_cython_cfun M a b N /\
  (forall v, integrate_cython_types M a b N = Ok v ->
             integrate_cython_libc M a b N = Ok v) /\
  (1 <= N -> is_zero (step a b N) = false ->
   integrate_numpy (numpy_of M) a b N
   = Ok (mul (step a b N)
             (add_reduce (map (sincos M)
                              (map (sample a (step a b N)) (range N)))))).
Proof.
  intros HN. split; [apply python_types_agree; exact HN |].
  split; [reflexivity |]. split; [apply types_libc_agree |].
  intros H1 Hz. apply integrate_numpy_samples; [| exact Hz].
  pose proof (int_range_dbl N HN). lia.
Qed.

Lemma loop_implementations_agree_witness :
  integrate_python small_angle three_m30 three_m29 9
  = (v <- integrate_cython_types small_angle three_m30 three_m29 9 ;;
     Ok (PyFloat v)) /\
  integrate_cython_libc small_angle three_m30 three_m29 9
  = integrate_cython_cfun small_angle three_m30 three_m29 9.
Proof.
  destruct (loop_implementations_agree small_angle three_m30 three_m29 9)
    as (H1 & H2 & _).
  - split; vm_compute; discriminate.
  - split; [exact H1 | exact H2].
Defined.

(** C2 as stated fails: on 9 subdivisions of [3*2^-30, 3*2^-29], where the
    sine of every sample point is the point itself and the cosine is 1, the
    loop returns 0x1.ap-57 and the pairwise sum 0x1.9fffffffffffep-57. *)
Lemma numpy_pairwise_differs :
  integrate_python small_angle three_m30 three_m29 9
  = Ok (PyFloat (S754_finite false 7318349394477056 (-109))) /\
  integrate_numpy (numpy_of small_angle) three_m30 three_m29 9
  = Ok (S754_finite false 7318349394477054 (-109)).
Proof. split; vm_compute; reflexivity. Qed.

(** C3 (amended).  The standalone [integrate], compiled with
    [cdivision(True)], raises nothing on [N = 0] and returns NaN, whatever
    [a] and [b]; on a negative [N] it raises nothing either and returns
    [0 * dx], a zero of the sign opposite to that of [b - a] when [b - a] is
    finite and a NaN when it is not. *)
Theorem integrate_nonpositive_N (M : libm) (a b : float) :
  integrate M a b 0 = Ok nan /\
  (forall N, INT_MIN <= N < 0 ->
     (finite (sub b a) = true ->
      integrate M a b N = Ok (S754_zero (negb (signbit (sub b a))))) /\
     (is_finite (sub b a) = false -> integrate M a b N = Ok nan)).
Proof.
  split; [apply integrate_zero |]. intros N HN.
  unfold integrate. rewrite (cy_integrate_negative M) by exact HN.
  rewrite mul_zero_l. unfold step.
  assert (HD : - DBL_LIMIT < N < DBL_LIMIT).
  { apply int_range_dbl. unfold INT_MAX. lia. }
  split; intros Hf.
  - destruct (div_int_finite (sub b a) N Hf) as [Hfin Hsg]; [exact HD | lia |].
    rewrite Hfin, Hsg. destruct (Z.ltb_spec N 0); [| lia].
    rewrite xorb_true_r. reflexivity.
  - rewrite div_not_finite by (assumption || lia). reflexivity.
Qed.

Lemma integrate_nonpositive_N_witness :
  integrate small_angle zero one 0 = Ok nan /\
  integrate small_angle zero one (-1) = Ok nzero.
Proof.
  destruct (integrate_nonpositive_N small_angle zero one) as [H0 Hneg].
  split; [exact H0 |].
  destruct (Hneg (-1)) as [Hfin _].
  - split; vm_compute; [discriminate | reflexivity].
  - apply Hfin. reflexivity.
Defined.

(** C3 as stated fails: [integrate_python] raises on [N = 0], and on a
    negative [N] the result is a zero, neither an infinity nor a NaN. *)
Lemma nonpositive_N_not_inf_nan :
  integrate_python small_angle zero one 0 = Raise ZeroDivisionError /\
  integrate small_angle zero one (-1) = Ok nzero /\
  integrate_python small_angle zero one (-1) = Ok (PyFloat nzero).
Proof. repeat split; vm_compute; reflexivity. Qed.

(** C4 (amended).  On [N = 0] the interpreted routine and the three Cython
    variants of the notebook raise [ZeroDivisionError] from the division
    that would compute [dx]; no sample is evaluated and nothing is
    returned. *)
Theorem zero_N_raises (M : libm) (a b : float) :
  integrate_python M a b 0 = Raise ZeroDivisionError /\
  integrate_cython_types M a b 0 = Raise ZeroDivisionError /\
  integrate_cython_libc M a b 0 = Raise ZeroDivisionError /\
  integrate_cython_cfun M a b 0 = Raise ZeroDivisionError.
Proof. repeat split; reflexivity. Qed.

(** C4 as stated fails: the standalone [integrate] rejects nothing and
    returns NaN. *)
Lemma integrate_zero_N_no_error : integrate small_angle zero one 0 = Ok nan.
Proof. vm_compute. reflexivity. Qed.

(** C5 (amended).  The compiled implementations compute the left-endpoint
    Riemann sum: for [N] from 1 up to the largest C int,
    [integrate_cython_libc], [integrate_cython_cfun] and [integrate] return
    [s * dx] with [s] the sum of the integrand at [a + i*dx] for
    [i = 0..N-1], and so does [integrate_cython_types] whenever it
    returns. *)
Theorem cython_left_riemann (M : libm) (a b : float) (N : Z) :
  1 <= N <= INT_MAX ->
  integrate_cython_libc M a b N = Ok (left_riemann M a b N) /\
  integrate_cython_cfun M a b N = Ok (left_riemann M a b N) /\
  integrate M a b N = Ok (left_riemann M a b N) /\
  (forall v, integrate_cython_types M a b N = Ok v -> v = left_riemann M a b N).
Proof.
  intros HN.
  assert (Hl : integrate_cython_libc M a b N = Ok (left_riemann M a b N)).
  { apply cy_integrate_left; [reflexivity | exact HN]. }
  split; [exact Hl |].
  split; [apply cy_integrate_left; [reflexivity | exact HN] |].
  split; [apply cy_integrate_left; [reflexivity | exact HN] |].
  intros v Hv. apply types_libc_agree in Hv. congruence.
Qed.

Lemma cython_left_riemann_witness :
  integrate small_angle zero two_m30 4
  = Ok (left_riemann small_angle zero two_m30 4).
Proof.
  destruct (cython_left_riemann small_angle zero two_m30 4) as (_ & _ & H & _).
  - split; vm_compute; discriminate.
  - exact H.
Defined.

(** C5 as stated fails: on one subdivision of [0, 2^-30] the routines return
    [dx * f(0) = 0] while the trapezoidal rule gives
    [dx * (f(0) + f(2^-30)) / 2 = 2^-61]. *)
Lemma left_sum_not_trapezoid :
  integrate_python small_angle zero two_m30 1 = Ok (PyFloat zero) /\
  integrate small_angle zero two_m30 1 = Ok zero /\
  trapezoid_rule small_angle zero two_m30 1
  = S754_finite false 4503599627370496 (-113).
Proof. repeat split; vm_compute; reflexivity. Qed.




(** C7.  For [a = 0.0], [b = 1.5707963267948966] and [N = 500000], with a
    libm that has the C99 special values and range and whose sine and cosine
    are within [2^-52] of the real functions on [-2, 2],
    [integrate_python] returns a finite double within [1e-5] of [1/2]. *)
Theorem integrate_half_pi_500000 (M : libm) :
  conforming M -> accurate M ->
  exists v : float,
    integrate_python M zero half_pi 500000 = Ok (PyFloat v) /\
    finite v = true /\
    (Rabs (to_R v - / 2) <= 1 / 100000)%R.
Proof.
  intros HM HA.
  destruct (integrate_zero_half_pi M 500000 HM HA) as (v & Hp & _ & _ & _ & Fv & Ev).
  - split; [lia | vm_compute; discriminate].
  - exists v. split; [exact Hp |]. split; [exact Fv |].
    apply Rle_trans with (1 := Ev). lra.
Qed.

Lemma integrate_half_pi_500000_witness :
  exists v : float,
    integrate_python grid_libm zero half_pi 500000 = Ok (PyFloat v) /\
    finite v = true /\
    (Rabs (to_R v - / 2) <= 1 / 100000)%R.
Proof.
  apply (integrate_half_pi_500000 grid_libm).
  - exact grid_libm_conforming.
  - exact grid_libm_accurate.
Defined.

(** C8 (amended).  For a finite [a] and an integer [N >= 1] that converts
    to a double, [integrate_python(a, a, N)] returns a zero: [dx] is +0.0,
    the accumulated sum [s] is finite, and [s * dx] is 0.0 or -0.0 with the
    sign of [s]. *)
Theorem integrate_python_zero_width (M : libm) (a : float) (N : Z) :
  conforming M ->
  finite a = true ->
  1 <= N < DBL_LIMIT ->
  integrate_python M a a N
  = Ok (PyFloat (S754_zero (signbit (riemann_sum M a zero N)))).
Proof. intros HM Ha HN. apply integrate_python_self; assumption. Qed.

Lemma integrate_python_zero_width_witness :
  integrate_python small_angle two_m30 two_m30 3 = Ok (PyFloat zero).
Proof.
  apply (integrate_python_zero_width small_angle two_m30 3).
  - exact small_angle_conforming.
  - reflexivity.
  - split; [lia | vm_compute; reflexivity].
Defined.

(** C8 as stated fails: an [N] beyond the doubles raises, and where the
    integrand is negative the zero returned is -0.0. *)
Lemma zero_width_not_plain_zero :
  integrate_python small_angle one one (10 ^ 400) = Raise OverflowError /\
  integrate_python small_angle (SFopp two_m30) (SFopp two_m30) 3
  = Ok (PyFloat nzero).
Proof. split; vm_compute; reflexivity. Qed.

(** C9.  [integrate(0, pi/2, 1)] is exactly 0.0: the single left endpoint is
    0, where the sine is 0 and the cosine 1. *)
Theorem integrate_python_single_bin (M : libm) :
  sin M zero = zero -> cos M zero = one ->
  integrate_python M zero half_pi 1 = Ok (PyFloat zero) /\
  integrate M zero half_pi 1 = Ok zero.
Proof.
  intros Hs Hc. split.
  - rewrite integrate_python_eq.
    change (py_truediv (sub half_pi zero) (PyInt 1)) with (Ok half_pi).
    cbn [bind]. change (range 1) with [0]. cbn [for_each].
    rewrite py_body_eq by (split; vm_compute; reflexivity).
    change (sample zero half_pi 0) with zero.
    unfold fpy, math_sin, math_cos, math_1. rewrite Hs, Hc. reflexivity.
  - unfold integrate. rewrite cy_integrate_eq.
    change (as_c_int 1) with (Ok (A := Z) 1). cbn [bind].
    change (cy_div true (sub half_pi zero) 1) with (Ok half_pi). cbn [bind].
    change (range 1) with [0]. cbn [for_each]. unfold cy_body, f.
    change (add zero (mul (of_Z 0) half_pi)) with zero.
    rewrite Hs, Hc. reflexivity.
Qed.

Lemma integrate_python_single_bin_witness :
  integrate_python small_angle zero half_pi 1 = Ok (PyFloat zero) /\
  integrate small_angle zero half_pi 1 = Ok zero.
Proof.
  apply (integrate_python_single_bin small_angle); reflexivity.
Defined.

(** C10 (amended).  For a negative [N] that converts to a double,
    [integrate_python(a, b, N)] raises nothing and returns [0 * dx]: a zero
    of the sign opposite to that of [b - a] when the difference [b - a] is
    finite, and a NaN when it is not. *)
Theorem integrate_python_negative_N (M : libm) (a b : float) (N : Z) :
  - DBL_LIMIT < N < 0 ->
  (finite (sub b a) = true ->
   integrate_python M a b N
   = Ok (PyFloat (S754_zero (negb (signbit (sub b a)))))) /\
  (is_finite (sub b a) = false ->
   integrate_python M a b N = Ok (PyFloat nan)).
Proof.
  intros HN. rewrite integrate_python_negative by exact HN.
  rewrite mul_zero_l. unfold step.
  assert (HL : N < DBL_LIMIT).
  { assert (0 < DBL_LIMIT) by (vm_compute; reflexivity).
    set (L := DBL_LIMIT) in *. clearbody L. lia. }
  split; intros Hf.
  - destruct (div_int_finite (sub b a) N Hf) as [Hfin Hsg]; [lia | lia |].
    rewrite Hfin, Hsg. destruct (Z.ltb_spec N 0); [| lia].
    rewrite xorb_true_r. reflexivity.
  - rewrite div_not_finite by (assumption || lia). reflexivity.
Qed.

Lemma integrate_python_negative_N_witness :
  integrate_python small_angle zero one (-1) = Ok (PyFloat nzero).
Proof.
  destruct (integrate_python_negative_N small_angle zero one (-1)) as [Hfin _].
  - split; vm_compute; reflexivity.
  - apply Hfin. reflexivity.
Defined.

(** C10 as stated fails: when [b - a] overflows, [dx] is an infinity and
    [0 * dx] is a NaN. *)
Lemma negative_N_overflow_nan :
  finite (SFopp max_float) = true /\ finite max_float = true /\
  integrate_python small_angle (SFopp max_float) max_float (-1)
  = Ok (PyFloat nan).
Proof. repeat split; vm_compute; reflexivity. Qed.


(** * Further properties of the notebook *)

(** ** The integrand *)

(** X1.  [fpy], the integrand on [math.sin] and [math.cos], raises
    [ValueError] exactly on the two infinities; on every other double, NaN
    included, it returns the product [sin(x) * cos(x)]. *)
Theorem fpy_domain (M : libm) (x : float) :
  conforming M -> valid x = true ->
  (is_inf x = true -> fpy M x = Raise ValueError) /\
  (is_inf x = false -> fpy M x = Ok (mul (sin M x) (cos M x))).
Proof.
  intros HM Hv. split; intros Hi.
  - apply fpy_inf; assumption.
  - apply (fpy_ok M HM); assumption.
Qed.

Lemma fpy_domain_witness :
  fpy small_angle (S754_infinity false) = Raise ValueError /\
  fpy small_angle two_m30 = Ok two_m30.
Proof.
  split.
  - apply (fpy_domain small_angle (S754_infinity false) small_angle_conforming);
      reflexivity.
  - apply (fpy_domain small_angle two_m30 small_angle_conforming); reflexivity.
Defined.

(** X2.  On a finite [x], [fpy] returns a finite double of magnitude at
    most 1: the product of a sine and a cosine neither overflows nor is a
    NaN. *)
Theorem fpy_bounded (M : libm) (x : float) :
  conforming M -> finite x = true ->
  exists y, fpy M x = Ok y /\ finite y = true /\ leb (abs y) one = true.
Proof.
  intros HM Hf. exists (sincos M x).
  destruct (sincos_mag M HM x Hf) as [Hv Hm].
  split; [apply (fpy_ok M HM); auto using finite_not_inf with binary64 |].
  split; [exact (mag_le_finite 0 _ Hv Hm) | exact (mag_le_one _ Hv Hm)].
Qed.

Lemma fpy_bounded_witness :
  exists y, fpy small_angle half_pi = Ok y /\ finite y = true /\
            leb (abs y) one = true.
Proof.
  apply (fpy_bounded small_angle half_pi small_angle_conforming). reflexivity.
Defined.

(** ** The argument [N] *)

(** X3.  The four Cython routines declare [int N]: an [N] outside the range
    of a C int is refused with [OverflowError] before anything is
    computed, whatever [a] and [b]. *)
Theorem cython_int_overflow (M : libm) (a b : float) (N : Z) :
  N < INT_MIN \/ INT_MAX < N ->
  integrate_cython_types M a b N = Raise OverflowError /\
  integrate_cython_libc M a b N = Raise OverflowError /\
  integrate_cython_cfun M a b N = Raise OverflowError /\
  integrate M a b N = Raise OverflowError.
Proof.
  intros HN.
  assert (E : as_c_int N = Raise OverflowError).
  { unfold as_c_int.
    destruct (Z.leb_spec INT_MIN N), (Z.leb_spec N INT_MAX); try reflexivity; lia. }
  unfold integrate_cython_types, integrate_cython_libc, integrate_cython_cfun,
    integrate. rewrite !cy_integrate_eq, E. repeat split; reflexivity.
Qed.

Lemma cython_int_overflow_witness :
  integrate small_angle zero half_pi (2 ^ 31) = Raise OverflowError.
Proof.
  destruct (cython_int_overflow small_angle zero half_pi (2 ^ 31)) as (_ & _ & _ & H).
  - right. reflexivity.
  - exact H.
Defined.

(** X4.  [integrate_python] divides by [N] as a float: whatever [a] and
    [b], it raises [OverflowError] when [N] has no double, that is from
    [2^1024 - 2^970] on in magnitude; on doubles [a] and [b] and a
    conforming libm it raises [OverflowError] for no other [N]. *)
Theorem integrate_python_huge_N (M : libm) (a b : float) (N : Z) :
  (N <= - DBL_LIMIT \/ DBL_LIMIT <= N ->
   integrate_python M a b N = Raise OverflowError) /\
  (conforming M -> valid a = true -> valid b = true ->
   integrate_python M a b N = Raise OverflowError ->
   N <= - DBL_LIMIT \/ DBL_LIMIT <= N).
Proof.
  split.
  - intros HN. rewrite integrate_python_eq. unfold py_truediv. cbn [to_double].
    rewrite float_of_int_overflow by exact HN. reflexivity.
  - intros HM Va Vb H.
    assert (HL : 0 < DBL_LIMIT) by (vm_compute; reflexivity).
    set (L := DBL_LIMIT) in *.
    destruct (Z_le_gt_dec N (- L)) as [Hlo | Hlo]; [left; exact Hlo |].
    destruct (Z_le_gt_dec L N) as [Hhi | Hhi]; [right; exact Hhi |].
    exfalso.
    destruct (Z.lt_trichotomy N 0) as [Hn | [-> | Hp]].
    + rewrite integrate_python_negative in H by (fold L; clearbody L; lia).
      discriminate H.
    + discriminate H.
    + assert (HN : 1 <= N < DBL_LIMIT) by (fold L; clearbody L; lia).
      destruct (range_forall_or_exists
                  (fun i => is_inf (sample a (step a b N) i)) N) as [Hs | Hs].
      * rewrite (integrate_python_left M HM a b N Va Vb HN Hs) in H. discriminate H.
      * rewrite (integrate_python_raises M HM a b N Va Vb HN Hs) in H. discriminate H.
Qed.

Lemma integrate_python_huge_N_witness :
  integrate_python small_angle zero half_pi DBL_LIMIT = Raise OverflowError /\
  (DBL_LIMIT <= - DBL_LIMIT \/ DBL_LIMIT <= DBL_LIMIT).
Proof.
  destruct (integrate_python_huge_N small_angle zero half_pi DBL_LIMIT) as [H1 H2].
  assert (E : integrate_python small_angle zero half_pi DBL_LIMIT
              = Raise OverflowError) by (apply H1; right; apply Z.le_refl).
  split; [exact E |].
  apply H2; [exact small_angle_conforming | reflexivity | reflexivity | exact E].
Defined.

(** X5.  On a negative [N] the three Cython variants of the notebook skip
    the loop like [integrate] does and return [0 * dx]: a zero of the sign
    opposite to that of [b - a] when [b - a] is finite, a NaN when it is
    not. *)
Theorem cython_negative_N (M : libm) (a b : float) (N : Z) :
  INT_MIN <= N < 0 ->
  (finite (sub b a) = true ->
   let z := S754_zero (negb (signbit (sub b a))) in
   integrate_cython_types M a b N = Ok z /\
   integrate_cython_libc M a b N = Ok z /\
   integrate_cython_cfun M a b N = Ok z) /\
  (is_finite (sub b a) = false ->
   integrate_cython_types M a b N = Ok nan /\
   integrate_cython_libc M a b N = Ok nan /\
   integrate_cython_cfun M a b N = Ok nan).
Proof.
  intros HN.
  assert (HD : - DBL_LIMIT < N < DBL_LIMIT).
  { apply int_range_dbl. unfold INT_MAX. lia. }
  unfold integrate_cython_types, integrate_cython_libc, integrate_cython_cfun.
  rewrite !(cy_integrate_negative M) by exact HN.
  rewrite mul_zero_l. unfold step. split; intros Hf.
  - destruct (div_int_finite (sub b a) N Hf) as [Hfin Hsg]; [exact HD | lia |].
    rewrite Hfin, Hsg. destruct (Z.ltb_spec N 0); [| lia].
    rewrite xorb_true_r. cbn zeta. auto.
  - rewrite div_not_finite by (assumption || lia). auto.
Qed.

Lemma cython_negative_N_witness :
  integrate_cython_types small_angle zero one (-3) = Ok nzero /\
  integrate_cython_libc small_angle zero one (-3) = Ok nzero /\
  integrate_cython_cfun small_angle zero one (-3) = Ok nzero.
Proof.
  destruct (cython_negative_N small_angle zero one (-3)) as [H _].
  - split; vm_compute; [discriminate | reflexivity].
  - apply H. reflexivity.
Defined.

(** X6.  The directive [cdivision(True)] of integrate.pyx changes the case
    [N = 0] only: on every other [N], [integrate] and
    [integrate_cython_cfun] return the same value or raise the same
    exception. *)
Theorem cdivision_changes_zero_only (M : libm) (a b : float) (N : Z) :
  N <> 0 -> integrate M a b N = integrate_cython_cfun M a b N.
Proof.
  intros HN. unfold integrate, integrate_cython_cfun. rewrite !cy_integrate_eq.
  destruct (as_c_int N) as [n | e] eqn:E; [| reflexivity]. cbn [bind].
  assert (n = N) as ->.
  { unfold as_c_int in E. destruct (_ && _); congruence. }
  rewrite !cy_div_ok by exact HN. reflexivity.
Qed.

Lemma cdivision_changes_zero_only_witness :
  integrate small_angle zero half_pi 5
  = integrate_cython_cfun small_angle zero half_pi 5.
Proof.
  apply (cdivision_changes_zero_only small_angle zero half_pi 5). discriminate.
Defined.

(** ** Sample points that are not finite *)

(** X7.  The typed variant of cell 3, which calls [math.sin] and
    [math.cos], behaves like [integrate_python] for [N] from 1 up to the
    largest C int: it returns the left-endpoint sum when no sample point is
    an infinity and raises [ValueError] when one is. *)
Theorem cython_types_riemann_sum (M : libm) (a b : float) (N : Z) :
  conforming M -> valid a = true -> valid b = true ->
  1 <= N <= INT_MAX ->
  ((forall i, 0 <= i < N -> is_inf (sample a (step a b N) i) = false) ->
   integrate_cython_types M a b N = Ok (left_riemann M a b N)) /\
  ((exists i, 0 <= i < N /\ is_inf (sample a (step a b N) i) = true) ->
   integrate_cython_types M a b N = Raise ValueError).
Proof.
  intros HM Ha Hb HN.
  assert (HI : INT_MIN <= N <= INT_MAX) by (unfold INT_MIN in *; lia).
  pose proof (int_range_dbl N HI) as HD.
  split; intros Hs.
  - apply types_of_python_ok; [exact HI |].
    apply integrate_python_left; auto; lia.
  - apply types_of_python_raise; [exact HI |].
    apply integrate_python_raises; auto; lia.
Qed.

Lemma cython_types_riemann_sum_witness :
  integrate_cython_types small_angle (SFopp max_float) max_float 2
  = Raise ValueError.
Proof.
  destruct (cython_types_riemann_sum small_angle (SFopp max_float) max_float 2)
    as [_ H].
  - exact small_angle_conforming.
  - reflexivity.
  - reflexivity.
  - split; vm_compute; discriminate.
  - apply H. exists 1. split; [lia | vm_compute; reflexivity].
Defined.

(** X8.  The variants on libc's [sin] and [cos] raise nothing where the
    [math] functions do: when a sample point is an infinity or a NaN,
    [integrate_cython_libc], [integrate_cython_cfun] and [integrate] return
    NaN. *)
Theorem cython_libc_nan (M : libm) (a b : float) (N : Z) :
  conforming M -> 1 <= N <= INT_MAX ->
  (exists i, 0 <= i < N /\ is_finite (sample a (step a b N) i) = false) ->
  integrate_cython_libc M a b N = Ok nan /\
  integrate_cython_cfun M a b N = Ok nan /\
  integrate M a b N = Ok nan.
Proof.
  intros HM HN Hs.
  pose proof (left_riemann_nan M HM a b N Hs) as E.
  repeat split; (rewrite <- E; apply cy_integrate_left; [reflexivity | exact HN]).
Qed.

Lemma cython_libc_nan_witness :
  integrate small_angle (SFopp max_float) max_float 2 = Ok nan.
Proof.
  destruct (cython_libc_nan small_angle (SFopp max_float) max_float 2) as (_ & _ & H).
  - exact small_angle_conforming.
  - split; vm_compute; discriminate.
  - exists 1. split; [lia | vm_compute; reflexivity].
  - exact H.
Defined.

(** X9.  An end of the interval that is not finite makes the first sample
    point [a + 0*dx] a NaN, with which the variants on libc's functions
    return NaN: [integrate(a, b, N)] is NaN whenever [a] or [b] is an
    infinity or a NaN. *)
Theorem cython_libc_nonfinite_bounds (M : libm) (a b : float) (N : Z) :
  conforming M -> 1 <= N <= INT_MAX ->
  is_finite a = false \/ is_finite b = false ->
  integrate_cython_libc M a b N = Ok nan /\
  integrate_cython_cfun M a b N = Ok nan /\
  integrate M a b N = Ok nan.
Proof.
  intros HM HN H.
  assert (HD : 0 < N < DBL_LIMIT).
  { pose proof (int_range_dbl N). unfold INT_MIN in *. lia. }
  assert (S0 : sample a (step a b N) 0 = nan).
  { assert (H0 : 0 <= 0 < DBL_LIMIT) by lia.
    destruct (is_finite a) eqn:Fa; [| apply sample_nan; auto].
    destruct H as [H | H]; [discriminate |].
    destruct (is_nan b) eqn:Nb; [apply sample_nan; auto |].
    apply sample_infinite_upper; [exact Fa | | exact HD].
    destruct b; try discriminate; reflexivity. }
  assert (E : left_riemann M a b N = nan).
  { apply (left_riemann_nan M HM). exists 0. split; [lia |]. rewrite S0. reflexivity. }
  repeat split; (rewrite <- E; apply cy_integrate_left; [reflexivity | exact HN]).
Qed.

Lemma cython_libc_nonfinite_bounds_witness :
  integrate small_angle zero (S754_infinity false) 4 = Ok nan.
Proof.
  destruct (cython_libc_nonfinite_bounds small_angle zero (S754_infinity false) 4)
    as (_ & _ & H).
  - exact small_angle_conforming.
  - split; vm_compute; discriminate.
  - right. reflexivity.
  - exact H.
Defined.

(** X10.  With both ends of the interval finite and of magnitude at most
    [2^968], and [N] from 1 up to the largest C int, nothing overflows:
    [integrate_python] and [integrate_cython_types] raise nothing and
    return the left-endpoint sum, which is a finite double. *)
Theorem integrate_python_bounded_inputs (M : libm) (a b : float) (N : Z) :
  conforming M ->
  finite a = true -> finite b = true ->
  leb (abs a) two_968 = true -> leb (abs b) two_968 = true ->
  1 <= N <= INT_MAX ->
  integrate_python M a b N = Ok (PyFloat (left_riemann M a b N)) /\
  integrate_cython_types M a b N = Ok (left_riemann M a b N) /\
  finite (left_riemann M a b N) = true.
Proof.
  intros HM Fa Fb La Lb HN.
  assert (HI : INT_MIN <= N <= INT_MAX) by (unfold INT_MIN in *; lia).
  pose proof (int_range_dbl N HI) as HD.
  pose proof (leb_pow2_mag 968 a Fa La) as Ma.
  pose proof (leb_pow2_mag 968 b Fb Lb) as Mb.
  assert (Hp : integrate_python M a b N = Ok (PyFloat (left_riemann M a b N))).
  { apply integrate_python_left; auto with binary64; [lia |].
    intros i Hi. apply finite_not_inf. apply sample_finite; assumption. }
  split; [exact Hp |].
  split; [apply types_of_python_ok; assumption |].
  apply (left_riemann_finite M HM); assumption.
Qed.

Lemma integrate_python_bounded_inputs_witness :
  integrate_python small_angle zero half_pi 500000
  = Ok (PyFloat (left_riemann small_angle zero half_pi 500000)).
Proof.
  destruct (integrate_python_bounded_inputs small_angle zero half_pi 500000)
    as [H _].
  - exact small_angle_conforming.
  - reflexivity.
  - reflexivity.
  - reflexivity.
  - reflexivity.
  - split; vm_compute; discriminate.
  - exact H.
Defined.

(** X11.  A lower end that is not finite, or a NaN upper end, raises
    nothing: [0 * dx] is a NaN, so is every sample point, [math.sin] and
    [math.cos] pass a NaN on, and [integrate_python] returns NaN. *)
Theorem integrate_python_nan_bounds (M : libm) (a b : float) (N : Z) :
  conforming M -> valid a = true -> valid b = true ->
  1 <= N < DBL_LIMIT ->
  is_finite a = false \/ is_nan b = true ->
  integrate_python M a b N = Ok (PyFloat nan).
Proof.
  intros HM Va Vb HN H.
  assert (Hs : forall i, 0 <= i < N -> sample a (step a b N) i = nan).
  { intros i Hi. apply sample_nan; [exact H | lia | lia]. }
  rewrite (integrate_python_left M HM a b N Va Vb HN).
  - rewrite (left_riemann_nan M HM); [reflexivity |].
    exists 0. split; [lia |]. rewrite Hs by lia. reflexivity.
  - intros i Hi. rewrite Hs by exact Hi. reflexivity.
Qed.

Lemma integrate_python_nan_bounds_witness :
  integrate_python small_angle (S754_infinity false) one 3 = Ok (PyFloat nan).
Proof.
  apply (integrate_python_nan_bounds small_angle (S754_infinity false) one 3).
  - exact small_angle_conforming.
  - reflexivity.
  - reflexivity.
  - split; [lia | vm_compute; reflexivity].
  - left. reflexivity.
Defined.

(** X12.  With a finite lower end and an infinite upper end the step is
    infinite: the first sample point [a + 0*dx] is a NaN and the second an
    infinity, so [integrate_python] returns NaN for [N = 1] and raises
    [ValueError] from [N = 2] on. *)
Theorem integrate_python_infinite_upper (M : libm) (a b : float) (N : Z) :
  conforming M -> finite a = true -> is_inf b = true ->
  (N = 1 -> integrate_python M a b N = Ok (PyFloat nan)) /\
  (2 <= N < DBL_LIMIT -> integrate_python M a b N = Raise ValueError).
Proof.
  intros HM Fa Hb.
  pose proof (finite_valid a Fa) as Va.
  assert (Vb : valid b = true) by (destruct b; try discriminate; reflexivity).
  assert (Ha : is_finite a = true) by (destruct a; try discriminate; reflexivity).
  assert (H1 : 1 < DBL_LIMIT) by (vm_compute; reflexivity).
  split; intros HN.
  - subst N.
    destruct (sample_infinite_upper a b 1 Ha Hb) as [S0 _]; [lia |].
    rewrite (integrate_python_left M HM a b 1 Va Vb); [| lia |].
    + rewrite (left_riemann_nan M HM); [reflexivity |].
      exists 0. split; [lia |]. rewrite S0. reflexivity.
    + intros i Hi. replace i with 0 by lia. rewrite S0. reflexivity.
  - destruct (sample_infinite_upper a b N Ha Hb) as [_ S1]; [lia |].
    apply integrate_python_raises; auto; [lia |].
    exists 1. split; [lia | exact S1].
Qed.

Lemma integrate_python_infinite_upper_witness :
  integrate_python small_angle zero (S754_infinity false) 1 = Ok (PyFloat nan) /\
  integrate_python small_angle zero (S754_infinity false) 2 = Raise ValueError.
Proof.
  destruct (integrate_python_infinite_upper small_angle zero (S754_infinity false) 1)
    as [H1 _]; [exact small_angle_conforming | reflexivity | reflexivity |].
  destruct (integrate_python_infinite_upper small_angle zero (S754_infinity false) 2)
    as [_ H2]; [exact small_angle_conforming | reflexivity | reflexivity |].
  split; [apply H1; reflexivity | apply H2].
  split; [lia | vm_compute; reflexivity].
Defined.

(** ** Zero-width intervals *)

(** X13.  On a zero-width interval [a, a] with [a] finite, each of the four
    Cython routines returns, for [N] from 1 up to the largest C int, the
    zero [integrate_python] returns: [s * 0.0], with the sign of the
    accumulated sum [s]. *)
Theorem cython_zero_width (M : libm) (a : float) (N : Z) :
  conforming M -> finite a = true -> 1 <= N <= INT_MAX ->
  let z := S754_zero (signbit (riemann_sum M a zero N)) in
  integrate_cython_types M a a N = Ok z /\
  integrate_cython_libc M a a N = Ok z /\
  integrate_cython_cfun M a a N = Ok z /\
  integrate M a a N = Ok z.
Proof.
  intros HM Ha HN z.
  assert (HI : INT_MIN <= N <= INT_MAX) by (unfold INT_MIN in *; lia).
  pose proof (int_range_dbl N HI) as HD.
  assert (E : left_riemann M a a N = z).
  { unfold left_riemann. rewrite step_self by (assumption || lia).
    apply mul_mag_zero. apply (riemann_sum_mag M HM).
    intros i Hi. apply sample_self; [assumption | lia]. }
  split.
  - apply types_of_python_ok; [exact HI |].
    apply integrate_python_self; [exact HM | exact Ha | lia].
  - rewrite <- E. repeat split; apply cy_integrate_left; (reflexivity || exact HN).
Qed.

Lemma cython_zero_width_witness :
  integrate small_angle (SFopp two_m30) (SFopp two_m30) 3 = Ok nzero.
Proof.
  destruct (cython_zero_width small_angle (SFopp two_m30) 3) as (_ & _ & _ & H).
  - exact small_angle_conforming.
  - reflexivity.
  - split; vm_compute; discriminate.
  - exact H.
Defined.

(** ** The numpy version *)



(** X15.  Up to 7 subdivisions [np.sum] adds in order, and
    [integrate_numpy] returns bit for bit what the loops return: the
    left-endpoint sum [s * dx], provided the step [dx] is not zero. *)
Theorem integrate_numpy_few_bins (M : libm) (a b : float) (N : Z) :
  conforming M -> valid a = true -> valid b = true ->
  1 <= N <= 7 -> is_zero (step a b N) = false ->
  integrate_numpy (numpy_of M) a b N = Ok (left_riemann M a b N).
Proof.
  intros HM Va Vb HN Hz.
  rewrite integrate_numpy_samples; [| | exact Hz].
  2:{ assert (7 < DBL_LIMIT) by (vm_compute; reflexivity).
      set (L := DBL_LIMIT) in *. clearbody L. lia. }
  unfold add_reduce. rewrite pairwise_sum_short.
  2:{ rewrite !length_map, length_range. lia. }
  rewrite map_map, fold_left_map_add. fold (riemann_sum M a (step a b N) N).
  destruct (riemann_sum_not_nzero M HM a (step a b N) N Va (valid_step a b N Va Vb))
    as [_ Hnz].
  rewrite add_zero_l by exact Hnz. rewrite mul_comm. reflexivity.
Qed.

Lemma integrate_numpy_few_bins_witness :
  integrate_numpy (numpy_of small_angle) three_m30 three_m29 7
  = Ok (left_riemann small_angle three_m30 three_m29 7).
Proof.
  apply (integrate_numpy_few_bins small_angle three_m30 three_m29 7).
  - exact small_angle_conforming.
  - reflexivity.
  - reflexivity.
  - lia.
  - vm_compute. reflexivity.
Defined.



(** ** The timing report *)

(** X17.  Without a reference, [evalTime] prints the name and the best
    time in milliseconds only, and raises nothing whatever the timing; a
    reference that is false as a condition, the default [False] or a time
    of 0.0 of either sign, counts as none. *)
Theorem evalTime_without_reference
  (x : TimeitResult) (name : string) (ref : pynum) :
  py_bool ref = false ->
  evalTime x name ref
  = Ok (name ++ ": " ++ format_f 1 (mul (best x) (of_Z 1000)) ++ " ms")%string.
Proof.
  intros H. unfold evalTime. rewrite py_mul_1000. cbn [bind to_double].
  rewrite H. reflexivity.
Qed.

Lemma evalTime_without_reference_witness :
  evalTime t_python "Base Python" py_False
  = Ok "Base Python: 253.8 ms"%string /\
  evalTime t_python "Base Python" (PyFloat nzero)
  = Ok "Base Python: 253.8 ms"%string.
Proof.
  split.
  - apply (evalTime_without_reference t_python "Base Python" py_False).
    reflexivity.
  - apply (evalTime_without_reference t_python "Base Python" (PyFloat nzero)).
    reflexivity.
Defined.

(** X18.  With a reference time that is not zero and a best time of 0.0,
    [evalTime] raises [ZeroDivisionError] from [ref/x.best] and prints
    nothing. *)
Theorem evalTime_zero_best (x : TimeitResult) (name : string) (ref : float) :
  is_zero ref = false -> is_zero (best x) = true ->
  evalTime x name (PyFloat ref) = Raise ZeroDivisionError.
Proof.
  intros Hr Hb. unfold evalTime. rewrite py_mul_1000. cbn [bind to_double py_bool].
  rewrite Hr. cbn [negb bind]. unfold py_truediv. cbn [to_double bind].
  rewrite Hb. reflexivity.
Qed.

Lemma evalTime_zero_best_witness :
  evalTime {| best := zero |} "Cython" (PyFloat one) = Raise ZeroDivisionError.
Proof.
  apply (evalTime_zero_best {| best := zero |} "Cython" one); reflexivity.
Defined.

(** X19.  A timing reported against itself is [1.0x faster]: the factor
    printed is [ref/x.best], and a finite non-zero double divided by
    itself is exactly 1. *)
Theorem evalTime_against_itself (x : TimeitResult) (name : string) :
  is_finite (best x) = true -> is_zero (best x) = false ->
  evalTime x name (PyFloat (best x))
  = Ok (name ++ ": " ++ format_f 1 (mul (best x) (of_Z 1000))
          ++ " ms (1.0x faster than base Python)")%string.
Proof.
  intros Hf Hz. unfold evalTime. rewrite py_mul_1000. cbn [bind to_double py_bool].
  rewrite Hz. cbn [negb bind]. unfold py_truediv. cbn [to_double bind].
  rewrite Hz, div_self by assumption. cbn [bind].
  change (format_f 1 one) with "1.0"%string.
  rewrite !append_assoc. reflexivity.
Qed.

Lemma evalTime_against_itself_witness :
  evalTime t_python "Base Python" (PyFloat (best t_python))
  = Ok "Base Python: 253.8 ms (1.0x faster than base Python)"%string.
Proof.
  apply (evalTime_against_itself t_python "Base Python"); reflexivity.
Defined.
